(** * passmanager: the encrypted vault container, the cipher and the TOTP engine

    A shallow embedding of the storage, crypto, service, entity and totp
    packages of hambosto/passmanager and of the vault-facing part of its
    terminal application, the properties its specification states about
    them, and further properties the code has.

    Conventions.
    - A Go [[]byte] is a [list byte]; a Go [string] is a [string] (a sequence
      of 8-bit characters, as in Go).
    - [uint32], [uint64] and [int64] are [Z] with the wrap-around written out.
    - [int] is the 64-bit [int] of the platforms the program is built for.
    - A Go function returning [(T, error)] returns a [result], which also
      records a run-time panic.
    - State the code reads or writes (the file system, the random source) is
      passed in and out explicitly. *)

From Stdlib Require Import ZArith List Bool Lia String Ascii.
From Stdlib Require Import Strings.Byte.
Import ListNotations.

Local Open Scope Z_scope.

(* ================================================================== *)
(** * Results, bytes and fixed-width integers *)

(** A Go [error]: one made by [fmt.Errorf] (or [errors.New]) from a format
    and its arguments, or one returned by the standard library, named by its
    message. *)
Inductive error : Type :=
| Errorf (format : string) (args : list arg)
| LibError (msg : string)
with arg : Type :=
| Int (z : Z)
| Str (s : string)
| Wrapped (e : error).

(** The outcome of a Go call: a value, a returned [error], or a run-time
    panic (which unwinds through every caller here: nothing recovers). *)
Inductive result (A : Type) : Type :=
| Ok (a : A)
| Err (e : error)
| Panic (msg : string).
Arguments Ok {A} a.
Arguments Err {A} e.
Arguments Panic {A} msg.

Definition bind {A B} (r : result A) (k : A -> result B) : result B :=
  match r with
  | Ok a => k a
  | Err e => Err e
  | Panic m => Panic m
  end.

(** [if err != nil { return fmt.Errorf("...: %w", err) }]: the error is
    wrapped, a value or a panic passes. *)
Definition wrap {A} (format : string) (r : result A) : result A :=
  match r with
  | Ok a => Ok a
  | Err e => Err (Errorf format [Wrapped e])
  | Panic m => Panic m
  end.

Definition is_ok {A} (r : result A) : bool :=
  match r with Ok _ => true | _ => false end.

Definition is_err {A} (r : result A) : bool :=
  match r with Err _ => true | _ => false end.

Declare Scope result_scope.
Delimit Scope result_scope with result.
Notation "x <- c ;; k" := (bind c (fun x => k))
  (at level 61, c at next level, right associativity) : result_scope.

Definition Z_of_byte (b : byte) : Z := Z.of_N (Byte.to_N b).

Definition byte_of_Z (z : Z) : byte :=
  match Byte.of_N (Z.to_N (z mod 256)) with
  | Some b => b
  | None => x00
  end.

Definition uint32 (z : Z) : Z := z mod 2 ^ 32.
Definition uint64 (z : Z) : Z := z mod 2 ^ 64.

(** [int64(z)]: two's complement wrap-around into [-2^63, 2^63). *)
Definition int64 (z : Z) : Z := (z + 2 ^ 63) mod 2 ^ 64 - 2 ^ 63.

(** [len(s)] as a Go [int]. *)
Definition len {A} (l : list A) : Z := Z.of_nat (List.length l).

(** [s[:n]] and [s[n:]] for [0 <= n <= len(s)]. *)
Definition slice_to {A} (n : Z) (l : list A) : list A := firstn (Z.to_nat n) l.
Definition slice_from {A} (n : Z) (l : list A) : list A := skipn (Z.to_nat n) l.

Definition bytes_eqb (a b : list byte) : bool :=
  if list_eq_dec Byte.byte_eq_dec a b then true else false.

(** [binary.Write(buf, binary.LittleEndian, v)] for a [uint32]. *)
Definition put_uint32_le (v : Z) : list byte :=
  [ byte_of_Z v;
    byte_of_Z (Z.shiftr v 8);
    byte_of_Z (Z.shiftr v 16);
    byte_of_Z (Z.shiftr v 24) ].

(** [binary.Read(r, binary.LittleEndian, &v)] for a [uint32], on a reader of
    exactly four bytes (it cannot fail there). *)
Definition get_uint32_le (bs : list byte) : Z :=
  match bs with
  | [b0; b1; b2; b3] =>
      Z.lor (Z_of_byte b0)
        (Z.lor (Z.shiftl (Z_of_byte b1) 8)
           (Z.lor (Z.shiftl (Z_of_byte b2) 16) (Z.shiftl (Z_of_byte b3) 24)))
  | _ => 0
  end.

(* ------------------------------------------------------------------ *)
(** ** Facts on bytes and fixed-width integers *)

Lemma Z_of_byte_range (b : byte) : 0 <= Z_of_byte b < 256.
Proof.
  unfold Z_of_byte. pose proof (Byte.to_N_bounded b) as H. lia.
Qed.

Lemma byte_of_Z_of_byte (b : byte) : byte_of_Z (Z_of_byte b) = b.
Proof.
  unfold byte_of_Z. pose proof (Z_of_byte_range b) as H.
  rewrite Z.mod_small by exact H. unfold Z_of_byte.
  rewrite N2Z.id, Byte.of_to_N. reflexivity.
Qed.

Lemma Z_of_byte_of_Z (z : Z) : Z_of_byte (byte_of_Z z) = z mod 256.
Proof.
  unfold byte_of_Z, Z_of_byte.
  pose proof (Z.mod_pos_bound z 256 ltac:(lia)) as Hr.
  destruct (Byte.of_N (Z.to_N (z mod 256))) as [b|] eqn:E.
  - apply Byte.to_of_N in E. rewrite E. rewrite Z2N.id; lia.
  - apply Byte.of_N_None_iff in E. lia.
Qed.


Lemma bytes_eqb_eq (a b : list byte) : bytes_eqb a b = true <-> a = b.
Proof.
  unfold bytes_eqb. destruct (list_eq_dec Byte.byte_eq_dec a b); split;
    intros; try discriminate; auto.
Qed.

Lemma bytes_eqb_refl (a : list byte) : bytes_eqb a a = true.
Proof. now apply bytes_eqb_eq. Qed.

Lemma bytes_eqb_neq (a b : list byte) : bytes_eqb a b = false <-> a <> b.
Proof.
  unfold bytes_eqb. destruct (list_eq_dec Byte.byte_eq_dec a b); split;
    intros; try discriminate; auto. contradiction.
Qed.

Lemma uint32_range (z : Z) : 0 <= uint32 z < 2 ^ 32.
Proof. unfold uint32. apply Z.mod_pos_bound. lia. Qed.

Lemma uint32_small (z : Z) : 0 <= z < 2 ^ 32 -> uint32 z = z.
Proof. intro H. unfold uint32. now apply Z.mod_small. Qed.

Lemma get_put_uint32_le (v : Z) :
  0 <= v < 2 ^ 32 -> get_uint32_le (put_uint32_le v) = v.
Proof.
  intro Hv. unfold put_uint32_le, get_uint32_le.
  rewrite !Z_of_byte_of_Z.
  apply Z.bits_inj'. intros n Hn.
  rewrite !Z.lor_spec.
  change 256 with (2 ^ 8).
  destruct (Z.ltb_spec n 8) as [H8|H8].
  { rewrite Z.mod_pow2_bits_low by lia.
    rewrite !Z.shiftl_spec by lia.
    rewrite (Z.testbit_neg_r _ (n - 8)) by lia.
    rewrite (Z.testbit_neg_r _ (n - 16)) by lia.
    rewrite (Z.testbit_neg_r _ (n - 24)) by lia.
    now rewrite !orb_false_r. }
  rewrite (Z.mod_pow2_bits_high v 8 n) by lia. cbn [orb].
  rewrite !Z.shiftl_spec by lia.
  destruct (Z.ltb_spec n 16) as [H16|H16].
  { rewrite Z.mod_pow2_bits_low by lia.
    rewrite Z.shiftr_spec by lia.
    rewrite (Z.testbit_neg_r _ (n - 16)) by lia.
    rewrite (Z.testbit_neg_r _ (n - 24)) by lia.
    rewrite !orb_false_r. f_equal. lia. }
  rewrite (Z.mod_pow2_bits_high _ 8 (n - 8)) by lia. cbn [orb].
  destruct (Z.ltb_spec n 24) as [H24|H24].
  { rewrite Z.mod_pow2_bits_low by lia.
    rewrite Z.shiftr_spec by lia.
    rewrite (Z.testbit_neg_r _ (n - 24)) by lia.
    rewrite !orb_false_r. f_equal. lia. }
  rewrite (Z.mod_pow2_bits_high _ 8 (n - 16)) by lia. cbn [orb].
  destruct (Z.ltb_spec n 32) as [H32|H32].
  { rewrite Z.mod_pow2_bits_low by lia.
    rewrite Z.shiftr_spec by lia. f_equal. lia. }
  rewrite (Z.mod_pow2_bits_high _ 8 (n - 24)) by lia.
  symmetry. apply Z.bits_above_log2; [lia|].
  destruct (Z.eq_dec v 0) as [->|Hnz]; [simpl; lia|].
  apply Z.lt_le_trans with 32; [|lia].
  apply Z.log2_lt_pow2; lia.
Qed.


(* ================================================================== *)
(** * crypto/aes and crypto/cipher: AES-256 in Galois/Counter Mode

    The Go standard library is not part of the repository; AES follows
    FIPS 197 and GCM follows NIST SP 800-38D, which crypto/aes and
    crypto/cipher implement.  Inside the primitives a byte is its value in
    [Z]. *)

Module aes.

Definition BlockSize : Z := 16.

(** Multiplication by x in GF(2^8) modulo x^8 + x^4 + x^3 + x + 1. *)
Definition xtime (a : Z) : Z :=
  let s := Z.shiftl a 1 in
  Z.land (if Z.testbit a 7 then Z.lxor s 27 else s) 255.

Fixpoint gf_mul_loop (n : nat) (a b acc : Z) : Z :=
  match n with
  | O => acc
  | S n' =>
      gf_mul_loop n' (xtime a) (Z.shiftr b 1)
        (if Z.odd b then Z.lxor acc a else acc)
  end.

Definition gf_mul (a b : Z) : Z := gf_mul_loop 8 a b 0.

Fixpoint gf_pow (a : Z) (n : nat) : Z :=
  match n with
  | O => 1
  | S n' => gf_mul a (gf_pow a n')
  end.

(** The multiplicative inverse, with 0 sent to 0. *)
Definition gf_inv (a : Z) : Z := gf_pow a 254.

Definition rotl8 (x k : Z) : Z :=
  Z.land (Z.lor (Z.shiftl x k) (Z.shiftr x (8 - k))) 255.

(** FIPS 197, 5.1.1: inverse followed by the affine transformation. *)
Definition sbox_of (a : Z) : Z :=
  let b := gf_inv a in
  Z.lxor b (Z.lxor (rotl8 b 1) (Z.lxor (rotl8 b 2)
    (Z.lxor (rotl8 b 3) (Z.lxor (rotl8 b 4) 99)))).

Definition sbox : list Z :=
  Eval vm_compute in map (fun i => sbox_of (Z.of_nat i)) (seq 0 256).

Definition sub_byte (a : Z) : Z := nth (Z.to_nat a) sbox 0.

(** Words of the key schedule are big-endian: the first byte is the most
    significant. *)
Definition word_of_bytes (b0 b1 b2 b3 : Z) : Z :=
  Z.lor (Z.shiftl b0 24) (Z.lor (Z.shiftl b1 16) (Z.lor (Z.shiftl b2 8) b3)).

Definition bytes_of_word (w : Z) : list Z :=
  [ Z.land (Z.shiftr w 24) 255; Z.land (Z.shiftr w 16) 255;
    Z.land (Z.shiftr w 8) 255; Z.land w 255 ].

Definition sub_word (w : Z) : Z :=
  match bytes_of_word w with
  | [b0; b1; b2; b3] =>
      word_of_bytes (sub_byte b0) (sub_byte b1) (sub_byte b2) (sub_byte b3)
  | _ => 0
  end.

Definition rot_word (w : Z) : Z :=
  Z.land (Z.lor (Z.shiftl w 8) (Z.shiftr w 24)) (2 ^ 32 - 1).

Fixpoint words_of_bytes (bs : list Z) : list Z :=
  match bs with
  | b0 :: b1 :: b2 :: b3 :: rest => word_of_bytes b0 b1 b2 b3 :: words_of_bytes rest
  | _ => []
  end.

(** Key expansion (FIPS 197, 5.2) for a key of [nk] words.  [rev_w] holds
    the words computed so far, latest first; [i] is the index of the next
    word and [rcon] the current round constant. *)
Fixpoint expand_loop (n : nat) (nk : nat) (i : Z) (rcon : Z) (rev_w : list Z)
  : list Z :=
  match n with
  | O => rev rev_w
  | S n' =>
      let prev := nth 0 rev_w 0 in
      let back := nth (nk - 1) rev_w 0 in
      let im := i mod Z.of_nat nk in
      let temp :=
        if im =? 0 then Z.lxor (sub_word (rot_word prev)) (Z.shiftl rcon 24)
        else if (6 <? Z.of_nat nk) && (im =? 4) then sub_word prev
        else prev in
      let rcon' := if im =? 0 then xtime rcon else rcon in
      expand_loop n' nk (i + 1) rcon' (Z.lxor back temp :: rev_w)
  end.

(** An expanded key: [nr] rounds and [nr + 1] round keys of 16 bytes. *)
Record Block : Type := mkBlock { nr : nat; rk : list Z }.

Definition expand_key (key : list Z) : Block :=
  let nk := (List.length key / 4)%nat in
  let nr := (nk + 6)%nat in
  {| nr := nr;
     rk := flat_map bytes_of_word
             (expand_loop (4 * (nr + 1) - nk) nk (Z.of_nat nk) 1
                (rev (words_of_bytes key))) |}.

Definition KeySizeError : error := LibError "crypto/aes: invalid key size".

(** [aes.NewCipher(key)]. *)
Definition NewCipher (key : list byte) : result Block :=
  let k := len key in
  if (k =? 16) || (k =? 24) || (k =? 32)
  then Ok (expand_key (map Z_of_byte key))
  else Err KeySizeError.

Definition round_key (c : Block) (r : nat) : list Z :=
  firstn 16 (skipn (16 * r) (rk c)).

Fixpoint xor_bytes (a b : list Z) : list Z :=
  match a, b with
  | x :: a', y :: b' => Z.lxor x y :: xor_bytes a' b'
  | _, _ => []
  end.

Definition sub_bytes (s : list Z) : list Z := map sub_byte s.

(** The state is held column by column, as the input bytes arrive. *)
Definition shift_rows (s : list Z) : list Z :=
  map (fun i => nth i s 0)
    [0; 5; 10; 15; 4; 9; 14; 3; 8; 13; 2; 7; 12; 1; 6; 11]%nat.

Definition mix_column (a0 a1 a2 a3 : Z) : list Z :=
  let x2 := xtime in
  let x3 := fun a => Z.lxor (xtime a) a in
  [ Z.lxor (x2 a0) (Z.lxor (x3 a1) (Z.lxor a2 a3));
    Z.lxor a0 (Z.lxor (x2 a1) (Z.lxor (x3 a2) a3));
    Z.lxor a0 (Z.lxor a1 (Z.lxor (x2 a2) (x3 a3)));
    Z.lxor (x3 a0) (Z.lxor a1 (Z.lxor a2 (x2 a3))) ].

Fixpoint mix_columns (s : list Z) : list Z :=
  match s with
  | a0 :: a1 :: a2 :: a3 :: rest => mix_column a0 a1 a2 a3 ++ mix_columns rest
  | _ => []
  end.

Fixpoint rounds (n : nat) (r : nat) (c : Block) (s : list Z) : list Z :=
  match n with
  | O => s
  | S n' =>
      rounds n' (S r) c
        (xor_bytes (mix_columns (shift_rows (sub_bytes s))) (round_key c r))
  end.

(** [cipher.Block.Encrypt]: one 16-byte block under the expanded key. *)
Definition encrypt_block (c : Block) (block : list Z) : list Z :=
  let s := xor_bytes block (round_key c 0) in
  let s := rounds (nr c - 1) 1 c s in
  xor_bytes (shift_rows (sub_bytes s)) (round_key c (nr c)).

End aes.

(** ** crypto/cipher: GCM with the standard 12-byte nonce and 16-byte tag *)

Module gcm.

Definition NonceSize : Z := 12.
Definition TagSize : Z := 16.

(** [((1 << 32) - 2) * BlockSize]: the longest plaintext GCM takes. *)
Definition MaxPlaintext : Z := (2 ^ 32 - 2) * 16.

Definition errOpen : error :=
  LibError "cipher: message authentication failed".

(** A 16-byte block as a 128-bit number, first byte most significant. *)
Definition Z_of_block (bs : list byte) : Z :=
  fold_left (fun acc b => acc * 256 + Z_of_byte b) bs 0.

Definition block_of_Z (z : Z) : list byte :=
  map (fun i => byte_of_Z (Z.shiftr z (8 * (15 - Z.of_nat i)))) (seq 0 16).

Definition be32 (v : Z) : list byte :=
  [ byte_of_Z (Z.shiftr v 24); byte_of_Z (Z.shiftr v 16);
    byte_of_Z (Z.shiftr v 8); byte_of_Z v ].

Definition be64 (v : Z) : list byte := be32 (Z.shiftr v 32) ++ be32 v.

Definition encrypt (c : aes.Block) (block : list byte) : list byte :=
  map byte_of_Z (aes.encrypt_block c (map Z_of_byte block)).

Definition bxor (a b : byte) : byte :=
  byte_of_Z (Z.lxor (Z_of_byte a) (Z_of_byte b)).

Fixpoint xor_bytes (a b : list byte) : list byte :=
  match a, b with
  | x :: a', y :: b' => bxor x y :: xor_bytes a' b'
  | _, _ => []
  end.

(** The reduction constant of GF(2^128): 11100001 followed by 120 zeros. *)
Definition R : Z := Z.shiftl 225 120.

(** Multiplication in GF(2^128) (SP 800-38D, 6.3): bit 0 is the leftmost. *)
Fixpoint mul_loop (n : nat) (i : Z) (x v z : Z) : Z :=
  match n with
  | O => z
  | S n' =>
      let z' := if Z.testbit x (127 - i) then Z.lxor z v else z in
      let v' := if Z.testbit v 0 then Z.lxor (Z.shiftr v 1) R
                else Z.shiftr v 1 in
      mul_loop n' (i + 1) x v' z'
  end.

Definition gf_mul (x y : Z) : Z := mul_loop 128 0 x y 0.

(** GHASH over the data split in 16-byte blocks, the last one padded with
    zeros. *)
Fixpoint ghash_blocks (n : nat) (h : Z) (y : Z) (data : list byte) : Z :=
  match n with
  | O => y
  | S n' =>
      match data with
      | [] => y
      | _ =>
          let blk := firstn 16 data in
          let blk := blk ++ repeat x00 (16 - List.length blk) in
          ghash_blocks n' h (gf_mul (Z.lxor y (Z_of_block blk)) h)
            (skipn 16 data)
      end
  end.

(** The counter mode: block [j] of the data is xored with the encryption of
    [nonce || ctr + j], the counter wrapping at 32 bits. *)
Fixpoint counter_crypt (n : nat) (c : aes.Block) (nonce : list byte) (ctr : Z)
  (data : list byte) : list byte :=
  match n with
  | O => []
  | S n' =>
      match data with
      | [] => []
      | _ =>
          xor_bytes (firstn 16 data) (encrypt c (nonce ++ be32 ctr))
            ++ counter_crypt n' c nonce (uint32 (ctr + 1)) (skipn 16 data)
      end
  end.

(** The tag over an empty additional data and the ciphertext [ct]. *)
Definition auth (c : aes.Block) (nonce ct : list byte) : list byte :=
  let h := Z_of_block (encrypt c (repeat x00 16)) in
  let y := ghash_blocks (List.length ct) h 0 ct in
  let lens := be64 0 ++ be64 (len ct * 8) in
  let s := gf_mul (Z.lxor y (Z_of_block lens)) h in
  xor_bytes (block_of_Z s) (encrypt c (nonce ++ be32 1)).

(** [gcm.Seal(nil, nonce, plaintext, nil)]. *)
Definition Seal (c : aes.Block) (nonce plaintext : list byte)
  : result (list byte) :=
  if negb (len nonce =? NonceSize) then
    Panic "crypto/cipher: incorrect nonce length given to GCM"
  else if MaxPlaintext <? len plaintext then
    Panic "crypto/cipher: message too large for GCM"
  else
    let ct := counter_crypt (List.length plaintext) c nonce 2 plaintext in
    Ok (ct ++ auth c nonce ct).

(** [gcm.Open(nil, nonce, ciphertext, nil)]. *)
Definition Open (c : aes.Block) (nonce ciphertext : list byte)
  : result (list byte) :=
  if negb (len nonce =? NonceSize) then
    Panic "crypto/cipher: incorrect nonce length given to GCM"
  else if len ciphertext <? TagSize then Err errOpen
  else if MaxPlaintext + TagSize <? len ciphertext then Err errOpen
  else
    let tag := slice_from (len ciphertext - TagSize) ciphertext in
    let ct := slice_to (len ciphertext - TagSize) ciphertext in
    if bytes_eqb (auth c nonce ct) tag
    then Ok (counter_crypt (List.length ct) c nonce 2 ct)
    else Err errOpen.

End gcm.

(** Test vectors: FIPS 197 appendix C.1 and C.3, and test cases 13 and 14
    of the GCM specification (all-zero 256-bit key and nonce). *)

Definition bytes_upto (n : nat) : list byte :=
  map (fun i => byte_of_Z (Z.of_nat i)) (seq 0 n).

Example aes128_fips197 :
  option_map
    (fun c => aes.encrypt_block c (map (fun i => Z.of_nat i * 17) (seq 0 16)))
    (match aes.NewCipher (bytes_upto 16) with Ok c => Some c | _ => None end)
  = Some [105; 196; 224; 216; 106; 123; 4; 48;
          216; 205; 183; 128; 112; 180; 197; 90].
Proof. vm_compute. reflexivity. Qed.

Example aes256_fips197 :
  option_map
    (fun c => aes.encrypt_block c (map (fun i => Z.of_nat i * 17) (seq 0 16)))
    (match aes.NewCipher (bytes_upto 32) with Ok c => Some c | _ => None end)
  = Some [142; 162; 183; 202; 81; 103; 69; 191;
          234; 252; 73; 144; 75; 73; 96; 137].
Proof. vm_compute. reflexivity. Qed.

Example gcm_test_case_13 :
  bind (aes.NewCipher (repeat x00 32))
       (fun c => gcm.Seal c (repeat x00 12) [])
  = Ok (map byte_of_Z [83; 15; 138; 251; 199; 69; 54; 185;
                       169; 99; 180; 241; 196; 203; 115; 139]).
Proof. vm_compute. reflexivity. Qed.

Example gcm_test_case_14 :
  bind (aes.NewCipher (repeat x00 32))
       (fun c => gcm.Seal c (repeat x00 12) (repeat x00 16))
  = Ok (map byte_of_Z [206; 167; 64; 61; 77; 96; 107; 110;
                       7; 78; 197; 211; 186; 243; 157; 24;
                       208; 209; 200; 167; 153; 153; 107; 240;
                       38; 91; 152; 181; 212; 138; 185; 25]).
Proof. vm_compute. reflexivity. Qed.

(* ================================================================== *)
(** * crypto/rand *)

(** The random source: the bytes it will deliver, in order.  A read of [n]
    bytes takes the next [n]; a source that runs dry fails the read. *)
Definition Rand : Type := list byte.

Definition ErrUnexpectedEOF : error := LibError "unexpected EOF".

(** [io.ReadFull(rand.Reader, buf)] and [rand.Read(buf)] for [len(buf) = n]. *)
Definition rand_Read (n : Z) (r : Rand) : result (list byte) * Rand :=
  if n <=? len r then (Ok (slice_to n r), slice_from n r)
  else (Err ErrUnexpectedEOF, []).

(* ================================================================== *)
(** * Package crypto: cipher.go *)

Module crypto.

(** [Encrypt] encrypts [plaintext] using AES-256-GCM and returns
    nonce + ciphertext (with the tag appended by GCM).  [cipher.NewGCM] does
    not fail on a 16-byte block cipher. *)
Definition Encrypt (plaintext key : list byte) (rnd : Rand)
  : result (list byte) * Rand :=
  if negb (len key =? 32) then
    (Err (Errorf "invalid key size: expected 32 bytes, got %d" [Int (len key)]),
     rnd)
  else
    match wrap "failed to create cipher: %w" (aes.NewCipher key) with
    | Err e => (Err e, rnd)
    | Panic m => (Panic m, rnd)
    | Ok block =>
        (* Generate a random nonce *)
        match rand_Read gcm.NonceSize rnd with
        | (Err e, rnd') =>
            (Err (Errorf "failed to generate nonce: %w" [Wrapped e]), rnd')
        | (Panic m, rnd') => (Panic m, rnd')
        | (Ok nonce, rnd') =>
            (* Encrypt and authenticate; return nonce + ciphertext *)
            (bind (gcm.Seal block nonce plaintext)
               (fun ciphertext => Ok (nonce ++ ciphertext)), rnd')
        end
    end.

(** [Decrypt] decrypts nonce + ciphertext (with tag) using AES-256-GCM. *)
Definition Decrypt (encrypted key : list byte) : result (list byte) :=
  if negb (len key =? 32) then
    Err (Errorf "invalid key size: expected 32 bytes, got %d" [Int (len key)])
  else
    bind (wrap "failed to create cipher: %w" (aes.NewCipher key))
      (fun block =>
         let nonceSize := gcm.NonceSize in
         if len encrypted <? nonceSize then
           Err (Errorf "ciphertext too short" [])
         else
           (* Extract nonce and ciphertext *)
           let nonce := slice_to nonceSize encrypted in
           let ciphertext := slice_from nonceSize encrypted in
           (* Decrypt and verify authentication *)
           wrap "decryption failed: %w" (gcm.Open block nonce ciphertext)).

(** [ZeroBytes] overwrites every byte of the slice with zero. *)
Definition ZeroBytes (b : list byte) : list byte := map (fun _ => x00) b.

End crypto.

(* ------------------------------------------------------------------ *)
(** ** The cipher round trip *)

Lemma len_app {A} (a b : list A) : len (a ++ b) = len a + len b.
Proof. unfold len. rewrite length_app. lia. Qed.

Lemma len_nonneg {A} (a : list A) : 0 <= len a.
Proof. unfold len. lia. Qed.

Lemma slice_to_app {A} (a b : list A) : slice_to (len a) (a ++ b) = a.
Proof.
  unfold slice_to, len. rewrite Nat2Z.id.
  rewrite firstn_app, Nat.sub_diag, firstn_all. cbn. apply app_nil_r.
Qed.

Lemma slice_from_app {A} (a b : list A) : slice_from (len a) (a ++ b) = b.
Proof.
  unfold slice_from, len. rewrite Nat2Z.id.
  rewrite skipn_app, Nat.sub_diag, skipn_all. reflexivity.
Qed.

Lemma firstn_skipn_app_exact {A} (a b : list A) (n : nat) :
  List.length a = n -> firstn n (a ++ b) = a /\ skipn n (a ++ b) = b.
Proof.
  intros <-. split.
  - rewrite firstn_app, Nat.sub_diag, firstn_all. cbn. apply app_nil_r.
  - rewrite skipn_app, Nat.sub_diag, skipn_all. reflexivity.
Qed.

Lemma words_of_bytes_length (n : nat) :
  forall bs, List.length bs = (4 * n)%nat ->
             List.length (aes.words_of_bytes bs) = n.
Proof.
  induction n as [|n IH]; intros bs H.
  - destruct bs; [reflexivity | discriminate].
  - destruct bs as [|b0 [|b1 [|b2 [|b3 rest]]]]; cbn in H; try lia.
    cbn [aes.words_of_bytes List.length]. f_equal. apply IH. lia.
Qed.

Lemma expand_loop_length (n nk : nat) :
  forall i rcon w,
    List.length (aes.expand_loop n nk i rcon w) = (n + List.length w)%nat.
Proof.
  induction n as [|n IH]; intros i rcon w.
  - cbn. now rewrite length_rev.
  - cbn [aes.expand_loop]. rewrite IH. cbn [List.length]. lia.
Qed.

Lemma flat_map_bytes_of_word_length (ws : list Z) :
  List.length (flat_map aes.bytes_of_word ws) = (4 * List.length ws)%nat.
Proof.
  induction ws as [|w ws IH]; [reflexivity|].
  cbn [flat_map]. rewrite length_app, IH. cbn [aes.bytes_of_word List.length].
  lia.
Qed.

(** The key schedule of a key of [4 * nk] bytes has [nk + 7] round keys. *)
Lemma expand_key_length (key : list Z) (nk : nat) :
  List.length key = (4 * nk)%nat ->
  aes.nr (aes.expand_key key) = (nk + 6)%nat /\
  List.length (aes.rk (aes.expand_key key)) = (16 * (nk + 7))%nat.
Proof.
  intro H. unfold aes.expand_key.
  assert (Hd : (List.length key / 4 = nk)%nat).
  { rewrite H, Nat.mul_comm. apply Nat.div_mul. lia. }
  rewrite Hd. cbn [aes.nr aes.rk]. split; [reflexivity|].
  rewrite flat_map_bytes_of_word_length, expand_loop_length, length_rev.
  rewrite (words_of_bytes_length nk) by exact H. lia.
Qed.

Lemma aes_xor_bytes_length (a b : list Z) :
  List.length (aes.xor_bytes a b) = Nat.min (List.length a) (List.length b).
Proof.
  revert b. induction a as [|x a IH]; intros [|y b]; cbn; auto.
Qed.

Lemma round_key_length (c : aes.Block) (r : nat) :
  (16 * (r + 1) <= List.length (aes.rk c))%nat ->
  List.length (aes.round_key c r) = 16%nat.
Proof.
  intro H. unfold aes.round_key. rewrite length_firstn, length_skipn. lia.
Qed.

Lemma encrypt_block_length (c : aes.Block) (block : list Z) :
  List.length (aes.rk c) = (16 * (aes.nr c + 1))%nat ->
  List.length (aes.encrypt_block c block) = 16%nat.
Proof.
  intro H. unfold aes.encrypt_block.
  rewrite aes_xor_bytes_length, round_key_length by lia.
  unfold aes.shift_rows. rewrite length_map. reflexivity.
Qed.

Lemma NewCipher_32 (key : list byte) :
  len key = 32 ->
  exists c, aes.NewCipher key = Ok c /\
            List.length (aes.rk c) = (16 * (aes.nr c + 1))%nat.
Proof.
  intro H. unfold aes.NewCipher. rewrite H. cbn [Z.eqb orb Pos.eqb].
  eexists. split; [reflexivity|].
  destruct (expand_key_length (map Z_of_byte key) 8) as [Hn Hl].
  { rewrite length_map. unfold len in H. lia. }
  rewrite Hn, Hl. reflexivity.
Qed.

Section GcmFacts.

Variable c : aes.Block.
Hypothesis c_wf : List.length (aes.rk c) = (16 * (aes.nr c + 1))%nat.

Lemma gcm_encrypt_length (block : list byte) :
  List.length (gcm.encrypt c block) = 16%nat.
Proof.
  unfold gcm.encrypt. rewrite length_map. now apply encrypt_block_length.
Qed.

Lemma lxor_byte_range (a b : Z) :
  0 <= a < 256 -> 0 <= b < 256 -> 0 <= Z.lxor a b < 256.
Proof.
  intros Ha Hb. split; [apply Z.lxor_nonneg; lia|].
  destruct (Z.eq_dec (Z.lxor a b) 0) as [->|Hnz]; [lia|].
  assert (0 <= Z.lxor a b) by (apply Z.lxor_nonneg; lia).
  change 256 with (2 ^ 8). apply Z.log2_lt_pow2; [lia|].
  eapply Z.le_lt_trans; [apply Z.log2_lxor; lia|].
  apply Z.max_lub_lt.
  - destruct (Z.eq_dec a 0) as [->|?]; [cbn; lia|].
    apply Z.log2_lt_pow2; lia.
  - destruct (Z.eq_dec b 0) as [->|?]; [cbn; lia|].
    apply Z.log2_lt_pow2; lia.
Qed.

Lemma bxor_involutive (a b : byte) : gcm.bxor (gcm.bxor a b) b = a.
Proof.
  unfold gcm.bxor. rewrite Z_of_byte_of_Z.
  pose proof (Z_of_byte_range a) as Ha. pose proof (Z_of_byte_range b) as Hb.
  rewrite Z.mod_small by (apply lxor_byte_range; assumption).
  rewrite Z.lxor_assoc, Z.lxor_nilpotent, Z.lxor_0_r.
  apply byte_of_Z_of_byte.
Qed.

Lemma gcm_xor_bytes_length (a b : list byte) :
  List.length (gcm.xor_bytes a b) = Nat.min (List.length a) (List.length b).
Proof.
  revert b. induction a as [|x a IH]; intros [|y b]; cbn; auto.
Qed.

Lemma gcm_xor_bytes_involutive (a k : list byte) :
  (List.length a <= List.length k)%nat ->
  gcm.xor_bytes (gcm.xor_bytes a k) k = a.
Proof.
  revert k. induction a as [|x a IH]; intros [|y k] H; cbn in *; try lia; auto.
  rewrite bxor_involutive, IH by lia. reflexivity.
Qed.

Lemma counter_crypt_length (nonce : list byte) (n : nat) :
  forall ctr data,
    (List.length data <= n)%nat ->
    List.length (gcm.counter_crypt n c nonce ctr data) = List.length data.
Proof.
  induction n as [|n IH]; intros ctr data H.
  - destruct data; cbn in *; [reflexivity | lia].
  - destruct data as [|d data]; [reflexivity|].
    cbn [gcm.counter_crypt].
    rewrite length_app, gcm_xor_bytes_length, gcm_encrypt_length.
    rewrite IH by (rewrite length_skipn; cbn [List.length] in *; lia).
    rewrite length_firstn, length_skipn. lia.
Qed.

Lemma counter_crypt_step (nonce : list byte) (n : nat) (ctr : Z)
  (data : list byte) :
  data <> [] ->
  gcm.counter_crypt (S n) c nonce ctr data
  = gcm.xor_bytes (firstn 16 data) (gcm.encrypt c (nonce ++ gcm.be32 ctr))
      ++ gcm.counter_crypt n c nonce (uint32 (ctr + 1)) (skipn 16 data).
Proof. destruct data; [contradiction | reflexivity]. Qed.

(** Counter mode is its own inverse. *)
Lemma counter_crypt_involutive (nonce : list byte) (n : nat) :
  forall m ctr data,
    (List.length data <= n)%nat -> (List.length data <= m)%nat ->
    gcm.counter_crypt m c nonce ctr (gcm.counter_crypt n c nonce ctr data)
    = data.
Proof.
  induction n as [|n IH]; intros m ctr data Hn Hm.
  - destruct data; cbn in *; [|lia]. destruct m; reflexivity.
  - destruct (list_eq_dec Byte.byte_eq_dec data []) as [->|Hne];
      [destruct m; reflexivity|].
    assert (Hpos : (0 < List.length data)%nat).
    { destruct data; [contradiction | cbn; lia]. }
    destruct m as [|m]; [lia|].
    rewrite (counter_crypt_step nonce n) by exact Hne.
    set (ks := gcm.encrypt c (nonce ++ gcm.be32 ctr)).
    assert (Hks : List.length ks = 16%nat) by apply gcm_encrypt_length.
    set (X := gcm.xor_bytes (firstn 16 data) ks).
    set (rest := gcm.counter_crypt n c nonce (uint32 (ctr + 1)) (skipn 16 data)).
    assert (HX : List.length X = Nat.min 16 (List.length data)).
    { unfold X. rewrite gcm_xor_bytes_length, !length_firstn. lia. }
    assert (Hrest : List.length rest = (List.length data - 16)%nat).
    { unfold rest. rewrite counter_crypt_length; rewrite length_skipn; lia. }
    assert (Hfirst : firstn 16 (X ++ rest) = X /\ skipn 16 (X ++ rest) = rest).
    { destruct (Nat.le_gt_cases 16 (List.length data)) as [Hge|Hlt].
      - apply firstn_skipn_app_exact. lia.
      - assert (Hr0 : rest = []) by (apply length_zero_iff_nil; lia).
        rewrite Hr0, app_nil_r.
        rewrite firstn_all2 by lia. rewrite skipn_all2 by lia.
        split; reflexivity. }
    destruct Hfirst as [Hf Hs].
    rewrite counter_crypt_step.
    2:{ intro E. apply (f_equal (@List.length byte)) in E.
        rewrite length_app in E. cbn [List.length] in E. lia. }
    rewrite Hf, Hs. fold ks. unfold X.
    rewrite gcm_xor_bytes_involutive by (rewrite length_firstn; lia).
    unfold rest. rewrite IH by (rewrite length_skipn; lia).
    apply firstn_skipn.
Qed.

Lemma auth_length (nonce ct : list byte) :
  List.length (gcm.auth c nonce ct) = 16%nat.
Proof.
  unfold gcm.auth. rewrite gcm_xor_bytes_length, gcm_encrypt_length.
  unfold gcm.block_of_Z. rewrite length_map, length_seq. reflexivity.
Qed.

(** [Open] returns what [Seal] was given, under the same key and nonce. *)
Lemma Open_Seal (nonce plaintext sealed : list byte) :
  gcm.Seal c nonce plaintext = Ok sealed ->
  gcm.Open c nonce sealed = Ok plaintext.
Proof.
  unfold gcm.Seal, gcm.Open.
  destruct (negb (len nonce =? gcm.NonceSize)); [discriminate|].
  destruct (Z.ltb_spec gcm.MaxPlaintext (len plaintext)) as [|Hmax];
    [discriminate|].
  intro H. injection H as <-.
  set (ct := gcm.counter_crypt (List.length plaintext) c nonce 2 plaintext).
  assert (Hct : List.length ct = List.length plaintext)
    by (apply counter_crypt_length; lia).
  assert (Htag : len (gcm.auth c nonce ct) = gcm.TagSize).
  { unfold len. rewrite auth_length. reflexivity. }
  rewrite len_app, Htag.
  assert (Hlen : len ct = len plaintext) by (unfold len; now rewrite Hct).
  pose proof (len_nonneg ct).
  destruct (Z.ltb_spec (len ct + gcm.TagSize) gcm.TagSize) as [Hc|_];
    [unfold gcm.TagSize in *; lia|].
  destruct (Z.ltb_spec (gcm.MaxPlaintext + gcm.TagSize)
              (len ct + gcm.TagSize)) as [Hc|_]; [lia|].
  replace (len ct + gcm.TagSize - gcm.TagSize) with (len ct) by lia.
  rewrite slice_from_app, slice_to_app, bytes_eqb_refl.
  rewrite Hct. unfold ct.
  rewrite counter_crypt_involutive by lia. reflexivity.
Qed.

End GcmFacts.

(** C2. For every plaintext [p] and every 32-byte key [k], [Encrypt]
    succeeds (given a random source that delivers the 12-byte nonce, and a
    plaintext within the size GCM accepts) and [Decrypt] of its output under
    [k] returns exactly [p]. *)
Theorem Decrypt_Encrypt_roundtrip (p k : list byte) (rnd : Rand) :
  len k = 32 ->
  len p <= gcm.MaxPlaintext ->
  gcm.NonceSize <= len rnd ->
  exists sealed rnd',
    crypto.Encrypt p k rnd = (Ok sealed, rnd') /\
    crypto.Decrypt sealed k = Ok p.
Proof.
  intros Hk Hp Hr.
  destruct (NewCipher_32 k Hk) as (c & Hc & Hwf).
  unfold crypto.Encrypt, crypto.Decrypt. rewrite Hk, Hc.
  cbn [Z.eqb Pos.eqb negb wrap bind].
  unfold rand_Read.
  destruct (Z.leb_spec gcm.NonceSize (len rnd)) as [_|]; [|lia].
  set (nonce := slice_to gcm.NonceSize rnd).
  assert (Hn : len nonce = gcm.NonceSize).
  { unfold nonce, slice_to, len in *. rewrite length_firstn.
    unfold gcm.NonceSize in *. lia. }
  destruct (gcm.Seal c nonce p) as [sealed| |] eqn:Hseal.
  - exists (nonce ++ sealed), (slice_from gcm.NonceSize rnd).
    split; [reflexivity|].
    rewrite len_app, Hn.
    pose proof (len_nonneg sealed).
    destruct (Z.ltb_spec (gcm.NonceSize + len sealed) gcm.NonceSize); [lia|].
    rewrite <- Hn, slice_to_app, slice_from_app.
    rewrite (Open_Seal c Hwf nonce p sealed Hseal). reflexivity.
  - unfold gcm.Seal in Hseal. rewrite Hn, Z.eqb_refl in Hseal.
    cbn [negb] in Hseal.
    destruct (Z.ltb_spec gcm.MaxPlaintext (len p)); [lia | discriminate].
  - unfold gcm.Seal in Hseal. rewrite Hn, Z.eqb_refl in Hseal.
    cbn [negb] in Hseal.
    destruct (Z.ltb_spec gcm.MaxPlaintext (len p)); [lia | discriminate].
Qed.

Lemma Decrypt_Encrypt_roundtrip_witness :
  exists sealed rnd',
    crypto.Encrypt (bytes_upto 20) (bytes_upto 32) (bytes_upto 12)
      = (Ok sealed, rnd') /\
    crypto.Decrypt sealed (bytes_upto 32) = Ok (bytes_upto 20).
Proof.
  apply Decrypt_Encrypt_roundtrip; vm_compute; congruence.
Defined.

(* ================================================================== *)
(** * Package storage: the vault container *)

(** The magic header for vault files. *)
Definition VaultHeader : string := "PMVAULT1".

(** The current vault file format version. *)
Definition VaultVersion : Z := uint32 1.

(** [[]byte(s)]. *)
Definition bytes (s : string) : list byte := list_byte_of_string s.

(** The buffer [Save] builds and hands to [os.WriteFile]:
    [Header: 8 bytes][Version: 4 bytes][KDF Params Length: 4 bytes]
    [KDF Params][Encrypted Data].  (Writes into a [bytes.Buffer] do not
    fail.) *)
Definition Save_buf (paramsJSON encrypted : list byte) : list byte :=
  (* Write header *)
  let buf := bytes VaultHeader in
  (* Write version *)
  let buf := buf ++ put_uint32_le VaultVersion in
  (* Write KDF params length *)
  let paramsLen := uint32 (len paramsJSON) in
  let buf := buf ++ put_uint32_le paramsLen in
  (* Write KDF params *)
  let buf := buf ++ paramsJSON in
  (* Write encrypted data *)
  buf ++ encrypted.

(** What [Load] does with the bytes of the file before it parses the KDF
    parameters and decrypts: it checks the size, the header and the version,
    and cuts the rest into the KDF parameters and the encrypted data. *)
Definition Load_parse (data : list byte) : result (list byte * list byte) :=
  (* Verify minimum size *)
  let minSize := len (bytes VaultHeader) + 4 + 4 in
  if len data <? minSize then
    Err (Errorf "vault file corrupted: too small" [])
  else
    (* Verify header *)
    let header := slice_to (len (bytes VaultHeader)) data in
    if negb (bytes_eqb header (bytes VaultHeader)) then
      Err (Errorf "invalid vault file: wrong header" [])
    else
      let data := slice_from (len (bytes VaultHeader)) data in
      (* Read version *)
      let version := get_uint32_le (slice_to 4 data) in
      let data := slice_from 4 data in
      if negb (version =? VaultVersion) then
        Err (Errorf "unsupported vault version: %d" [Int version])
      else
        (* Read KDF params length *)
        let paramsLen := get_uint32_le (slice_to 4 data) in
        let data := slice_from 4 data in
        (* Read KDF params *)
        if len data <? paramsLen then
          Err (Errorf "vault file corrupted: params too short" [])
        else
          let paramsJSON := slice_to paramsLen data in
          let data := slice_from paramsLen data in
          Ok (paramsJSON, data).

(** What [LoadParams] does with the bytes of the file before it parses the
    KDF parameters: it checks the size, skips the header and the version, and
    cuts out the KDF parameters. *)
Definition LoadParams_parse (data : list byte) : result (list byte) :=
  (* Verify minimum size *)
  let minSize := len (bytes VaultHeader) + 4 + 4 in
  if len data <? minSize then
    Err (Errorf "vault file corrupted: too small" [])
  else
    (* Skip header *)
    let data := slice_from (len (bytes VaultHeader)) data in
    (* Skip version *)
    let data := slice_from 4 data in
    (* Read KDF params length *)
    let paramsLen := get_uint32_le (slice_to 4 data) in
    let data := slice_from 4 data in
    (* Read KDF params *)
    if len data <? paramsLen then
      Err (Errorf "vault file corrupted: params too short" [])
    else
      let paramsJSON := slice_to paramsLen data in
      Ok paramsJSON.

(** The errors the specification calls [CorruptVault], by sub-reason. *)
Inductive CorruptVault : error -> Prop :=
| too_small : CorruptVault (Errorf "vault file corrupted: too small" [])
| bad_magic : CorruptVault (Errorf "invalid vault file: wrong header" [])
| bad_version v :
    CorruptVault (Errorf "unsupported vault version: %d" [Int v])
| truncated_params :
    CorruptVault (Errorf "vault file corrupted: params too short" []).

(** The version field of a file: the four bytes after the 8-byte magic,
    little-endian. *)
Definition version_field (data : list byte) : Z :=
  get_uint32_le (slice_to 4 (slice_from 8 data)).

(* ------------------------------------------------------------------ *)
(** ** The container round trip *)

Lemma slice_to_len_app {A} (n : Z) (a b : list A) :
  n = len a -> slice_to n (a ++ b) = a.
Proof. intros ->. apply slice_to_app. Qed.

Lemma slice_from_len_app {A} (n : Z) (a b : list A) :
  n = len a -> slice_from n (a ++ b) = b.
Proof. intros ->. apply slice_from_app. Qed.

Lemma len_put_uint32_le (v : Z) : len (put_uint32_le v) = 4.
Proof. reflexivity. Qed.

Lemma len_header : len (bytes VaultHeader) = 8.
Proof. reflexivity. Qed.

Lemma Save_buf_assoc (paramsJSON encrypted : list byte) :
  Save_buf paramsJSON encrypted
  = bytes VaultHeader ++ put_uint32_le VaultVersion
      ++ put_uint32_le (uint32 (len paramsJSON)) ++ paramsJSON ++ encrypted.
Proof. unfold Save_buf. now rewrite <- !app_assoc. Qed.

(** C3. Encoding a KDF-parameter blob and a ciphertext blob into the
    container (magic, version, parameter length, parameters, ciphertext) and
    decoding the result yields the same two blobs; the length of the
    parameter blob has to fit the 4-byte length field. *)
Theorem container_roundtrip (paramsJSON encrypted : list byte) :
  len paramsJSON < 2 ^ 32 ->
  Load_parse (Save_buf paramsJSON encrypted) = Ok (paramsJSON, encrypted).
Proof.
  intro Hlen. pose proof (len_nonneg paramsJSON) as Hp.
  pose proof (len_nonneg encrypted) as He.
  rewrite Save_buf_assoc. unfold Load_parse.
  rewrite !len_app, !len_put_uint32_le, len_header.
  destruct (Z.ltb_spec (8 + (4 + (4 + (len paramsJSON + len encrypted))))
              (8 + 4 + 4)) as [|_]; [lia|].
  rewrite (slice_to_len_app 8) by reflexivity.
  rewrite bytes_eqb_refl. cbn [negb].
  rewrite (slice_from_len_app 8) by reflexivity.
  rewrite (slice_to_len_app 4) by reflexivity.
  rewrite (slice_from_len_app 4) by reflexivity.
  rewrite get_put_uint32_le by (unfold VaultVersion; cbn; lia).
  rewrite Z.eqb_refl. cbn [negb].
  rewrite (slice_to_len_app 4) by reflexivity.
  rewrite (slice_from_len_app 4) by reflexivity.
  rewrite get_put_uint32_le by apply uint32_range.
  rewrite uint32_small by lia.
  rewrite len_app.
  destruct (Z.ltb_spec (len paramsJSON + len encrypted) (len paramsJSON));
    [lia|].
  now rewrite slice_to_app, slice_from_app.
Qed.

Lemma container_roundtrip_witness :
  Load_parse (Save_buf (bytes "{}") (bytes_upto 28))
  = Ok (bytes "{}", bytes_upto 28).
Proof. apply container_roundtrip. vm_compute. reflexivity. Defined.

(** C5 and C6 rest on how the two parsers treat the first 16 bytes. *)

Lemma Load_parse_version_gate (data : list byte) :
  version_field data <> VaultVersion ->
  exists e, Load_parse data = Err e /\ CorruptVault e /\
            (16 <= len data -> slice_to 8 data = bytes VaultHeader ->
             e = Errorf "unsupported vault version: %d"
                   [Int (version_field data)]).
Proof.
  intro Hv. unfold Load_parse. rewrite len_header.
  destruct (Z.ltb_spec (len data) (8 + 4 + 4)) as [Hs|Hs].
  { eexists. split; [reflexivity|]. split; [constructor | lia]. }
  destruct (bytes_eqb (slice_to 8 data) (bytes VaultHeader)) eqn:Hh; cbn [negb].
  2:{ eexists. split; [reflexivity|]. split; [constructor|].
      intros _ Heq. apply bytes_eqb_neq in Hh. contradiction. }
  fold (version_field data).
  destruct (Z.eqb_spec (version_field data) VaultVersion) as [|_];
    [contradiction|]. cbn [negb].
  eexists. split; [reflexivity|]. split; [constructor | reflexivity].
Qed.

(** A file made of any 8-byte header, any 4-byte version, the length of
    the parameter blob, the blob and any payload: [LoadParams] cuts out the
    blob. *)
Lemma LoadParams_parse_any_header (hdr ver paramsJSON payload : list byte) :
  len hdr = 8 -> len ver = 4 -> len paramsJSON < 2 ^ 32 ->
  LoadParams_parse
    (hdr ++ ver ++ put_uint32_le (len paramsJSON) ++ paramsJSON ++ payload)
  = Ok paramsJSON.
Proof.
  intros Hh Hv Hp. pose proof (len_nonneg paramsJSON).
  pose proof (len_nonneg payload).
  unfold LoadParams_parse.
  rewrite !len_app, len_put_uint32_le, len_header, Hh, Hv.
  destruct (Z.ltb_spec (8 + (4 + (4 + (len paramsJSON + len payload))))
              (8 + 4 + 4)) as [|_]; [lia|].
  rewrite (slice_from_len_app 8) by (now rewrite Hh).
  rewrite (slice_from_len_app 4) by (now rewrite Hv).
  rewrite (slice_to_len_app 4) by reflexivity.
  rewrite (slice_from_len_app 4) by reflexivity.
  rewrite get_put_uint32_le by lia.
  rewrite len_app.
  destruct (Z.ltb_spec (len paramsJSON + len payload) (len paramsJSON));
    [lia|].
  now rewrite slice_to_app.
Qed.

(** The length the file declares for its parameter blob. *)
Definition declared_params_len (data : list byte) : Z :=
  get_uint32_le (slice_to 4 (slice_from 12 data)).

Lemma slice_from_slice_from {A} (n m : Z) (l : list A) :
  0 <= n -> 0 <= m -> slice_from m (slice_from n l) = slice_from (n + m) l.
Proof.
  intros Hn Hm. unfold slice_from. rewrite skipn_skipn. f_equal. lia.
Qed.

Lemma len_slice_from {A} (n : Z) (l : list A) :
  0 <= n <= len l -> len (slice_from n l) = len l - n.
Proof.
  intro H. unfold len, slice_from in *. rewrite length_skipn. lia.
Qed.


(** A file with a wrong magic and an unsupported version whose parameter
    record [LoadParams] reads all the same. *)
Definition bad_magic_file : list byte :=
  bytes "NOTVAULT" ++ put_uint32_le 7 ++ put_uint32_le 2 ++ bytes "{}"
    ++ bytes "payload".

(** C6, as stated, fails: the magic and the version of this file do not
    match, and reading its parameters succeeds. *)
Lemma LoadParams_accepts_bad_magic_and_version :
  slice_to 8 bad_magic_file <> bytes VaultHeader /\
  version_field bad_magic_file <> VaultVersion /\
  LoadParams_parse bad_magic_file = Ok (bytes "{}") /\
  (exists e, Load_parse bad_magic_file = Err e).
Proof.
  repeat split; try (vm_compute; congruence).
  eexists. vm_compute. reflexivity.
Qed.


(* ------------------------------------------------------------------ *)
(** ** What the cipher accepts and what it returns *)

(** What a successful [Seal] is made of. *)
Lemma Seal_Ok_inv (c : aes.Block) (nonce p sealed : list byte) :
  gcm.Seal c nonce p = Ok sealed ->
  len nonce = gcm.NonceSize /\ len p <= gcm.MaxPlaintext /\
  sealed = gcm.counter_crypt (List.length p) c nonce 2 p
             ++ gcm.auth c nonce (gcm.counter_crypt (List.length p) c nonce 2 p).
Proof.
  unfold gcm.Seal.
  destruct (Z.eqb_spec (len nonce) gcm.NonceSize) as [Hn|]; cbn [negb];
    [|discriminate].
  destruct (Z.ltb_spec gcm.MaxPlaintext (len p)); [discriminate|].
  intro E. injection E as <-. auto.
Qed.

(** What a successful [Open] has checked. *)
Lemma Open_Ok_inv (c : aes.Block) (nonce ciphertext p : list byte) :
  gcm.Open c nonce ciphertext = Ok p ->
  let ct := slice_to (len ciphertext - gcm.TagSize) ciphertext in
  len nonce = gcm.NonceSize /\
  gcm.TagSize <= len ciphertext <= gcm.MaxPlaintext + gcm.TagSize /\
  gcm.auth c nonce ct = slice_from (len ciphertext - gcm.TagSize) ciphertext /\
  p = gcm.counter_crypt (List.length ct) c nonce 2 ct.
Proof.
  unfold gcm.Open.
  destruct (Z.eqb_spec (len nonce) gcm.NonceSize) as [Hn|]; cbn [negb];
    [|discriminate].
  destruct (Z.ltb_spec (len ciphertext) gcm.TagSize); [discriminate|].
  destruct (Z.ltb_spec (gcm.MaxPlaintext + gcm.TagSize) (len ciphertext));
    [discriminate|].
  destruct (bytes_eqb _ _) eqn:Htag; [|discriminate].
  apply bytes_eqb_eq in Htag.
  intro E. injection E as <-. cbv zeta. repeat split; auto.
Qed.

Lemma len_slice_to {A} (n : Z) (l : list A) :
  0 <= n <= len l -> len (slice_to n l) = n.
Proof.
  intro H. unfold len, slice_to in *. rewrite length_firstn. lia.
Qed.

Lemma slice_to_slice_from {A} (n : Z) (l : list A) :
  slice_to n l ++ slice_from n l = l.
Proof. apply firstn_skipn. Qed.

(** What a successful [Encrypt] has done: it took the nonce off the random
    source and sealed the plaintext under it. *)
Lemma Encrypt_Ok_inv (p k : list byte) (rnd rnd' : Rand) (out : list byte) :
  crypto.Encrypt p k rnd = (Ok out, rnd') ->
  len k = 32 /\ gcm.NonceSize <= len rnd /\ rnd' = slice_from gcm.NonceSize rnd /\
  exists c sealed,
    aes.NewCipher k = Ok c /\
    List.length (aes.rk c) = (16 * (aes.nr c + 1))%nat /\
    gcm.Seal c (slice_to gcm.NonceSize rnd) p = Ok sealed /\
    out = slice_to gcm.NonceSize rnd ++ sealed.
Proof.
  unfold crypto.Encrypt.
  destruct (Z.eqb_spec (len k) 32) as [Hk|]; cbn [negb]; [|discriminate].
  destruct (NewCipher_32 k Hk) as (c & Hc & Hwf). rewrite Hc. cbn [wrap].
  unfold rand_Read.
  destruct (Z.leb_spec gcm.NonceSize (len rnd)) as [Hr|]; [|discriminate].
  destruct (gcm.Seal c (slice_to gcm.NonceSize rnd) p) as [sealed| |] eqn:Hs;
    cbn [bind]; try discriminate.
  intro E. injection E as <- <-.
  repeat split; auto. exists c, sealed. auto.
Qed.

(** What a successful [Decrypt] has checked. *)
Lemma Decrypt_Ok_inv (e k p : list byte) :
  crypto.Decrypt e k = Ok p ->
  len k = 32 /\ gcm.NonceSize <= len e /\
  exists c,
    aes.NewCipher k = Ok c /\
    List.length (aes.rk c) = (16 * (aes.nr c + 1))%nat /\
    gcm.Open c (slice_to gcm.NonceSize e) (slice_from gcm.NonceSize e) = Ok p.
Proof.
  unfold crypto.Decrypt.
  destruct (Z.eqb_spec (len k) 32) as [Hk|]; cbn [negb]; [|discriminate].
  destruct (NewCipher_32 k Hk) as (c & Hc & Hwf). rewrite Hc. cbn [wrap bind].
  destruct (Z.ltb_spec (len e) gcm.NonceSize); [discriminate|].
  destruct (gcm.Open c _ _) as [p'| |] eqn:Ho; cbn [wrap]; try discriminate.
  intro E. injection E as <-. repeat split; auto. exists c. auto.
Qed.

(** [Decrypt] undoes a successful [Encrypt]. *)
Lemma Decrypt_of_Encrypt (p k : list byte) (rnd rnd' : Rand) (out : list byte) :
  crypto.Encrypt p k rnd = (Ok out, rnd') -> crypto.Decrypt out k = Ok p.
Proof.
  intro H.
  destruct (Encrypt_Ok_inv _ _ _ _ _ H)
    as (Hk & Hr & _ & c & sealed & Hc & Hwf & Hs & ->).
  assert (Hn : len (slice_to gcm.NonceSize rnd) = gcm.NonceSize).
  { apply len_slice_to. unfold gcm.NonceSize in *. lia. }
  unfold crypto.Decrypt. rewrite Hk, Hc. cbn [Z.eqb Pos.eqb negb wrap bind].
  rewrite len_app, Hn. pose proof (len_nonneg sealed).
  destruct (Z.ltb_spec (gcm.NonceSize + len sealed) gcm.NonceSize); [lia|].
  rewrite <- Hn at 1 3. rewrite slice_to_app, slice_from_app.
  now rewrite (Open_Seal c Hwf _ p sealed Hs).
Qed.

(** X1. [Encrypt] returns a ciphertext exactly when the key has 32 bytes,
    the random source still holds the 12 bytes of a nonce and the plaintext
    is within the size GCM takes.  A key of another length is refused before
    any random byte is drawn; a source that runs dry is reported as a failed
    nonce; a plaintext above the GCM limit makes [Seal] panic. *)
Theorem Encrypt_outcome (p k : list byte) (rnd : Rand) :
  match crypto.Encrypt p k rnd with
  | (Ok out, rnd') =>
      len k = 32 /\ gcm.NonceSize <= len rnd /\ len p <= gcm.MaxPlaintext
  | (Err e, rnd') =>
      (len k <> 32 /\ rnd' = rnd /\
       e = Errorf "invalid key size: expected 32 bytes, got %d" [Int (len k)])
      \/
      (len k = 32 /\ len rnd < gcm.NonceSize /\
       e = Errorf "failed to generate nonce: %w" [Wrapped ErrUnexpectedEOF])
  | (Panic m, rnd') =>
      len k = 32 /\ gcm.NonceSize <= len rnd /\ gcm.MaxPlaintext < len p
  end.
Proof.
  unfold crypto.Encrypt.
  destruct (Z.eqb_spec (len k) 32) as [Hk|Hk]; cbn [negb]; [|left; auto].
  destruct (NewCipher_32 k Hk) as (c & Hc & Hwf). rewrite Hc. cbn [wrap].
  unfold rand_Read.
  destruct (Z.leb_spec gcm.NonceSize (len rnd)) as [Hr|Hr]; [|right; auto].
  assert (Hn : len (slice_to gcm.NonceSize rnd) = gcm.NonceSize).
  { apply len_slice_to. unfold gcm.NonceSize in *. lia. }
  unfold gcm.Seal. rewrite Hn, Z.eqb_refl. cbn [negb].
  destruct (Z.ltb_spec gcm.MaxPlaintext (len p)); cbn [bind]; auto.
Qed.

(** X2. The output of [Encrypt] is the 12-byte nonce, as many bytes of
    ciphertext as the plaintext has, and the 16-byte tag; the nonce is the
    next 12 bytes of the random source, and nothing else is drawn from
    it. *)
Theorem Encrypt_output_layout (p k : list byte) (rnd rnd' : Rand)
  (out : list byte) :
  crypto.Encrypt p k rnd = (Ok out, rnd') ->
  len out = gcm.NonceSize + len p + gcm.TagSize /\
  slice_to gcm.NonceSize out = slice_to gcm.NonceSize rnd /\
  rnd = slice_to gcm.NonceSize out ++ rnd'.
Proof.
  intro H.
  destruct (Encrypt_Ok_inv _ _ _ _ _ H)
    as (Hk & Hr & -> & c & sealed & Hc & Hwf & Hs & ->).
  assert (Hn : len (slice_to gcm.NonceSize rnd) = gcm.NonceSize).
  { apply len_slice_to. unfold gcm.NonceSize in *. lia. }
  destruct (Seal_Ok_inv _ _ _ _ Hs) as (_ & Hp & ->).
  assert (Hfirst : slice_to gcm.NonceSize
                     (slice_to gcm.NonceSize rnd ++
                      gcm.counter_crypt (List.length p) c
                        (slice_to gcm.NonceSize rnd) 2 p ++
                      gcm.auth c (slice_to gcm.NonceSize rnd)
                        (gcm.counter_crypt (List.length p) c
                           (slice_to gcm.NonceSize rnd) 2 p))
                   = slice_to gcm.NonceSize rnd).
  { rewrite <- Hn at 1. apply slice_to_app. }
  split; [|split].
  - rewrite !len_app, Hn. unfold len at 1 2.
    rewrite (counter_crypt_length c Hwf) by lia.
    rewrite (auth_length c Hwf). unfold len, gcm.TagSize. lia.
  - exact Hfirst.
  - rewrite Hfirst. symmetry. apply slice_to_slice_from.
Qed.

(** A run of [Encrypt]: 20 bytes under the key 00 01 .. 1f, with a random
    source of 14 bytes. *)
Definition sample_sealed : list byte :=
  match fst (crypto.Encrypt (bytes_upto 20) (bytes_upto 32) (bytes_upto 14)) with
  | Ok out => out
  | _ => []
  end.

Lemma Encrypt_output_layout_witness :
  len sample_sealed = gcm.NonceSize + len (bytes_upto 20) + gcm.TagSize /\
  slice_to gcm.NonceSize sample_sealed = slice_to gcm.NonceSize (bytes_upto 14) /\
  bytes_upto 14
  = slice_to gcm.NonceSize sample_sealed ++ map byte_of_Z [12; 13].
Proof.
  apply (Encrypt_output_layout (bytes_upto 20) (bytes_upto 32)).
  vm_compute. reflexivity.
Defined.

(** X3. [Decrypt] under a 32-byte key refuses every input of fewer than 28
    bytes: below the 12 bytes of a nonce as too short, and from there on,
    there being no room for a tag, as failing authentication. *)
Theorem Decrypt_rejects_short_input (e k : list byte) :
  len k = 32 -> len e < gcm.NonceSize + gcm.TagSize ->
  crypto.Decrypt e k
  = Err (if len e <? gcm.NonceSize
         then Errorf "ciphertext too short" []
         else Errorf "decryption failed: %w" [Wrapped gcm.errOpen]).
Proof.
  intros Hk He.
  destruct (NewCipher_32 k Hk) as (c & Hc & Hwf).
  unfold crypto.Decrypt. rewrite Hk, Hc. cbn [Z.eqb Pos.eqb negb wrap bind].
  destruct (Z.ltb_spec (len e) gcm.NonceSize) as [|Hn]; [reflexivity|].
  unfold gcm.Open.
  rewrite len_slice_to by (unfold gcm.NonceSize in *; lia).
  rewrite Z.eqb_refl. cbn [negb].
  assert (Hrest : len (slice_from gcm.NonceSize e) = len e - gcm.NonceSize).
  { unfold len, slice_from, gcm.NonceSize in *. rewrite length_skipn. lia. }
  rewrite Hrest.
  destruct (Z.ltb_spec (len e - gcm.NonceSize) gcm.TagSize); [reflexivity|lia].
Qed.

Lemma Decrypt_rejects_short_input_witness :
  crypto.Decrypt (bytes_upto 27) (bytes_upto 32)
  = Err (if len (bytes_upto 27) <? gcm.NonceSize
         then Errorf "ciphertext too short" []
         else Errorf "decryption failed: %w" [Wrapped gcm.errOpen]).
Proof.
  apply Decrypt_rejects_short_input; vm_compute; reflexivity.
Defined.

(** X4. Whatever [Decrypt] accepts is an encryption of what it returns:
    encrypting the returned plaintext under the same key, with the first 12
    bytes of the input as the nonce, gives the input back.  So an accepted
    input is 28 bytes longer than its plaintext, and two accepted inputs
    with the same nonce and the same plaintext are equal. *)
Theorem Decrypt_accepts_only_encryptions (e k p : list byte) :
  crypto.Decrypt e k = Ok p ->
  crypto.Encrypt p k (slice_to gcm.NonceSize e) = (Ok e, []) /\
  len e = gcm.NonceSize + len p + gcm.TagSize.
Proof.
  intro H.
  destruct (Decrypt_Ok_inv _ _ _ H) as (Hk & He & c & Hc & Hwf & Ho).
  set (nonce := slice_to gcm.NonceSize e) in *.
  set (body := slice_from gcm.NonceSize e) in *.
  assert (Hn : len nonce = gcm.NonceSize).
  { apply len_slice_to. pose proof (len_nonneg e).
    unfold gcm.NonceSize in *. lia. }
  destruct (Open_Ok_inv _ _ _ _ Ho) as (_ & Hb & Htag & Hp).
  set (ct := slice_to (len body - gcm.TagSize) body) in *.
  assert (Hct : len ct = len body - gcm.TagSize).
  { apply len_slice_to. unfold gcm.TagSize in *. lia. }
  assert (Hlp : List.length p = List.length ct).
  { rewrite Hp. apply (counter_crypt_length c Hwf). lia. }
  assert (Hback : gcm.counter_crypt (List.length p) c nonce 2 p = ct).
  { rewrite Hp, (counter_crypt_length c Hwf) by lia.
    apply (counter_crypt_involutive c Hwf); lia. }
  assert (Hseal : gcm.Seal c nonce p = Ok body).
  { unfold gcm.Seal. rewrite Hn, Z.eqb_refl. cbn [negb].
    destruct (Z.ltb_spec gcm.MaxPlaintext (len p)) as [Hbig|_].
    { unfold len in Hbig, Hct, Hb. rewrite Hlp in Hbig.
      unfold gcm.TagSize in *. lia. }
    rewrite Hback, Htag. f_equal. apply slice_to_slice_from. }
  split.
  - unfold crypto.Encrypt. rewrite Hk, Hc. cbn [Z.eqb Pos.eqb negb wrap].
    unfold rand_Read. rewrite Hn, Z.leb_refl.
    assert (Hall : slice_to gcm.NonceSize nonce = nonce).
    { rewrite <- Hn. unfold slice_to, len. rewrite Nat2Z.id.
      apply firstn_all. }
    assert (Hnone : slice_from gcm.NonceSize nonce = []).
    { rewrite <- Hn. unfold slice_from, len. rewrite Nat2Z.id.
      apply skipn_all. }
    rewrite Hall, Hnone, Hseal. cbn [bind].
    unfold nonce, body. now rewrite slice_to_slice_from.
  - rewrite <- (slice_to_slice_from gcm.NonceSize e) at 1.
    fold nonce body. rewrite len_app, Hn.
    unfold len in Hct |- *. rewrite Hlp. lia.
Qed.

Lemma Decrypt_accepts_only_encryptions_witness :
  crypto.Encrypt (bytes_upto 20) (bytes_upto 32)
    (slice_to gcm.NonceSize sample_sealed) = (Ok sample_sealed, []) /\
  len sample_sealed = gcm.NonceSize + len (bytes_upto 20) + gcm.TagSize.
Proof.
  apply Decrypt_accepts_only_encryptions. vm_compute. reflexivity.
Defined.

(** X5. A change confined to the tag is always detected: an input that has
    the length, the nonce and the ciphertext bytes of an output of [Encrypt]
    and differs from it (so in the last 16 bytes) does not decrypt. *)
Theorem Decrypt_detects_changed_tag (p k : list byte) (rnd rnd' : Rand)
  (out forged : list byte) :
  crypto.Encrypt p k rnd = (Ok out, rnd') ->
  len forged = len out ->
  slice_to (len out - gcm.TagSize) forged = slice_to (len out - gcm.TagSize) out ->
  forged <> out ->
  crypto.Decrypt forged k
  = Err (Errorf "decryption failed: %w" [Wrapped gcm.errOpen]).
Proof.
  intros Henc Hlen Hsame Hdiff.
  destruct (Encrypt_Ok_inv _ _ _ _ _ Henc)
    as (Hk & Hr & _ & c & sealed & Hc & Hwf & Hs & Hout).
  set (nonce := slice_to gcm.NonceSize rnd) in *.
  assert (Hn : len nonce = gcm.NonceSize).
  { apply len_slice_to. unfold gcm.NonceSize in *. lia. }
  destruct (Seal_Ok_inv _ _ _ _ Hs) as (_ & Hp & Hsealed).
  set (ct := gcm.counter_crypt (List.length p) c nonce 2 p) in *.
  assert (Hct : len ct = len p).
  { unfold len. f_equal. apply (counter_crypt_length c Hwf). lia. }
  assert (Htag : len (gcm.auth c nonce ct) = gcm.TagSize).
  { unfold len. now rewrite (auth_length c Hwf). }
  assert (Hlo : len out = gcm.NonceSize + len ct + gcm.TagSize).
  { rewrite Hout, Hsealed, !len_app, Hn, Htag. lia. }
  pose proof (len_nonneg ct) as Hct0.
  (* the forged input is nonce, ciphertext and another tag *)
  assert (Hpre : slice_to (len out - gcm.TagSize) out = nonce ++ ct).
  { rewrite Hout, Hsealed, app_assoc. apply slice_to_len_app.
    rewrite !len_app, Htag. lia. }
  rewrite Hpre in Hsame.
  set (tag' := slice_from (len out - gcm.TagSize) forged).
  assert (Hforged : forged = nonce ++ ct ++ tag').
  { rewrite <- (slice_to_slice_from (len out - gcm.TagSize) forged).
    rewrite Hsame. fold tag'. now rewrite app_assoc. }
  assert (Htag' : len tag' = gcm.TagSize).
  { unfold tag', len, slice_from in *. rewrite length_skipn.
    unfold gcm.TagSize, gcm.NonceSize in *. lia. }
  assert (Hne : gcm.auth c nonce ct <> tag').
  { intro E. apply Hdiff. rewrite Hforged, Hout, Hsealed, E. reflexivity. }
  unfold crypto.Decrypt. rewrite Hk, Hc. cbn [Z.eqb Pos.eqb negb wrap bind].
  rewrite Hforged, !len_app, Hn, Htag'.
  destruct (Z.ltb_spec (gcm.NonceSize + (len ct + gcm.TagSize)) gcm.NonceSize);
    [unfold gcm.TagSize in *; lia|].
  rewrite <- Hn at 1 2. rewrite slice_to_app, slice_from_app.
  unfold gcm.Open. rewrite Hn, Z.eqb_refl. cbn [negb].
  rewrite len_app, Htag'.
  destruct (Z.ltb_spec (len ct + gcm.TagSize) gcm.TagSize);
    [unfold gcm.TagSize in *; lia|].
  destruct (Z.ltb_spec (gcm.MaxPlaintext + gcm.TagSize) (len ct + gcm.TagSize));
    [lia|].
  replace (len ct + gcm.TagSize - gcm.TagSize) with (len ct) by lia.
  rewrite slice_to_app, slice_from_app.
  apply bytes_eqb_neq in Hne. rewrite Hne. reflexivity.
Qed.

(** The sample output with the last byte of its tag changed. *)
Definition sample_forged : list byte :=
  slice_to (len sample_sealed - 1) sample_sealed ++ [x00].

Lemma Decrypt_detects_changed_tag_witness :
  crypto.Decrypt sample_forged (bytes_upto 32)
  = Err (Errorf "decryption failed: %w" [Wrapped gcm.errOpen]).
Proof.
  apply (Decrypt_detects_changed_tag (bytes_upto 20) (bytes_upto 32)
           (bytes_upto 14) (map byte_of_Z [12; 13]) sample_sealed);
    vm_compute; congruence.
Defined.


(* ------------------------------------------------------------------ *)
(** ** What the container decoder accepts *)

Lemma Z_of_byte_bits_high (b : byte) (n : Z) :
  8 <= n -> Z.testbit (Z_of_byte b) n = false.
Proof.
  intro H. pose proof (Z_of_byte_range b) as Hb.
  rewrite <- (Z.mod_small (Z_of_byte b) (2 ^ 8)) by (cbn; lia).
  apply Z.mod_pow2_bits_high. lia.
Qed.

Lemma byte_of_Z_mod (z : Z) (b : byte) :
  z mod 2 ^ 8 = Z_of_byte b -> byte_of_Z z = b.
Proof.
  intro H. rewrite <- (byte_of_Z_of_byte b), <- H.
  unfold byte_of_Z. change (2 ^ 8) with 256.
  now rewrite Z.mod_mod by lia.
Qed.

(** The bits of a little-endian word are the bits of its bytes. *)
Lemma get_uint32_le_bits (b0 b1 b2 b3 : byte) (n : Z) :
  0 <= n ->
  Z.testbit (get_uint32_le [b0; b1; b2; b3]) n
  = if n <? 8 then Z.testbit (Z_of_byte b0) n
    else if n <? 16 then Z.testbit (Z_of_byte b1) (n - 8)
    else if n <? 24 then Z.testbit (Z_of_byte b2) (n - 16)
    else Z.testbit (Z_of_byte b3) (n - 24).
Proof.
  intro Hn. unfold get_uint32_le.
  rewrite !Z.lor_spec, !Z.shiftl_spec by lia.
  destruct (Z.ltb_spec n 8).
  { rewrite (Z.testbit_neg_r _ (n - 8)), (Z.testbit_neg_r _ (n - 16)),
      (Z.testbit_neg_r _ (n - 24)) by lia.
    now rewrite !orb_false_r. }
  rewrite (Z_of_byte_bits_high b0) by lia. cbn [orb].
  destruct (Z.ltb_spec n 16).
  { rewrite (Z.testbit_neg_r _ (n - 16)), (Z.testbit_neg_r _ (n - 24)) by lia.
    now rewrite !orb_false_r. }
  rewrite (Z_of_byte_bits_high b1) by lia. cbn [orb].
  destruct (Z.ltb_spec n 24).
  { rewrite (Z.testbit_neg_r _ (n - 24)) by lia. now rewrite orb_false_r. }
  rewrite (Z_of_byte_bits_high b2) by lia. reflexivity.
Qed.

Lemma get_uint32_le_range (bs : list byte) : 0 <= get_uint32_le bs < 2 ^ 32.
Proof.
  destruct bs as [|b0 [|b1 [|b2 [|b3 [|b4 bs]]]]]; try (cbn; lia).
  rewrite <- (Z.mod_small (get_uint32_le [b0; b1; b2; b3]) (2 ^ 32)) at 1 2.
  - apply Z.mod_pos_bound. lia.
  - split.
    + unfold get_uint32_le.
      pose proof (Z_of_byte_range b0). pose proof (Z_of_byte_range b1).
      pose proof (Z_of_byte_range b2). pose proof (Z_of_byte_range b3).
      repeat (apply Z.lor_nonneg; split); try apply Z.shiftl_nonneg; lia.
    + assert (E : get_uint32_le [b0; b1; b2; b3] mod 2 ^ 32
                  = get_uint32_le [b0; b1; b2; b3]).
      { apply Z.bits_inj'. intros n Hn.
        destruct (Z.ltb_spec n 32).
        - now rewrite Z.mod_pow2_bits_low by lia.
        - rewrite Z.mod_pow2_bits_high by lia.
          rewrite get_uint32_le_bits by lia.
          destruct (Z.ltb_spec n 8); [lia|].
          destruct (Z.ltb_spec n 16); [lia|].
          destruct (Z.ltb_spec n 24); [lia|].
          symmetry. apply Z_of_byte_bits_high. lia. }
      rewrite <- E. apply Z.mod_pos_bound. lia.
Qed.

(** Four bytes are the little-endian encoding of the word they decode
    to. *)
Lemma put_get_uint32_le (bs : list byte) :
  len bs = 4 -> put_uint32_le (get_uint32_le bs) = bs.
Proof.
  intro H.
  destruct bs as [|b0 [|b1 [|b2 [|b3 [|b4 bs]]]]];
    try (unfold len in H; cbn in H; lia).
  unfold put_uint32_le.
  assert (Hbyte : forall k b,
             0 <= k ->
             (forall n, 0 <= n < 8 ->
                        Z.testbit (get_uint32_le [b0; b1; b2; b3]) (n + k)
                        = Z.testbit (Z_of_byte b) n) ->
             byte_of_Z (Z.shiftr (get_uint32_le [b0; b1; b2; b3]) k) = b).
  { intros k b Hk Hbits. apply byte_of_Z_mod.
    apply Z.bits_inj'. intros n Hn.
    destruct (Z.ltb_spec n 8).
    - rewrite Z.mod_pow2_bits_low, Z.shiftr_spec by lia. apply Hbits. lia.
    - rewrite Z.mod_pow2_bits_high by lia. symmetry.
      apply Z_of_byte_bits_high. lia. }
  rewrite <- (Z.shiftr_0_r (get_uint32_le [b0; b1; b2; b3])) at 1.
  rewrite (Hbyte 0 b0), (Hbyte 8 b1), (Hbyte 16 b2), (Hbyte 24 b3);
    try lia; try reflexivity;
    intros n Hn; rewrite get_uint32_le_bits by lia.
  - destruct (Z.ltb_spec (n + 24) 8); [lia|].
    destruct (Z.ltb_spec (n + 24) 16); [lia|].
    destruct (Z.ltb_spec (n + 24) 24); [lia|]. f_equal. lia.
  - destruct (Z.ltb_spec (n + 16) 8); [lia|].
    destruct (Z.ltb_spec (n + 16) 16); [lia|].
    destruct (Z.ltb_spec (n + 16) 24); [|lia]. f_equal. lia.
  - destruct (Z.ltb_spec (n + 8) 8); [lia|].
    destruct (Z.ltb_spec (n + 8) 16); [|lia]. f_equal. lia.
  - destruct (Z.ltb_spec (n + 0) 8); [|lia]. f_equal. lia.
Qed.

(** What [Load] has checked when its decoder returns: the file is the
    header, the version, the length of the parameters, the parameters and
    the encrypted data, and nothing else. *)
Lemma Load_parse_Ok_inv (data paramsJSON encrypted : list byte) :
  Load_parse data = Ok (paramsJSON, encrypted) ->
  len paramsJSON < 2 ^ 32 /\
  data = bytes VaultHeader ++ put_uint32_le VaultVersion
           ++ put_uint32_le (len paramsJSON) ++ paramsJSON ++ encrypted.
Proof.
  unfold Load_parse. rewrite len_header.
  destruct (Z.ltb_spec (len data) (8 + 4 + 4)) as [|Hsize]; [discriminate|].
  destruct (bytes_eqb (slice_to 8 data) (bytes VaultHeader)) eqn:Hh;
    cbn [negb]; [|discriminate].
  apply bytes_eqb_eq in Hh.
  destruct (Z.eqb_spec (get_uint32_le (slice_to 4 (slice_from 8 data)))
              VaultVersion) as [Hv|]; cbn [negb]; [|discriminate].
  set (rest := slice_from 4 (slice_from 4 (slice_from 8 data))).
  set (lenb := slice_to 4 (slice_from 4 (slice_from 8 data))).
  destruct (Z.ltb_spec (len rest) (get_uint32_le lenb)) as [|Hp];
    [discriminate|].
  intro E. injection E as <- <-.
  pose proof (get_uint32_le_range lenb) as Hrange.
  assert (Hl8 : len (slice_from 8 data) = len data - 8)
    by (apply len_slice_from; lia).
  assert (Hl12 : len (slice_from 4 (slice_from 8 data)) = len data - 12)
    by (rewrite len_slice_from; lia).
  assert (Hplen : len (slice_to (get_uint32_le lenb) rest) = get_uint32_le lenb)
    by (apply len_slice_to; lia).
  rewrite Hplen. split; [lia|].
  rewrite <- Hh, <- Hv.
  rewrite !put_get_uint32_le by (apply len_slice_to; lia).
  subst lenb rest. now rewrite !slice_to_slice_from.
Qed.

(** X6. The container decoder accepts only what the encoder writes: when
    it cuts a file into a parameter blob and a ciphertext blob, the file is
    exactly the container [Save] builds from these two blobs, and the
    parameter blob fits the 4-byte length field. *)
Theorem Load_parse_accepts_only_containers
  (data paramsJSON encrypted : list byte) :
  Load_parse data = Ok (paramsJSON, encrypted) ->
  data = Save_buf paramsJSON encrypted /\ len paramsJSON < 2 ^ 32.
Proof.
  intro H. destruct (Load_parse_Ok_inv _ _ _ H) as [Hlen Hdata].
  split; [|exact Hlen].
  rewrite Save_buf_assoc, (uint32_small (len paramsJSON)); [exact Hdata|].
  pose proof (len_nonneg paramsJSON). lia.
Qed.

Lemma Load_parse_accepts_only_containers_witness :
  let data := map byte_of_Z [80; 77; 86; 65; 85; 76; 84; 49; 1; 0; 0; 0;
                             2; 0; 0; 0; 123; 125; 7; 8; 9] in
  data = Save_buf (bytes "{}") (map byte_of_Z [7; 8; 9]) /\
  len (bytes "{}") < 2 ^ 32.
Proof.
  apply Load_parse_accepts_only_containers. vm_compute. reflexivity.
Defined.

(** X7. The two decoders agree wherever [Load] gets past the header and
    the version: when the decoder of [Load] cuts out a parameter blob, the
    decoder of [LoadParams] returns the same blob, and when it finds the
    file too small or its parameters cut short, [LoadParams] fails with
    the same error. *)
Theorem LoadParams_parse_agrees_with_Load_parse (data : list byte) :
  match Load_parse data with
  | Ok (paramsJSON, _) => LoadParams_parse data = Ok paramsJSON
  | Err e =>
      (e = Errorf "vault file corrupted: too small" [] \/
       e = Errorf "vault file corrupted: params too short" []) ->
      LoadParams_parse data = Err e
  | Panic _ => False
  end.
Proof.
  unfold Load_parse, LoadParams_parse.
  destruct (len data <? len (bytes VaultHeader) + 4 + 4); [auto|].
  destruct (bytes_eqb _ _); cbn [negb].
  2:{ intros [E|E]; discriminate. }
  destruct (_ =? VaultVersion); cbn [negb].
  2:{ intros [E|E]; discriminate. }
  destruct (_ <? _); auto.
Qed.

(* ================================================================== *)
(** * The file system *)

Definition Path : Type := string.

(** The regular files, by path. *)
Definition FS : Type := Path -> option (list byte).

Definition fs_write (fs : FS) (name : Path) (data : list byte) : FS :=
  fun q => if String.eqb q name then Some data else fs q.

Definition fs_remove (fs : FS) (name : Path) : FS :=
  fun q => if String.eqb q name then None else fs q.

Definition fs_rename (fs : FS) (oldpath newpath : Path) : FS :=
  fun q =>
    if String.eqb q newpath then fs oldpath
    else if String.eqb q oldpath then None
    else fs q.

(** How [os.WriteFile] ends: it wrote everything; it could not open the
    file (nothing changes); or it created or truncated the file and failed
    after [n] bytes. *)
Inductive WriteOutcome : Type :=
| WriteOk
| OpenFails
| WriteFailsAfter (n : nat).

(** What the operating system does to the calls of one [Save]: whether
    [os.MkdirAll], [os.WriteFile], [os.Rename] and [os.Remove] fail. *)
Record OS : Type := mkOS {
  mkdirall_fails : bool;
  writefile : WriteOutcome;
  rename_fails : bool;
  remove_fails : bool
}.

(** [os.MkdirAll(dir, perm)] makes directories and leaves every regular
    file as it is. *)
Definition os_MkdirAll (fails : bool) : result unit :=
  if fails then Err (LibError "mkdir: permission denied") else Ok tt.

(** [os.WriteFile(name, data, perm)], with the states of the file system it
    goes through, oldest first: the file is created or truncated, then
    written. *)
Definition os_WriteFile (o : WriteOutcome) (fs : FS) (name : Path)
  (data : list byte) : result unit * list FS :=
  match o with
  | WriteOk => (Ok tt, [fs_write fs name []; fs_write fs name data])
  | OpenFails => (Err (LibError "open: permission denied"), [])
  | WriteFailsAfter n =>
      (Err (LibError "write: no space left on device"),
       [fs_write fs name []; fs_write fs name (firstn n data)])
  end.

(** [os.Rename(oldpath, newpath)]: it replaces [newpath] in one step, or
    fails and changes nothing. *)
Definition os_Rename (fails : bool) (fs : FS) (oldpath newpath : Path)
  : result unit * list FS :=
  if fails then (Err (LibError "rename: permission denied"), [])
  else (Ok tt, [fs_rename fs oldpath newpath]).

(** [os.Remove(name)]: a missing file is reported as such; an existing one
    is removed, or the removal fails and changes nothing. *)
Definition ErrNotExist : error := LibError "remove: no such file or directory".

Definition os_Remove (fails : bool) (fs : FS) (name : Path)
  : result unit * FS :=
  match fs name with
  | None => (Err ErrNotExist, fs)
  | Some _ =>
      if fails then (Err (LibError "remove: permission denied"), fs)
      else (Ok tt, fs_remove fs name)
  end.

(** [os.ReadFile(name)]. *)
Definition os_ReadFile (fs : FS) (name : Path) : result (list byte) :=
  match fs name with
  | Some data => Ok data
  | None => Err (LibError "open: no such file or directory")
  end.


(** [os.IsNotExist(err)] on the errors of this file system. *)
Definition os_IsNotExist (e : error) : bool :=
  match e with
  | LibError m =>
      String.eqb m "remove: no such file or directory"
      || String.eqb m "open: no such file or directory"
  | _ => false
  end.

(** The state of the file system after the steps of [trace]. *)
Definition after (fs : FS) (trace : list FS) : FS := last trace fs.

(* ================================================================== *)
(** * Package crypto: kdf.go *)

(** Parameters for Argon2id key derivation. *)
Record KeyDerivationParams : Type := mkParams {
  Algorithm : string;     (* "argon2id" *)
  Iterations : Z;         (* uint32: time parameter *)
  Memory : Z;             (* uint32: memory in KB *)
  Parallelism : Z;        (* uint8: threads *)
  Salt : list byte;       (* 32 bytes random salt *)
  KeyLength : Z           (* uint32: output key length *)
}.

(** What the program holds besides its own memory: the files and the
    random source. *)
Record World : Type := mkWorld {
  files : FS;
  rand : Rand
}.

(** A file-based vault repository. *)
Record FileRepository : Type := NewFileRepository { path : Path }.

Section Vault.

(** [entity.Vault], its JSON encoding, the JSON encoding of the KDF
    parameters and Argon2id come from outside the packages modelled here. *)
Variable Vault : Type.
Variable NewVault : Vault.
Variable json_Marshal_Vault : Vault -> result (list byte).
Variable json_Unmarshal_Vault : list byte -> result Vault.
Variable json_Marshal_Params : KeyDerivationParams -> result (list byte).
Variable json_Unmarshal_Params : list byte -> result KeyDerivationParams.
Variable argon2_IDKey :
  forall (password salt : list byte) (time memory threads keyLen : Z), list byte.

(** [DefaultKeyDerivationParams] returns secure default parameters for
    Argon2id, with a fresh random salt. *)
Definition DefaultKeyDerivationParams (rnd : Rand)
  : result KeyDerivationParams * Rand :=
  match rand_Read 32 rnd with
  | (Err e, rnd') => (Err (Errorf "failed to generate salt: %w" [Wrapped e]), rnd')
  | (Panic m, rnd') => (Panic m, rnd')
  | (Ok salt, rnd') =>
      (Ok {| Algorithm := "argon2id";
             Iterations := 3;
             Memory := 64 * 1024;
             Parallelism := 4;
             Salt := salt;
             KeyLength := 32 |}, rnd')
  end.

(** [DeriveKey] derives an encryption key from a master password using
    Argon2id. *)
Definition DeriveKey (masterPassword : string) (params : KeyDerivationParams)
  : list byte :=
  argon2_IDKey (bytes masterPassword) (Salt params) (Iterations params)
    (Memory params) (Parallelism params) (KeyLength params).

Definition MarshalParams (params : KeyDerivationParams) : result (list byte) :=
  json_Marshal_Params params.

Definition UnmarshalParams (data : list byte) : result KeyDerivationParams :=
  wrap "failed to unmarshal params: %w" (json_Unmarshal_Params data).

(* ------------------------------------------------------------------ *)
(** ** Package storage: FileRepository *)

(** [Save] encrypts and saves the vault to a file.  It returns its result,
    the world it leaves, and the states the file system went through,
    oldest first. *)
Definition Save (r : FileRepository) (vault : Vault) (key : list byte)
  (kdfParams : KeyDerivationParams) (os : OS) (w : World)
  : result unit * World * list FS :=
  (* Ensure directory exists *)
  match wrap "failed to create directory: %w" (os_MkdirAll (mkdirall_fails os)) with
  | Err e => (Err e, w, [])
  | Panic m => (Panic m, w, [])
  | Ok _ =>
  (* Serialize vault to JSON *)
  match wrap "failed to marshal vault: %w" (json_Marshal_Vault vault) with
  | Err e => (Err e, w, [])
  | Panic m => (Panic m, w, [])
  | Ok vaultJSON =>
  (* Encrypt vault data *)
  let (enc, rnd) := crypto.Encrypt vaultJSON key (rand w) in
  let w := {| files := files w; rand := rnd |} in
  match wrap "failed to encrypt vault: %w" enc with
  | Err e => (Err e, w, [])
  | Panic m => (Panic m, w, [])
  | Ok encrypted =>
  (* Serialize KDF params *)
  match wrap "failed to marshal KDF params: %w" (MarshalParams kdfParams) with
  | Err e => (Err e, w, [])
  | Panic m => (Panic m, w, [])
  | Ok paramsJSON =>
  let buf := Save_buf paramsJSON encrypted in
  (* Write to file atomically (write to temp file, then rename) *)
  let tempPath := (path r ++ ".tmp")%string in
  let (written, t1) := os_WriteFile (writefile os) (files w) tempPath buf in
  let fs1 := after (files w) t1 in
  match wrap "failed to write temp file: %w" written with
  | Err e => (Err e, {| files := fs1; rand := rnd |}, t1)
  | Panic m => (Panic m, {| files := fs1; rand := rnd |}, t1)
  | Ok _ =>
  let (renamed, t2) := os_Rename (rename_fails os) fs1 tempPath (path r) in
  let fs2 := after fs1 t2 in
  match wrap "failed to rename file: %w" renamed with
  | Err e =>
      (* Clean up temp file *)
      let (_, fs3) := os_Remove (remove_fails os) fs2 tempPath in
      (Err e, {| files := fs3; rand := rnd |}, t1 ++ t2 ++ [fs3])
  | Panic m => (Panic m, {| files := fs2; rand := rnd |}, t1 ++ t2)
  | Ok _ => (Ok tt, {| files := fs2; rand := rnd |}, t1 ++ t2)
  end end end end end end.

(** [Load] decrypts and loads the vault from a file. *)
Definition Load (r : FileRepository) (key : list byte) (fs : FS)
  : result Vault :=
  (* Read file *)
  bind (wrap "failed to read vault file: %w" (os_ReadFile fs (path r)))
    (fun data =>
  bind (Load_parse data) (fun '(paramsJSON, data) =>
  (* Parse KDF params (not needed here since key is already derived) *)
  bind (wrap "failed to unmarshal KDF params: %w" (UnmarshalParams paramsJSON))
    (fun _ =>
  (* Decrypt data *)
  bind (wrap "failed to decrypt vault (wrong password?): %w"
          (crypto.Decrypt data key)) (fun decrypted =>
  (* Deserialize vault *)
  wrap "failed to unmarshal vault: %w" (json_Unmarshal_Vault decrypted))))).

(** [LoadParams] loads just the KDF parameters from the vault file (without
    decrypting). *)
Definition LoadParams (r : FileRepository) (fs : FS)
  : result KeyDerivationParams :=
  (* Read file *)
  bind (wrap "failed to read vault file: %w" (os_ReadFile fs (path r)))
    (fun data =>
  bind (LoadParams_parse data) (fun paramsJSON =>
  (* Parse KDF params *)
  UnmarshalParams paramsJSON)).

(** [Exists] checks if the vault file exists. *)
Definition Exists (r : FileRepository) (fs : FS) : bool :=
  match fs (path r) with Some _ => true | None => false end.

(* ------------------------------------------------------------------ *)
(** ** Package service: VaultServiceImpl *)

Record VaultServiceImpl : Type := mkService {
  repository : FileRepository;
  masterKey : option (list byte)
}.

Definition NewVaultService (repo : FileRepository) : VaultServiceImpl :=
  {| repository := repo; masterKey := None |}.

(** [CreateVault] creates a new vault with the given master password. *)
Definition CreateVault (s : VaultServiceImpl) (masterPassword : string)
  (os : OS) (w : World)
  : result Vault * VaultServiceImpl * World * list FS :=
  (* Derive encryption key *)
  let (got, rnd) := DefaultKeyDerivationParams (rand w) in
  let w := {| files := files w; rand := rnd |} in
  match got with
  | Err e => (Err e, s, w, [])
  | Panic m => (Panic m, s, w, [])
  | Ok params =>
      let key := DeriveKey masterPassword params in
      let s := {| repository := repository s; masterKey := Some key |} in
      (* Create new vault *)
      let vault := NewVault in
      (* Save vault with KDF params *)
      let '(saved, w, trace) := Save (repository s) vault key params os w in
      (bind saved (fun _ => Ok vault), s, w, trace)
  end.

(** [UnlockVault] unlocks an existing vault with the given master
    password. *)
Definition UnlockVault (s : VaultServiceImpl) (masterPassword : string)
  (w : World) : result Vault * VaultServiceImpl * World :=
  let (got, rnd) := DefaultKeyDerivationParams (rand w) in
  let w := {| files := files w; rand := rnd |} in
  match got with
  | Err e => (Err e, s, w)
  | Panic m => (Panic m, s, w)
  | Ok params =>
      let key := DeriveKey masterPassword params in
      match Load (repository s) key (files w) with
      | Err e => (Err e, s, w)
      | Panic m => (Panic m, s, w)
      | Ok vault =>
          (Ok vault, {| repository := repository s; masterKey := Some key |}, w)
      end
  end.

Definition ErrVaultLocked : error := LibError "Vault is locked".

(** [SaveVault] saves the current vault. *)
Definition SaveVault (s : VaultServiceImpl) (vault : Vault) (os : OS)
  (w : World) : result unit * World * list FS :=
  match masterKey s with
  | None => (Err ErrVaultLocked, w, [])
  | Some key =>
      match LoadParams (repository s) (files w) with
      | Err e => (Err e, w, [])
      | Panic m => (Panic m, w, [])
      | Ok params => Save (repository s) vault key params os w
      end
  end.

(** [LockVault] clears the master key from memory. *)
Definition LockVault (s : VaultServiceImpl) : VaultServiceImpl :=
  {| repository := repository s; masterKey := None |}.

(* ------------------------------------------------------------------ *)
(** ** Package tui: the vault-facing part of App *)

(** The fields of [App] that hold the session: the repository, the open
    vault and the master key.  Screens and timers are left out. *)
Record App : Type := mkApp {
  app_repository : FileRepository;
  app_vault : option Vault;
  app_masterKey : option (list byte)
}.

(** [unlockVault] unlocks an existing vault.  The result stands for the
    returned command: [Err] is the [errMsg] it would deliver. *)
Definition unlockVault (a : App) (password : string) (w : World)
  : result unit * App :=
  (* Load KDF params from vault file *)
  match wrap "failed to load vault params: %w"
          (LoadParams (app_repository a) (files w)) with
  | Err e => (Err e, a)
  | Panic m => (Panic m, a)
  | Ok params =>
      (* Derive key with the SAME parameters used during vault creation *)
      let key := DeriveKey password params in
      (* Try to load vault *)
      match wrap "failed to unlock vault (wrong password?): %w"
              (Load (app_repository a) key (files w)) with
      | Err e => (Err e, a)
      | Panic m => (Panic m, a)
      | Ok vault =>
          (Ok tt, {| app_repository := app_repository a;
                     app_vault := Some vault;
                     app_masterKey := Some key |})
      end
  end.

(* ------------------------------------------------------------------ *)
(** ** Atomic persistence *)

(** The container [Save] builds when every serialization step succeeds,
    from the vault, the key, the KDF parameters and the random source. *)
Definition Save_container (vault : Vault) (key : list byte)
  (kdfParams : KeyDerivationParams) (rnd : Rand) : option (list byte) :=
  match json_Marshal_Vault vault with
  | Ok vaultJSON =>
      match fst (crypto.Encrypt vaultJSON key rnd), MarshalParams kdfParams with
      | Ok encrypted, Ok paramsJSON => Some (Save_buf paramsJSON encrypted)
      | _, _ => None
      end
  | _ => None
  end.

Definition tempPath_of (r : FileRepository) : Path := (path r ++ ".tmp")%string.

Lemma string_length_append (a b : string) :
  String.length (a ++ b) = (String.length a + String.length b)%nat.
Proof. induction a as [|c a IH]; cbn; [reflexivity | now rewrite IH]. Qed.

Lemma tempPath_fresh (r : FileRepository) :
  String.eqb (path r) (tempPath_of r) = false /\
  String.eqb (tempPath_of r) (path r) = false.
Proof.
  assert (H : path r <> tempPath_of r).
  { intro E. apply (f_equal String.length) in E. unfold tempPath_of in E.
    rewrite string_length_append in E. cbn in E. lia. }
  split; apply String.eqb_neq; congruence.
Qed.

Ltac forall_cons :=
  repeat match goal with
         | |- Forall _ (_ :: _) => apply Forall_cons
         | |- Forall _ [] => apply Forall_nil
         end.

(** C4. [Save] writes the complete container to the sibling temporary file
    and makes it visible at the target path only by the rename.  Every state
    of the file system during the call holds, at the target path, either
    what was there before or (once renamed, and only on success) the
    complete container.  Once the container is built, the outcome follows
    the operating system: when the temporary file is written and the rename
    goes through, [Save] returns no error, the target holds the container
    and no temporary file is left; when the rename fails, the temporary file
    held the complete container by then, the rename error is returned, the
    target is as before and the temporary file is removed (it stays, whole,
    only if [os.Remove] fails as well: [Save] drops that error); when the
    temporary file cannot be written, that error is returned and the target
    is as before.  When the container cannot be built nothing is written. *)
Theorem Save_is_atomic (r : FileRepository) (vault : Vault) (key : list byte)
  (kdfParams : KeyDerivationParams) (os : OS) (w : World) :
  let '(res, w', trace) := Save r vault key kdfParams os w in
  let old := files w (path r) in
  let tmp := tempPath_of r in
  let container := Save_container vault key kdfParams (rand w) in
  files w' = after (files w) trace /\
  Forall (fun fs : FS =>
            fs (path r) = old \/ (res = Ok tt /\ fs (path r) = container /\
                                  container <> None)) trace /\
  match mkdirall_fails os, container with
  | false, Some buf =>
      let written := fs_write (files w) tmp buf in
      match writefile os with
      | WriteOk =>
          if rename_fails os then
            (exists cause, res = Err (Errorf "failed to rename file: %w"
                                        [Wrapped cause])) /\
            trace = [fs_write (files w) tmp []; written; files w'] /\
            files w' = (if remove_fails os then written
                        else fs_remove written tmp) /\
            files w' tmp = (if remove_fails os then Some buf else None) /\
            files w' (path r) = old
          else
            res = Ok tt /\
            trace = [fs_write (files w) tmp []; written;
                     fs_rename written tmp (path r)] /\
            files w' (path r) = Some buf /\
            files w' tmp = None
      | OpenFails =>
          (exists cause, res = Err (Errorf "failed to write temp file: %w"
                                      [Wrapped cause])) /\
          trace = []
      | WriteFailsAfter n =>
          (exists cause, res = Err (Errorf "failed to write temp file: %w"
                                      [Wrapped cause])) /\
          trace = [fs_write (files w) tmp [];
                   fs_write (files w) tmp (firstn n buf)] /\
          files w' (path r) = old
      end
  | _, _ => res <> Ok tt /\ trace = []
  end.
Proof.
  destruct (tempPath_fresh r) as [Hpt Htp].
  unfold Save, Save_container.
  destruct (mkdirall_fails os) eqn:Hmk; cbn [os_MkdirAll wrap].
  { repeat split; auto; discriminate. }
  destruct (json_Marshal_Vault vault) as [vaultJSON|e|m]; cbn [wrap];
    [| repeat split; auto; discriminate ..].
  destruct (crypto.Encrypt vaultJSON key (rand w)) as [enc rnd].
  cbn [fst].
  destruct enc as [encrypted|e|m]; cbn [wrap files rand];
    [| repeat split; auto; discriminate ..].
  destruct (MarshalParams kdfParams) as [paramsJSON|e|m]; cbn [wrap];
    [| repeat split; auto; discriminate ..].
  fold (tempPath_of r).
  set (tmp := tempPath_of r) in *. set (buf := Save_buf paramsJSON encrypted).
  assert (Hold : forall d, fs_write (files w) tmp d (path r) = files w (path r)).
  { intro d. unfold fs_write. now rewrite Hpt. }
  assert (Htmp : forall d, fs_write (files w) tmp d tmp = Some d).
  { intro d. unfold fs_write. now rewrite String.eqb_refl. }
  destruct (writefile os) as [| |n] eqn:Hwf; cbn [os_WriteFile wrap after last].
  - (* the temporary file is written *)
    destruct (rename_fails os) eqn:Hrn;
      cbn [os_Rename wrap after last app files].
    + (* the rename fails *)
      unfold os_Remove. rewrite Htmp.
      assert (Hrm : fs_remove (fs_write (files w) tmp buf) tmp (path r)
                    = files w (path r)).
      { unfold fs_remove. rewrite Hpt. apply Hold. }
      assert (Hgone : fs_remove (fs_write (files w) tmp buf) tmp tmp = None).
      { unfold fs_remove. now rewrite String.eqb_refl. }
      destruct (remove_fails os) eqn:Hrm_fails; cbn [files app last].
      * split; [reflexivity|]. split.
        { forall_cons; left; apply Hold. }
        split; [eexists; reflexivity|]. repeat split; auto.
      * split; [reflexivity|]. split.
        { forall_cons; left; first [apply Hold | exact Hrm]. }
        split; [eexists; reflexivity|]. repeat split; auto.
    + (* the rename succeeds *)
      assert (Hnew : fs_rename (fs_write (files w) tmp buf) tmp (path r) (path r)
                     = Some buf).
      { unfold fs_rename. now rewrite String.eqb_refl, Htmp. }
      assert (Hgone : fs_rename (fs_write (files w) tmp buf) tmp (path r) tmp
                      = None).
      { unfold fs_rename. now rewrite Htp, String.eqb_refl. }
      split; [reflexivity|]. split.
      { forall_cons; first [left; apply Hold | right].
        repeat split; [exact Hnew | discriminate]. }
      repeat split; assumption.
  - (* the temporary file cannot be opened *)
    split; [reflexivity|]. split; [forall_cons|].
    split; [eexists; reflexivity | reflexivity].
  - (* the write of the temporary file fails midway *)
    split; [reflexivity|]. split.
    { forall_cons; left; apply Hold. }
    split; [eexists; reflexivity|]. split; [reflexivity | apply Hold].
Qed.

(* ------------------------------------------------------------------ *)
(** ** Decoding the container *)

(** C5. A file whose version field is not the supported constant does not
    load: [Load] fails with a corrupt-vault error whatever the rest of the
    file holds, and with the unsupported-version error when the file is
    otherwise well-formed up to there. *)
Theorem Load_version_gate (r : FileRepository) (key : list byte) (fs : FS)
  (data : list byte) :
  fs (path r) = Some data ->
  version_field data <> VaultVersion ->
  exists e,
    Load r key fs = Err e /\ CorruptVault e /\
    (16 <= len data -> slice_to 8 data = bytes VaultHeader ->
     e = Errorf "unsupported vault version: %d" [Int (version_field data)]).
Proof.
  intros Hf Hv.
  destruct (Load_parse_version_gate data Hv) as (e & He & Hc & Hu).
  exists e. split; [|split; assumption].
  unfold Load, os_ReadFile. rewrite Hf. cbn [wrap bind]. now rewrite He.
Qed.

(** C6 (amended). [LoadParams] takes no key and decrypts nothing: its result
    is fixed by the length of the file, the declared parameter length (bytes
    12 to 15) and the parameter record that follows.  It fails when the file
    has fewer than 16 bytes, when the declared length exceeds what is left,
    and when the record does not parse; it skips the magic and the version
    without looking at them, so any 8-byte header and any 4-byte version in
    front of a parameter record are read as well. *)
Theorem LoadParams_reads_length_and_params (r : FileRepository) (fs : FS) :
  LoadParams r fs
  = match fs (path r) with
    | None =>
        Err (Errorf "failed to read vault file: %w"
               [Wrapped (LibError "open: no such file or directory")])
    | Some data =>
        if len data <? 16 then
          Err (Errorf "vault file corrupted: too small" [])
        else if len data - 16 <? declared_params_len data then
          Err (Errorf "vault file corrupted: params too short" [])
        else
          UnmarshalParams
            (slice_to (declared_params_len data) (slice_from 16 data))
    end
  /\
  (forall hdr ver paramsJSON payload,
      len hdr = 8 -> len ver = 4 -> len paramsJSON < 2 ^ 32 ->
      fs (path r)
      = Some (hdr ++ ver ++ put_uint32_le (len paramsJSON) ++ paramsJSON
                ++ payload) ->
      LoadParams r fs = UnmarshalParams paramsJSON).
Proof.
  split.
  - unfold LoadParams, os_ReadFile.
    destruct (fs (path r)) as [data|]; [|reflexivity]. cbn [wrap bind].
    unfold LoadParams_parse. rewrite len_header. cbn [Z.add Pos.add Pos.succ].
    destruct (Z.ltb_spec (len data) 16) as [|Hs]; [reflexivity|].
    rewrite !slice_from_slice_from by lia. cbn [Z.add Pos.add Pos.succ].
    fold (declared_params_len data).
    rewrite len_slice_from by lia.
    destruct (len data - 16 <? declared_params_len data); reflexivity.
  - intros hdr ver paramsJSON payload Hh Hv Hp Hf.
    unfold LoadParams, os_ReadFile. rewrite Hf. cbn [wrap bind].
    now rewrite LoadParams_parse_any_header.
Qed.

(* ------------------------------------------------------------------ *)
(** ** Unlocking *)

(** The parameters [DefaultKeyDerivationParams] makes around a salt. *)
Definition default_params_with (salt : list byte) : KeyDerivationParams :=
  {| Algorithm := "argon2id"; Iterations := 3; Memory := 64 * 1024;
     Parallelism := 4; Salt := salt; KeyLength := 32 |}.

(** C1 (the code at a failing input). A vault file holds the parameters
    [stored] and a payload that decrypts under the key derived from the
    password and [stored].  [App.unlockVault] loads the stored parameters and
    opens the vault.  [VaultServiceImpl.UnlockVault] draws a fresh salt
    instead, derives its key from default parameters, and, the payload not
    decrypting under that key, rejects the correct password. *)
Theorem UnlockVault_derives_from_fresh_params
  (s : VaultServiceImpl) (a : App) (password : string) (w : World)
  (data paramsJSON ct plain salt : list byte) (rnd' : Rand)
  (stored : KeyDerivationParams) (vault : Vault) (e : error) :
  repository s = app_repository a ->
  files w (path (repository s)) = Some data ->
  Load_parse data = Ok (paramsJSON, ct) ->
  LoadParams_parse data = Ok paramsJSON ->
  UnmarshalParams paramsJSON = Ok stored ->
  crypto.Decrypt ct (DeriveKey password stored) = Ok plain ->
  json_Unmarshal_Vault plain = Ok vault ->
  rand_Read 32 (rand w) = (Ok salt, rnd') ->
  crypto.Decrypt ct (DeriveKey password (default_params_with salt)) = Err e ->
  unlockVault a password w
  = (Ok tt, {| app_repository := app_repository a;
               app_vault := Some vault;
               app_masterKey := Some (DeriveKey password stored) |})
  /\
  UnlockVault s password w
  = (Err (Errorf "failed to decrypt vault (wrong password?): %w" [Wrapped e]),
     s, {| files := files w; rand := rnd' |}).
Proof.
  intros Hrepo Hfile Hparse Hpeek Hun Hdec Hvault Hrand Hfresh.
  assert (Hload : forall key,
             Load (repository s) key (files w)
             = bind (wrap "failed to decrypt vault (wrong password?): %w"
                       (crypto.Decrypt ct key))
                 (fun decrypted =>
                    wrap "failed to unmarshal vault: %w"
                      (json_Unmarshal_Vault decrypted))).
  { intro key. unfold Load, os_ReadFile. rewrite Hfile. cbn [wrap bind].
    rewrite Hparse. cbn [bind]. rewrite Hun. reflexivity. }
  split.
  - unfold unlockVault, LoadParams, os_ReadFile.
    rewrite <- Hrepo, Hfile. cbn [wrap bind]. rewrite Hpeek. cbn [bind].
    rewrite Hun. cbn [wrap]. rewrite Hload, Hdec. cbn [wrap bind].
    rewrite Hvault. reflexivity.
  - unfold UnlockVault, DefaultKeyDerivationParams. rewrite Hrand.
    cbn [files]. fold (default_params_with salt).
    rewrite Hload, Hfresh. reflexivity.
Qed.


(* ------------------------------------------------------------------ *)
(** ** The rest of the repository, of the service and of App *)

(** [Delete] removes the vault file. *)
Definition Delete (r : FileRepository) (remove_fails : bool) (fs : FS)
  : result unit * FS :=
  match os_Remove remove_fails fs (path r) with
  | (Err e, fs') =>
      if negb (os_IsNotExist e) then
        (Err (Errorf "failed to delete vault: %w" [Wrapped e]), fs')
      else (Ok tt, fs')
  | (Ok _, fs') => (Ok tt, fs')
  | (Panic m, fs') => (Panic m, fs')
  end.

(** [GetPath] returns the vault file path. *)
Definition GetPath (r : FileRepository) : Path := path r.

(** [ChangePassword] changes the vault's master password.  (The old key
    that [ZeroBytes] clears is held nowhere else.) *)
Definition ChangePassword (s : VaultServiceImpl)
  (oldPassword newPassword : string) (vault : Vault) (os : OS) (w : World)
  : result unit * VaultServiceImpl * World * list FS :=
  (* Verify old password *)
  let '(unlocked, s, w) := UnlockVault s oldPassword w in
  match unlocked with
  | Err e => (Err e, s, w, [])
  | Panic m => (Panic m, s, w, [])
  | Ok _ =>
      (* Derive new key *)
      let (got, rnd) := DefaultKeyDerivationParams (rand w) in
      let w := {| files := files w; rand := rnd |} in
      match got with
      | Err e => (Err e, s, w, [])
      | Panic m => (Panic m, s, w, [])
      | Ok params =>
          let newKey := DeriveKey newPassword params in
          (* Save with new key and new params *)
          let '(saved, w, trace) :=
            Save (repository s) vault newKey params os w in
          match saved with
          | Err e => (Err e, s, w, trace)
          | Panic m => (Panic m, s, w, trace)
          | Ok _ =>
              (* Update master key *)
              (Ok tt, {| repository := repository s; masterKey := Some newKey |},
               w, trace)
          end
      end
  end.

(** [createVault] creates a new vault.  The result stands for the returned
    command: [Err] is the [errMsg] it would deliver. *)
Definition createVault (a : App) (password : string) (os : OS) (w : World)
  : result unit * App * World * list FS :=
  (* Derive encryption key *)
  let (got, rnd) := DefaultKeyDerivationParams (rand w) in
  let w := {| files := files w; rand := rnd |} in
  match wrap "failed to create key params: %w" got with
  | Err e => (Err e, a, w, [])
  | Panic m => (Panic m, a, w, [])
  | Ok params =>
      let key := DeriveKey password params in
      (* Create new vault *)
      let vault := NewVault in
      let a := {| app_repository := app_repository a;
                  app_vault := Some vault;
                  app_masterKey := Some key |} in
      (* Save vault with KDF params *)
      let '(saved, w, trace) := Save (app_repository a) vault key params os w in
      match wrap "failed to save vault: %w" saved with
      | Err e => (Err e, a, w, trace)
      | Panic m => (Panic m, a, w, trace)
      | Ok _ => (Ok tt, a, w, trace)
      end
  end.

(* ------------------------------------------------------------------ *)
(** ** Saving, then loading *)

(** The decoder of [Load] on a container. *)
Lemma Load_parse_container (paramsJSON encrypted : list byte) :
  len paramsJSON < 2 ^ 32 ->
  Load_parse (bytes VaultHeader ++ put_uint32_le VaultVersion
                ++ put_uint32_le (len paramsJSON) ++ paramsJSON ++ encrypted)
  = Ok (paramsJSON, encrypted).
Proof.
  intro Hlen. pose proof (len_nonneg paramsJSON) as Hp.
  pose proof (len_nonneg encrypted) as He.
  unfold Load_parse.
  rewrite !len_app, !len_put_uint32_le, len_header.
  destruct (Z.ltb_spec (8 + (4 + (4 + (len paramsJSON + len encrypted))))
              (8 + 4 + 4)) as [|_]; [lia|].
  rewrite (slice_to_len_app 8) by reflexivity.
  rewrite bytes_eqb_refl. cbn [negb].
  rewrite (slice_from_len_app 8) by reflexivity.
  rewrite (slice_to_len_app 4) by reflexivity.
  rewrite (slice_from_len_app 4) by reflexivity.
  rewrite get_put_uint32_le by (unfold VaultVersion; cbn; lia).
  rewrite Z.eqb_refl. cbn [negb].
  rewrite (slice_to_len_app 4) by reflexivity.
  rewrite (slice_from_len_app 4) by reflexivity.
  rewrite get_put_uint32_le by lia.
  rewrite len_app.
  destruct (Z.ltb_spec (len paramsJSON + len encrypted) (len paramsJSON));
    [lia|].
  now rewrite slice_to_app, slice_from_app.
Qed.

(** What a successful [Save] has done. *)
Lemma Save_Ok_inv (r : FileRepository) (vault : Vault) (key : list byte)
  (kdfParams : KeyDerivationParams) (os : OS) (w w' : World)
  (trace : list FS) :
  Save r vault key kdfParams os w = (Ok tt, w', trace) ->
  exists vaultJSON encrypted paramsJSON,
    json_Marshal_Vault vault = Ok vaultJSON /\
    crypto.Encrypt vaultJSON key (rand w) = (Ok encrypted, rand w') /\
    MarshalParams kdfParams = Ok paramsJSON /\
    files w' = fs_rename (fs_write (files w) (tempPath_of r)
                            (Save_buf paramsJSON encrypted))
                 (tempPath_of r) (path r).
Proof.
  unfold Save.
  destruct (mkdirall_fails os); cbn [os_MkdirAll wrap]; [discriminate|].
  destruct (json_Marshal_Vault vault) as [vaultJSON|e|m]; cbn [wrap];
    try discriminate.
  destruct (crypto.Encrypt vaultJSON key (rand w)) as [enc rnd] eqn:Henc.
  destruct enc as [encrypted|e|m]; cbn [wrap files rand]; try discriminate.
  destruct (MarshalParams kdfParams) as [paramsJSON|e|m]; cbn [wrap];
    try discriminate.
  fold (tempPath_of r).
  destruct (writefile os); cbn [os_WriteFile wrap after last];
    try discriminate.
  destruct (rename_fails os); cbn [os_Rename wrap after last app files].
  { destruct (os_Remove _ _ _). discriminate. }
  intro E. injection E as <- <-.
  exists vaultJSON, encrypted, paramsJSON. cbn [files rand]. auto.
Qed.

(** [Load] and [LoadParams] on a file that holds a container. *)
Lemma Load_container (r : FileRepository) (key : list byte) (fs : FS)
  (paramsJSON encrypted : list byte) :
  fs (path r) = Some (Save_buf paramsJSON encrypted) ->
  len paramsJSON < 2 ^ 32 ->
  Load r key fs
  = bind (wrap "failed to unmarshal KDF params: %w" (UnmarshalParams paramsJSON))
      (fun _ =>
         bind (wrap "failed to decrypt vault (wrong password?): %w"
                 (crypto.Decrypt encrypted key))
           (fun decrypted =>
              wrap "failed to unmarshal vault: %w"
                (json_Unmarshal_Vault decrypted)))
  /\ LoadParams r fs = UnmarshalParams paramsJSON.
Proof.
  intros Hf Hlen. pose proof (len_nonneg paramsJSON).
  unfold Load, LoadParams, os_ReadFile. rewrite Hf. cbn [wrap bind].
  rewrite Save_buf_assoc, (uint32_small (len paramsJSON)) by lia.
  rewrite Load_parse_container by exact Hlen.
  rewrite LoadParams_parse_any_header by (reflexivity || exact Hlen).
  split; reflexivity.
Qed.

(** The file a successful [Save] leaves, as [Load] and [LoadParams] read
    it, when the JSON encodings of this vault and of these parameters can
    be read back. *)
Lemma Load_Save (r : FileRepository) (vault : Vault) (key : list byte)
  (kdfParams : KeyDerivationParams) (os : OS) (w w' : World)
  (trace : list FS) :
  Save r vault key kdfParams os w = (Ok tt, w', trace) ->
  (forall vaultJSON,
      json_Marshal_Vault vault = Ok vaultJSON ->
      json_Unmarshal_Vault vaultJSON = Ok vault) ->
  (forall paramsJSON,
      json_Marshal_Params kdfParams = Ok paramsJSON ->
      json_Unmarshal_Params paramsJSON = Ok kdfParams /\
      len paramsJSON < 2 ^ 32) ->
  Load r key (files w') = Ok vault /\
  LoadParams r (files w') = Ok kdfParams.
Proof.
  intros Hsave Hv Hp.
  destruct (Save_Ok_inv _ _ _ _ _ _ _ _ Hsave)
    as (vaultJSON & encrypted & paramsJSON & Hmv & Henc & Hmp & Hfiles).
  destruct (Hp paramsJSON Hmp) as [Hup Hlen].
  assert (Hf : files w' (path r) = Some (Save_buf paramsJSON encrypted)).
  { rewrite Hfiles. unfold fs_rename, fs_write. now rewrite !String.eqb_refl. }
  destruct (Load_container r key (files w') _ _ Hf Hlen) as [Hl Hlp].
  rewrite Hl, Hlp. unfold UnmarshalParams. rewrite Hup. cbn [wrap bind].
  rewrite (Decrypt_of_Encrypt _ _ _ _ _ Henc). cbn [wrap bind].
  rewrite (Hv vaultJSON Hmv). split; reflexivity.
Qed.

(** X8. What [Save] has written, [Load] reads back: after a [Save] that
    returned no error, and with JSON encodings of this vault and of these
    parameters that can be read back, [Load] under the same key returns the
    vault, [LoadParams] returns the parameters, and [Exists] is true. *)
Theorem Load_after_Save (r : FileRepository) (vault : Vault) (key : list byte)
  (kdfParams : KeyDerivationParams) (os : OS) (w w' : World)
  (trace : list FS) :
  Save r vault key kdfParams os w = (Ok tt, w', trace) ->
  (forall vaultJSON,
      json_Marshal_Vault vault = Ok vaultJSON ->
      json_Unmarshal_Vault vaultJSON = Ok vault) ->
  (forall paramsJSON,
      json_Marshal_Params kdfParams = Ok paramsJSON ->
      json_Unmarshal_Params paramsJSON = Ok kdfParams /\
      len paramsJSON < 2 ^ 32) ->
  Load r key (files w') = Ok vault /\
  LoadParams r (files w') = Ok kdfParams /\
  Exists r (files w') = true.
Proof.
  intros Hsave Hv Hp.
  destruct (Load_Save _ _ _ _ _ _ _ _ Hsave Hv Hp) as [Hl Hlp].
  split; [exact Hl|]. split; [exact Hlp|].
  destruct (Save_Ok_inv _ _ _ _ _ _ _ _ Hsave)
    as (vaultJSON & encrypted & paramsJSON & _ & _ & _ & Hfiles).
  unfold Exists. rewrite Hfiles. unfold fs_rename, fs_write.
  now rewrite !String.eqb_refl.
Qed.

(** X9. [Save] touches the vault file and its [.tmp] sibling and nothing
    else: every other path holds, in every state of the file system the call
    goes through and at its end, what it held before.  A [Save] that returned
    no error has taken exactly the 12 bytes of the nonce off the random
    source. *)
Theorem Save_leaves_other_files (r : FileRepository) (vault : Vault)
  (key : list byte) (kdfParams : KeyDerivationParams) (os : OS) (w : World) :
  let '(res, w', trace) := Save r vault key kdfParams os w in
  (forall q,
      q <> path r -> q <> tempPath_of r ->
      Forall (fun fs : FS => fs q = files w q) trace /\
      files w' q = files w q) /\
  (res = Ok tt -> rand w' = slice_from gcm.NonceSize (rand w)).
Proof.
  unfold Save.
  destruct (mkdirall_fails os); cbn [os_MkdirAll wrap].
  { split; [auto | discriminate]. }
  destruct (json_Marshal_Vault vault) as [vaultJSON|e|m]; cbn [wrap];
    [| split; [auto | discriminate] ..].
  destruct (crypto.Encrypt vaultJSON key (rand w)) as [enc rnd] eqn:Henc.
  destruct enc as [encrypted|e|m]; cbn [wrap files rand];
    [| split; [auto | discriminate] ..].
  destruct (Encrypt_Ok_inv _ _ _ _ _ Henc) as (_ & _ & Hrnd & _).
  destruct (MarshalParams kdfParams) as [paramsJSON|e|m]; cbn [wrap];
    [| split; [auto | discriminate] ..].
  fold (tempPath_of r).
  set (tmp := tempPath_of r). set (buf := Save_buf paramsJSON encrypted).
  assert (Hw : forall d q, q <> tmp -> fs_write (files w) tmp d q = files w q).
  { intros d q Hq. unfold fs_write.
    destruct (String.eqb_spec q tmp); [contradiction | reflexivity]. }
  destruct (writefile os) as [| |n]; cbn [os_WriteFile wrap after last].
  - destruct (rename_fails os);
      cbn [os_Rename wrap after last app files rand].
    + assert (Hrm : forall q,
                 q <> tmp ->
                 snd (os_Remove (remove_fails os)
                        (fs_write (files w) tmp buf) tmp) q = files w q).
      { intros q Hq. unfold os_Remove.
        destruct (fs_write (files w) tmp buf tmp);
          [destruct (remove_fails os)|]; cbn [snd]; try now apply Hw.
        unfold fs_remove.
        destruct (String.eqb_spec q tmp); [contradiction|]. now apply Hw. }
      destruct (os_Remove _ _ _) as [removed fs3]. cbn [snd] in Hrm.
      cbn [files]. split; [|discriminate]. intros q Hq Hqt.
      split; [|now apply Hrm].
      forall_cons; first [now apply Hw | now apply Hrm].
    + split; [|intros _; exact Hrnd]. intros q Hq Hqt.
      assert (Hrn : fs_rename (fs_write (files w) tmp buf) tmp (path r) q
                    = files w q).
      { unfold fs_rename.
        destruct (String.eqb_spec q (path r)); [contradiction|].
        destruct (String.eqb_spec q tmp); [contradiction|]. now apply Hw. }
      split; [|exact Hrn].
      forall_cons; first [now apply Hw | exact Hrn].
  - split; [|discriminate]. intros q Hq Hqt. split; [forall_cons | reflexivity].
  - split; [|discriminate]. intros q Hq Hqt.
    split; [forall_cons; now apply Hw | now apply Hw].
Qed.

(** X10. [Delete] returns no error exactly when it leaves no vault file:
    a missing file is not an error (and nothing changes), an existing file
    is removed, and when the removal fails the error is returned and the
    file stays.  No other file is touched; after a [Delete] without error
    [Exists] is false, both loaders fail on the missing file, and a second
    [Delete] changes nothing. *)
Theorem Delete_removes_the_vault_file (r : FileRepository)
  (remove_fails : bool) (fs : FS) :
  let '(res, fs') := Delete r remove_fails fs in
  (res = Ok tt <-> Exists r fs' = false) /\
  (res <> Ok tt ->
   fs' = fs /\
   exists cause,
     res = Err (Errorf "failed to delete vault: %w" [Wrapped cause])) /\
  (forall q, q <> path r -> fs' q = fs q) /\
  (res = Ok tt ->
   (forall key, is_err (Load r key fs') = true) /\
   is_err (LoadParams r fs') = true /\
   forall again, Delete r again fs' = (Ok tt, fs')).
Proof.
  unfold Delete, os_Remove, Exists.
  destruct (fs (path r)) as [data|] eqn:Hf.
  - destruct remove_fails; cbn [os_IsNotExist String.eqb Ascii.eqb Bool.eqb orb negb].
    + rewrite Hf. repeat split; try discriminate; eauto.
    + assert (Hgone : fs_remove fs (path r) (path r) = None).
      { unfold fs_remove. now rewrite String.eqb_refl. }
      assert (Hframe : forall q, q <> path r -> fs_remove fs (path r) q = fs q).
      { intros q Hq. unfold fs_remove.
        destruct (String.eqb_spec q (path r)); [contradiction | reflexivity]. }
      unfold Load, LoadParams, os_ReadFile.
      rewrite Hgone. repeat split; auto; try contradiction.
  - cbn [ErrNotExist os_IsNotExist String.eqb Ascii.eqb Bool.eqb orb negb].
    unfold Load, LoadParams, os_ReadFile.
    rewrite Hf. repeat split; auto; try contradiction.
Qed.


(* ------------------------------------------------------------------ *)
(** ** Sessions: create, save, unlock, change the password *)

(** X11. [SaveVault] keeps the key-derivation parameters of the file: a
    [SaveVault] that returned no error was given by an unlocked service, on
    an existing vault file whose parameters it read, and it wrote them back
    with the vault, so that (with JSON encodings that can be read back)
    [LoadParams] returns afterwards what it returned before and [Load] under
    the master key returns the saved vault. *)
Theorem SaveVault_keeps_kdf_params (s : VaultServiceImpl) (vault : Vault)
  (os : OS) (w w' : World) (trace : list FS) :
  SaveVault s vault os w = (Ok tt, w', trace) ->
  (forall vaultJSON,
      json_Marshal_Vault vault = Ok vaultJSON ->
      json_Unmarshal_Vault vaultJSON = Ok vault) ->
  (forall params paramsJSON,
      LoadParams (repository s) (files w) = Ok params ->
      json_Marshal_Params params = Ok paramsJSON ->
      json_Unmarshal_Params paramsJSON = Ok params /\
      len paramsJSON < 2 ^ 32) ->
  exists key params,
    masterKey s = Some key /\
    LoadParams (repository s) (files w) = Ok params /\
    LoadParams (repository s) (files w') = Ok params /\
    Load (repository s) key (files w') = Ok vault.
Proof.
  unfold SaveVault. intros Hsave Hv Hp.
  destruct (masterKey s) as [key|]; [|discriminate].
  destruct (LoadParams (repository s) (files w)) as [params|e|m] eqn:Hlp;
    try discriminate.
  exists key, params.
  destruct (Load_Save _ _ _ _ _ _ _ _ Hsave Hv
              (fun paramsJSON => Hp params paramsJSON eq_refl)) as [Hl Hlp'].
  auto.
Qed.

(** The parameters and the key a creation derives from the next 32 random
    bytes. *)
Definition fresh_params (w : World) : KeyDerivationParams :=
  default_params_with (slice_to 32 (rand w)).

Definition fresh_key (password : string) (w : World) : list byte :=
  DeriveKey password (fresh_params w).

Lemma DefaultKeyDerivationParams_Ok (rnd rnd' : Rand)
  (params : KeyDerivationParams) :
  DefaultKeyDerivationParams rnd = (Ok params, rnd') ->
  params = default_params_with (slice_to 32 rnd) /\ rnd' = slice_from 32 rnd.
Proof.
  unfold DefaultKeyDerivationParams, rand_Read.
  destruct (32 <=? len rnd); [|discriminate].
  intro E. injection E as <- <-. split; reflexivity.
Qed.

(** [App.unlockVault] on a file that [Load] and [LoadParams] read. *)
Lemma unlockVault_loads (a : App) (password : string) (w : World)
  (params : KeyDerivationParams) (vault : Vault) :
  LoadParams (app_repository a) (files w) = Ok params ->
  Load (app_repository a) (DeriveKey password params) (files w) = Ok vault ->
  unlockVault a password w
  = (Ok tt, {| app_repository := app_repository a;
               app_vault := Some vault;
               app_masterKey := Some (DeriveKey password params) |}).
Proof.
  intros Hlp Hl. unfold unlockVault. rewrite Hlp. cbn [wrap].
  rewrite Hl. reflexivity.
Qed.

(** X12. A vault made by [VaultServiceImpl.CreateVault] is opened by
    [App.unlockVault] with the same password: the service holds the key
    derived from the password and the fresh parameters, the file holds
    these parameters, and [unlockVault] derives the same key from them and
    loads the new vault (with JSON encodings that can be read back). *)
Theorem unlockVault_after_CreateVault (s s' : VaultServiceImpl) (a : App)
  (password : string) (os : OS) (w w' : World) (vault : Vault)
  (trace : list FS) :
  CreateVault s password os w = (Ok vault, s', w', trace) ->
  app_repository a = repository s ->
  (forall vaultJSON,
      json_Marshal_Vault NewVault = Ok vaultJSON ->
      json_Unmarshal_Vault vaultJSON = Ok NewVault) ->
  (forall paramsJSON,
      json_Marshal_Params (fresh_params w) = Ok paramsJSON ->
      json_Unmarshal_Params paramsJSON = Ok (fresh_params w) /\
      len paramsJSON < 2 ^ 32) ->
  vault = NewVault /\
  masterKey s' = Some (fresh_key password w) /\
  LoadParams (repository s) (files w') = Ok (fresh_params w) /\
  unlockVault a password w'
  = (Ok tt, {| app_repository := app_repository a;
               app_vault := Some NewVault;
               app_masterKey := Some (fresh_key password w) |}).
Proof.
  unfold CreateVault. intros Hcreate Hrepo Hv Hp.
  destruct (DefaultKeyDerivationParams (rand w)) as [got rnd] eqn:Hd.
  destruct got as [params|e|m]; try discriminate.
  destruct (DefaultKeyDerivationParams_Ok _ _ _ Hd) as [-> ->].
  fold (fresh_params w) in Hcreate. fold (fresh_key password w) in Hcreate.
  cbn [repository] in Hcreate.
  destruct (Save (repository s) NewVault (fresh_key password w)
              (fresh_params w) os _) as [[saved w1] t1] eqn:Hsave.
  destruct saved as [[]|e|m]; cbn [bind] in Hcreate; try discriminate.
  injection Hcreate as <- <- <- <-.
  destruct (Load_Save _ _ _ _ _ _ _ _ Hsave Hv Hp) as [Hl Hlp].
  split; [reflexivity|]. split; [reflexivity|]. split; [exact Hlp|].
  apply unlockVault_loads; rewrite Hrepo; assumption.
Qed.

(** X13. A vault made by [App.createVault] is opened by [App.unlockVault]
    with the same password, whatever the file held before: the application
    is left with the new vault and the key derived from the password and
    the fresh parameters, and unlocking the file again, from any state of
    the application on the same repository, gives the same vault and the
    same key (with JSON encodings that can be read back). *)
Theorem unlockVault_after_createVault (a a' b : App) (password : string)
  (os : OS) (w w' : World) (trace : list FS) :
  createVault a password os w = (Ok tt, a', w', trace) ->
  app_repository b = app_repository a ->
  (forall vaultJSON,
      json_Marshal_Vault NewVault = Ok vaultJSON ->
      json_Unmarshal_Vault vaultJSON = Ok NewVault) ->
  (forall paramsJSON,
      json_Marshal_Params (fresh_params w) = Ok paramsJSON ->
      json_Unmarshal_Params paramsJSON = Ok (fresh_params w) /\
      len paramsJSON < 2 ^ 32) ->
  a' = {| app_repository := app_repository a;
          app_vault := Some NewVault;
          app_masterKey := Some (fresh_key password w) |} /\
  unlockVault b password w' = (Ok tt, a').
Proof.
  unfold createVault. intros Hcreate Hrepo Hv Hp.
  destruct (DefaultKeyDerivationParams (rand w)) as [got rnd] eqn:Hd.
  destruct got as [params|e|m]; cbn [wrap] in Hcreate; try discriminate.
  destruct (DefaultKeyDerivationParams_Ok _ _ _ Hd) as [-> ->].
  fold (fresh_params w) in Hcreate. fold (fresh_key password w) in Hcreate.
  cbn [app_repository] in Hcreate.
  destruct (Save (app_repository a) NewVault (fresh_key password w)
              (fresh_params w) os _) as [[saved w1] t1] eqn:Hsave.
  destruct saved as [[]|e|m]; cbn [wrap] in Hcreate; try discriminate.
  injection Hcreate as <- <- <-.
  destruct (Load_Save _ _ _ _ _ _ _ _ Hsave Hv Hp) as [Hl Hlp].
  split; [reflexivity|].
  rewrite <- Hrepo in Hl, Hlp.
  rewrite (unlockVault_loads b password w1 (fresh_params w) NewVault Hlp Hl).
  now rewrite Hrepo.
Qed.

(** What [UnlockVault] does with a file that holds a container. *)
Lemma UnlockVault_container (s : VaultServiceImpl) (password : string)
  (w : World) (paramsJSON ct : list byte) (stored : KeyDerivationParams) :
  files w (path (repository s)) = Some (Save_buf paramsJSON ct) ->
  len paramsJSON < 2 ^ 32 ->
  UnmarshalParams paramsJSON = Ok stored ->
  32 <= len (rand w) ->
  UnlockVault s password w
  = let w1 := {| files := files w; rand := slice_from 32 (rand w) |} in
    match bind (wrap "failed to decrypt vault (wrong password?): %w"
                  (crypto.Decrypt ct (fresh_key password w)))
            (fun decrypted =>
               wrap "failed to unmarshal vault: %w"
                 (json_Unmarshal_Vault decrypted)) with
    | Ok vault =>
        (Ok vault,
         {| repository := repository s;
            masterKey := Some (fresh_key password w) |}, w1)
    | Err e => (Err e, s, w1)
    | Panic m => (Panic m, s, w1)
    end.
Proof.
  intros Hf Hlen Hun Hr.
  unfold UnlockVault, DefaultKeyDerivationParams, rand_Read.
  destruct (Z.leb_spec 32 (len (rand w))); [|lia].
  cbn [files]. fold (default_params_with (slice_to 32 (rand w))).
  fold (fresh_params w). fold (fresh_key password w).
  destruct (Load_container (repository s) (fresh_key password w) (files w)
              _ _ Hf Hlen) as [Hl _].
  rewrite Hl, Hun. cbn [wrap bind]. reflexivity.
Qed.

(** X14. [ChangePassword] verifies the old password through [UnlockVault],
    which derives its key from a fresh salt and not from the parameters of
    the file.  So on a vault file that opens under the old password and the
    stored parameters, but not under the key of the fresh salt, it rejects
    the correct old password: it returns the decryption error, writes
    nothing, leaves the service as it was, and has taken the 32 bytes of the
    salt off the random source. *)
Theorem ChangePassword_rejects_correct_old_password
  (s : VaultServiceImpl) (oldPassword newPassword : string) (vault : Vault)
  (os : OS) (w : World) (paramsJSON ct plain : list byte)
  (stored : KeyDerivationParams) (e : error) :
  files w (path (repository s)) = Some (Save_buf paramsJSON ct) ->
  len paramsJSON < 2 ^ 32 ->
  UnmarshalParams paramsJSON = Ok stored ->
  crypto.Decrypt ct (DeriveKey oldPassword stored) = Ok plain ->
  32 <= len (rand w) ->
  crypto.Decrypt ct (fresh_key oldPassword w) = Err e ->
  ChangePassword s oldPassword newPassword vault os w
  = (Err (Errorf "failed to decrypt vault (wrong password?): %w" [Wrapped e]),
     s, {| files := files w; rand := slice_from 32 (rand w) |}, []).
Proof.
  intros Hf Hlen Hun _ Hr Hfresh. unfold ChangePassword.
  rewrite (UnlockVault_container s oldPassword w paramsJSON ct stored)
    by assumption.
  rewrite Hfresh. reflexivity.
Qed.

(** X15. After a [ChangePassword] that returned no error, the vault file
    opens under the new password: it holds the vault given to
    [ChangePassword] and parameters with a second fresh salt, the service
    holds the key derived from the new password and these parameters, and
    [App.unlockVault] with the new password loads the vault under that key
    (with JSON encodings that can be read back).  The call has taken two
    salts and a nonce, 76 bytes, off the random source. *)
Theorem unlockVault_after_ChangePassword
  (s s' : VaultServiceImpl) (a : App) (oldPassword newPassword : string)
  (vault : Vault) (os : OS) (w w' : World) (trace : list FS) :
  ChangePassword s oldPassword newPassword vault os w = (Ok tt, s', w', trace) ->
  app_repository a = repository s ->
  let w1 := {| files := files w; rand := slice_from 32 (rand w) |} in
  (forall vaultJSON,
      json_Marshal_Vault vault = Ok vaultJSON ->
      json_Unmarshal_Vault vaultJSON = Ok vault) ->
  (forall paramsJSON,
      json_Marshal_Params (fresh_params w1) = Ok paramsJSON ->
      json_Unmarshal_Params paramsJSON = Ok (fresh_params w1) /\
      len paramsJSON < 2 ^ 32) ->
  masterKey s' = Some (fresh_key newPassword w1) /\
  LoadParams (repository s) (files w') = Ok (fresh_params w1) /\
  unlockVault a newPassword w'
  = (Ok tt, {| app_repository := app_repository a;
               app_vault := Some vault;
               app_masterKey := Some (fresh_key newPassword w1) |}) /\
  rand w' = slice_from 76 (rand w).
Proof.
  intros Hchange Hrepo w1 Hv Hp. unfold ChangePassword in Hchange.
  destruct (UnlockVault s oldPassword w) as [[unlocked s1] w0] eqn:Hunlock.
  assert (Hs1 : repository s1 = repository s /\
                (is_ok unlocked = true -> w0 = w1)).
  { revert Hunlock. unfold UnlockVault.
    destruct (DefaultKeyDerivationParams (rand w)) as [got rnd] eqn:Hd.
    destruct got as [params|e|m].
    - destruct (DefaultKeyDerivationParams_Ok _ _ _ Hd) as [-> ->].
      cbn [files].
      destruct (Load _ _ _); intro E; injection E as <- <- <-;
        split; try reflexivity; discriminate.
    - intro E; injection E as <- <- <-. split; [reflexivity | discriminate].
    - intro E; injection E as <- <- <-. split; [reflexivity | discriminate]. }
  destruct Hs1 as [Hs1 Hw0].
  destruct unlocked as [old|e|m]; try discriminate.
  rewrite (Hw0 eq_refl) in Hchange.
  destruct (DefaultKeyDerivationParams (rand w1)) as [got rnd] eqn:Hd.
  destruct got as [params|e|m]; try discriminate.
  destruct (DefaultKeyDerivationParams_Ok _ _ _ Hd) as [-> ->].
  fold (fresh_params w1) in Hchange. fold (fresh_key newPassword w1) in Hchange.
  cbn [files] in Hchange.
  destruct (Save (repository s1) vault (fresh_key newPassword w1)
              (fresh_params w1) os _) as [[saved w2] t2] eqn:Hsave.
  destruct saved as [[]|e|m]; try discriminate.
  injection Hchange as <- <- <-.
  destruct (Load_Save _ _ _ _ _ _ _ _ Hsave Hv Hp) as [Hl Hlp].
  rewrite Hs1 in Hl, Hlp.
  split; [reflexivity|]. split; [exact Hlp|]. split.
  - apply unlockVault_loads; rewrite Hrepo; assumption.
  - destruct (Save_Ok_inv _ _ _ _ _ _ _ _ Hsave)
      as (vaultJSON & encrypted & paramsJSON & _ & Henc & _).
    destruct (Encrypt_Ok_inv _ _ _ _ _ Henc) as (_ & _ & Hrnd & _).
    rewrite Hrnd. cbn [rand w1].
    rewrite !slice_from_slice_from by (unfold gcm.NonceSize; lia).
    reflexivity.
Qed.

End Vault.

(** One vault file with an unsupported version, for [Load]. *)
Lemma Load_version_gate_witness :
  let data := bytes "PMVAULT1" ++ put_uint32_le 2 ++ put_uint32_le 2
                ++ bytes "{}" ++ bytes_upto 28 in
  exists e,
    Load unit (fun _ => Ok tt) (fun _ => Ok (default_params_with []))
      (NewFileRepository "vault.enc"%string) (bytes_upto 32)
      (fun _ => Some data) = Err e /\
    CorruptVault e /\
    (16 <= len data -> slice_to 8 data = bytes VaultHeader ->
     e = Errorf "unsupported vault version: %d" [Int (version_field data)]).
Proof.
  apply Load_version_gate; [reflexivity | vm_compute; congruence].
Defined.

(** An instance of the outside functions, to run the two unlock paths on a
    file: the vault and the parameter record are their own encodings (the
    record is its salt), and the stand-in for Argon2id returns the first
    [keyLen] bytes of the salt followed by the password and zeros. *)
Module demo.

Definition Unmarshal_Vault (b : list byte) : result (list byte) := Ok b.

Definition Unmarshal_Params (b : list byte) : result KeyDerivationParams :=
  Ok {| Algorithm := "argon2id"; Iterations := 3; Memory := 64 * 1024;
        Parallelism := 4; Salt := b; KeyLength := 32 |}.

Definition IDKey (password salt : list byte) (time memory threads keyLen : Z)
  : list byte :=
  slice_to keyLen (salt ++ password ++ repeat x00 (Z.to_nat keyLen)).

Definition password : string := "CorrectHorse1!".

(** The salt stored in the file, and the one the random source gives next. *)
Definition stored_salt : list byte := bytes_upto 32.
Definition fresh_salt : list byte := repeat x01 32.

Definition stored_key : list byte := IDKey (bytes password) stored_salt 3 65536 4 32.

Definition plain : list byte := bytes "{}".

Definition ct : list byte :=
  match fst (crypto.Encrypt plain stored_key (bytes_upto 12)) with
  | Ok c => c
  | _ => []
  end.

Definition repo : FileRepository := NewFileRepository "vault.enc"%string.

Definition world : World :=
  {| files := fun q => if String.eqb q "vault.enc" then
                         Some (Save_buf stored_salt ct)
                       else None;
     rand := fresh_salt |}.

End demo.

Lemma UnlockVault_derives_from_fresh_params_witness :
  unlockVault (list byte) demo.Unmarshal_Vault demo.Unmarshal_Params demo.IDKey
    (mkApp (list byte) demo.repo None None) demo.password demo.world
  = (Ok tt, mkApp (list byte) demo.repo (Some demo.plain) (Some demo.stored_key))
  /\
  UnlockVault (list byte) demo.Unmarshal_Vault demo.Unmarshal_Params demo.IDKey
    (NewVaultService demo.repo) demo.password demo.world
  = (Err (Errorf "failed to decrypt vault (wrong password?): %w"
            [Wrapped (Errorf "decryption failed: %w" [Wrapped gcm.errOpen])]),
     NewVaultService demo.repo,
     {| files := files demo.world; rand := [] |}).
Proof.
  apply (UnlockVault_derives_from_fresh_params (list byte)
           demo.Unmarshal_Vault demo.Unmarshal_Params demo.IDKey
           (NewVaultService demo.repo) (mkApp (list byte) demo.repo None None)
           demo.password demo.world (Save_buf demo.stored_salt demo.ct)
           demo.stored_salt demo.ct demo.plain
           demo.fresh_salt [] (default_params_with demo.stored_salt)
           demo.plain);
    vm_compute; reflexivity.
Defined.


(** Runs of the repository, the service and the application on the
    instance above: the JSON encoders are the inverses of its decoders, the
    operating system lets every call succeed, and the vault file is the one
    of [demo.world]. *)
Module run.

Definition Marshal_Vault (v : list byte) : result (list byte) := Ok v.

Definition Marshal_Params (p : KeyDerivationParams) : result (list byte) :=
  Ok (Salt p).

Definition os : OS :=
  {| mkdirall_fails := false; writefile := WriteOk; rename_fails := false;
     remove_fails := false |}.

(** No file yet, and random bytes for a salt and a nonce. *)
Definition empty : World := {| files := fun _ => None; rand := bytes_upto 44 |}.

(** The vault file of [demo.world], and random bytes for a nonce. *)
Definition stored : World :=
  {| files := files demo.world; rand := repeat x02 12 |}.

(** The vault file of [demo.world], and a random source that gives the
    stored salt again, then another salt and a nonce. *)
Definition lucky : World :=
  {| files := files demo.world;
     rand := demo.stored_salt ++ repeat x03 32 ++ repeat x04 12 |}.

Definition vault : list byte := bytes "[1,2,3]".

Definition save := Save (list byte) Marshal_Vault Marshal_Params.
Definition load := Load (list byte) demo.Unmarshal_Vault demo.Unmarshal_Params.
Definition loadParams := LoadParams demo.Unmarshal_Params.
Definition unlock :=
  unlockVault (list byte) demo.Unmarshal_Vault demo.Unmarshal_Params demo.IDKey.

Definition service : VaultServiceImpl :=
  {| repository := demo.repo; masterKey := Some demo.stored_key |}.

Definition app : App (list byte) := mkApp (list byte) demo.repo None None.

Definition saved :=
  save demo.repo vault demo.stored_key (default_params_with demo.stored_salt)
    os stored.

Definition service_saved :=
  SaveVault (list byte) Marshal_Vault Marshal_Params demo.Unmarshal_Params
    service vault os stored.

Definition service_created :=
  CreateVault (list byte) demo.plain Marshal_Vault Marshal_Params demo.IDKey
    (NewVaultService demo.repo) demo.password os empty.

Definition app_created :=
  createVault (list byte) demo.plain Marshal_Vault Marshal_Params demo.IDKey
    app demo.password os empty.

Definition changed :=
  ChangePassword (list byte) Marshal_Vault demo.Unmarshal_Vault Marshal_Params
    demo.Unmarshal_Params demo.IDKey
    (NewVaultService demo.repo) demo.password "Tr0ub4dor&3" vault os lucky.

End run.

Ltac read_back :=
  intros;
  repeat match goal with
         | H : _ = Ok _ |- _ => vm_compute in H; injection H as <-
         end;
  repeat split; vm_compute; congruence.

Lemma Load_after_Save_witness :
  let w' := snd (fst run.saved) in
  run.load demo.repo demo.stored_key (files w') = Ok run.vault /\
  run.loadParams demo.repo (files w')
  = Ok (default_params_with demo.stored_salt) /\
  Exists demo.repo (files w') = true.
Proof.
  apply (Load_after_Save (list byte) run.Marshal_Vault demo.Unmarshal_Vault
           run.Marshal_Params demo.Unmarshal_Params
           demo.repo run.vault demo.stored_key
           (default_params_with demo.stored_salt) run.os run.stored
           (snd (fst run.saved)) (snd run.saved)).
  - vm_compute. reflexivity.
  - read_back.
  - read_back.
Defined.

Lemma SaveVault_keeps_kdf_params_witness :
  let w' := snd (fst run.service_saved) in
  exists key params,
    masterKey run.service = Some key /\
    run.loadParams (repository run.service) (files run.stored) = Ok params /\
    run.loadParams (repository run.service) (files w') = Ok params /\
    run.load (repository run.service) key (files w') = Ok run.vault.
Proof.
  apply (SaveVault_keeps_kdf_params (list byte) run.Marshal_Vault
           demo.Unmarshal_Vault run.Marshal_Params demo.Unmarshal_Params
           run.service run.vault run.os run.stored
           (snd (fst run.service_saved)) (snd run.service_saved)).
  - vm_compute. reflexivity.
  - read_back.
  - read_back.
Defined.

Lemma unlockVault_after_CreateVault_witness :
  let s' := snd (fst (fst run.service_created)) in
  let w' := snd (fst run.service_created) in
  demo.plain = demo.plain /\
  masterKey s' = Some (fresh_key demo.IDKey demo.password run.empty) /\
  run.loadParams demo.repo (files w') = Ok (fresh_params run.empty) /\
  run.unlock run.app demo.password w'
  = (Ok tt, mkApp (list byte) demo.repo (Some demo.plain)
              (Some (fresh_key demo.IDKey demo.password run.empty))).
Proof.
  apply (unlockVault_after_CreateVault (list byte) demo.plain
           run.Marshal_Vault demo.Unmarshal_Vault
           run.Marshal_Params demo.Unmarshal_Params demo.IDKey
           (NewVaultService demo.repo) _ run.app demo.password run.os
           run.empty _ demo.plain (snd run.service_created)).
  - vm_compute. reflexivity.
  - reflexivity.
  - read_back.
  - read_back.
Defined.

Lemma unlockVault_after_createVault_witness :
  let a' := snd (fst (fst run.app_created)) in
  let w' := snd (fst run.app_created) in
  a' = mkApp (list byte) demo.repo (Some demo.plain)
         (Some (fresh_key demo.IDKey demo.password run.empty)) /\
  run.unlock run.app demo.password w' = (Ok tt, a').
Proof.
  apply (unlockVault_after_createVault (list byte) demo.plain
           run.Marshal_Vault demo.Unmarshal_Vault
           run.Marshal_Params demo.Unmarshal_Params demo.IDKey
           run.app _ run.app demo.password run.os run.empty _
           (snd run.app_created)).
  - vm_compute. reflexivity.
  - reflexivity.
  - read_back.
  - read_back.
Defined.

Lemma ChangePassword_rejects_correct_old_password_witness :
  ChangePassword (list byte) run.Marshal_Vault demo.Unmarshal_Vault
    run.Marshal_Params demo.Unmarshal_Params demo.IDKey
    (NewVaultService demo.repo) demo.password "Tr0ub4dor&3" run.vault run.os
    demo.world
  = (Err (Errorf "failed to decrypt vault (wrong password?): %w"
            [Wrapped (Errorf "decryption failed: %w" [Wrapped gcm.errOpen])]),
     NewVaultService demo.repo,
     {| files := files demo.world; rand := slice_from 32 (rand demo.world) |},
     []).
Proof.
  apply (ChangePassword_rejects_correct_old_password (list byte)
           run.Marshal_Vault demo.Unmarshal_Vault
           run.Marshal_Params demo.Unmarshal_Params demo.IDKey
           (NewVaultService demo.repo) demo.password "Tr0ub4dor&3" run.vault
           run.os demo.world demo.stored_salt demo.ct demo.plain
           (default_params_with demo.stored_salt));
    vm_compute; congruence.
Defined.

Lemma unlockVault_after_ChangePassword_witness :
  let s' := snd (fst (fst run.changed)) in
  let w' := snd (fst run.changed) in
  let w1 := {| files := files run.lucky;
               rand := slice_from 32 (rand run.lucky) |} in
  masterKey s' = Some (fresh_key demo.IDKey "Tr0ub4dor&3" w1) /\
  run.loadParams demo.repo (files w') = Ok (fresh_params w1) /\
  run.unlock run.app "Tr0ub4dor&3" w'
  = (Ok tt, mkApp (list byte) demo.repo (Some run.vault)
              (Some (fresh_key demo.IDKey "Tr0ub4dor&3" w1))) /\
  rand w' = slice_from 76 (rand run.lucky).
Proof.
  apply (unlockVault_after_ChangePassword (list byte)
           run.Marshal_Vault demo.Unmarshal_Vault
           run.Marshal_Params demo.Unmarshal_Params demo.IDKey
           (NewVaultService demo.repo) _ run.app demo.password "Tr0ub4dor&3"
           run.vault run.os run.lucky _ (snd run.changed)).
  - vm_compute. reflexivity.
  - reflexivity.
  - read_back.
  - read_back.
Defined.

(* ================================================================== *)
(** * crypto/sha1, crypto/sha256, crypto/sha512 and crypto/hmac

    The hash functions follow FIPS 180-4 and HMAC follows RFC 2104, which the
    Go packages implement.  Words are numbers in [Z]; the constants are
    written in decimal. *)

Module hash.

(** A [hash.Hash] constructor: the digest size, the block size, and the
    digest of a whole message. *)
Record Hash : Type := mkHash {
  Size : Z;
  BlockSize : Z;
  Sum : list byte -> list byte
}.

(** The parameters of one Merkle-Damgard hash on [bits]-bit words. *)
Definition mask (bits : Z) : Z := 2 ^ bits - 1.

Definition rotl (bits x n : Z) : Z :=
  Z.land (Z.lor (Z.shiftl x n) (Z.shiftr x (bits - n))) (mask bits).

Definition rotr (bits x n : Z) : Z := rotl bits x (bits - n).

Definition add (bits : Z) (a b : Z) : Z := Z.land (a + b) (mask bits).

Definition not_ (bits : Z) (a : Z) : Z := Z.lxor a (mask bits).

(** Big-endian numbers of [n] bytes. *)
Definition be_bytes (n : nat) (v : Z) : list Z :=
  map (fun i => Z.land (Z.shiftr v (8 * (Z.of_nat n - 1 - Z.of_nat i))) 255)
    (seq 0 n).

Definition be_value (bs : list Z) : Z :=
  fold_left (fun acc b => acc * 256 + b) bs 0.

(** The words of a block, [wbytes] bytes each. *)
Fixpoint words (fuel : nat) (wbytes : nat) (bs : list Z) : list Z :=
  match fuel with
  | O => []
  | S fuel' =>
      match bs with
      | [] => []
      | _ => be_value (firstn wbytes bs) :: words fuel' wbytes (skipn wbytes bs)
      end
  end.

(** The padded message: a 1 bit, zeros, and the bit length in [lbytes]
    bytes, up to a multiple of [block] bytes. *)
Definition pad (block lbytes : nat) (msg : list Z) : list Z :=
  let n := List.length msg in
  let k := ((block - (n + 1 + lbytes) mod block) mod block)%nat in
  msg ++ 128 :: repeat 0 k ++ be_bytes lbytes (8 * Z.of_nat n).

Fixpoint blocks (fuel : nat) (block : nat) (bs : list Z) : list (list Z) :=
  match fuel with
  | O => []
  | S fuel' =>
      match bs with
      | [] => []
      | _ => firstn block bs :: blocks fuel' block (skipn block bs)
      end
  end.

(** Extends the message schedule by [n] words; [rev_w] holds the words so
    far, latest first. *)
Fixpoint schedule (n : nat) (next : list Z -> Z) (rev_w : list Z) : list Z :=
  match n with
  | O => rev rev_w
  | S n' => schedule n' next (next rev_w :: rev_w)
  end.

(* ------------------------------------------------------------------ *)
(** ** SHA-1 *)

Definition sha1_next (rev_w : list Z) : Z :=
  rotl 32 (Z.lxor (nth 2 rev_w 0) (Z.lxor (nth 7 rev_w 0)
             (Z.lxor (nth 13 rev_w 0) (nth 15 rev_w 0)))) 1.

Definition sha1_round (t : nat) (st : list Z) (w : Z) : list Z :=
  match st with
  | [a; b; c; d; e] =>
      let '(f, k) :=
        if (t <? 20)%nat then
          (Z.lor (Z.land b c) (Z.land (not_ 32 b) d), 1518500249)
        else if (t <? 40)%nat then
          (Z.lxor b (Z.lxor c d), 1859775393)
        else if (t <? 60)%nat then
          (Z.lor (Z.land b c) (Z.lor (Z.land b d) (Z.land c d)), 2400959708)
        else (Z.lxor b (Z.lxor c d), 3395469782) in
      let temp := add 32 (add 32 (add 32 (add 32 (rotl 32 a 5) f) e) k) w in
      [temp; a; rotl 32 b 30; c; d]
  | _ => st
  end.

Fixpoint rounds (round : nat -> list Z -> Z -> list Z) (t : nat)
  (st : list Z) (ws : list Z) : list Z :=
  match ws with
  | [] => st
  | w :: ws' => rounds round (S t) (round t st w) ws'
  end.

Fixpoint add_words (bits : Z) (a b : list Z) : list Z :=
  match a, b with
  | x :: a', y :: b' => add bits x y :: add_words bits a' b'
  | _, _ => []
  end.

Definition sha1_block (h : list Z) (block : list Z) : list Z :=
  let w := schedule 64 sha1_next (rev (words 16 4 block)) in
  add_words 32 h (rounds sha1_round 0 h w).

Definition sha1_init : list Z :=
  [1732584193; 4023233417; 2562383102; 271733878; 3285377520].

Definition sha1_sum (msg : list byte) : list byte :=
  let m := pad 64 8 (map Z_of_byte msg) in
  let h := fold_left sha1_block (blocks (List.length m) 64 m) sha1_init in
  map byte_of_Z (flat_map (be_bytes 4) h).

(* ------------------------------------------------------------------ *)
(** ** SHA-256 and SHA-512 *)

(** The rotation and shift amounts of the six functions of SHA-2. *)
Record Sha2 : Type := mkSha2 {
  bits : Z;
  big0 : Z * Z * Z;      (* Sigma0: three rotations *)
  big1 : Z * Z * Z;      (* Sigma1: three rotations *)
  small0 : Z * Z * Z;    (* sigma0: two rotations and a shift *)
  small1 : Z * Z * Z;    (* sigma1: two rotations and a shift *)
  K : list Z;
  init : list Z
}.

Definition Sigma (p : Sha2) (r : Z * Z * Z) (x : Z) : Z :=
  let '(r1, r2, r3) := r in
  Z.lxor (rotr (bits p) x r1) (Z.lxor (rotr (bits p) x r2) (rotr (bits p) x r3)).

Definition sigma (p : Sha2) (r : Z * Z * Z) (x : Z) : Z :=
  let '(r1, r2, s) := r in
  Z.lxor (rotr (bits p) x r1) (Z.lxor (rotr (bits p) x r2) (Z.shiftr x s)).

Definition sha2_next (p : Sha2) (rev_w : list Z) : Z :=
  add (bits p)
    (add (bits p) (sigma p (small1 p) (nth 1 rev_w 0)) (nth 6 rev_w 0))
    (add (bits p) (sigma p (small0 p) (nth 14 rev_w 0)) (nth 15 rev_w 0)).

Definition sha2_round (p : Sha2) (t : nat) (st : list Z) (w : Z) : list Z :=
  match st with
  | [a; b; c; d; e; f; g; h] =>
      let n := bits p in
      let ch := Z.lxor (Z.land e f) (Z.land (not_ n e) g) in
      let maj := Z.lxor (Z.land a b) (Z.lxor (Z.land a c) (Z.land b c)) in
      let t1 := add n (add n (add n (add n h (Sigma p (big1 p) e)) ch)
                         (nth t (K p) 0)) w in
      let t2 := add n (Sigma p (big0 p) a) maj in
      [add n t1 t2; a; b; c; add n d t1; e; f; g]
  | _ => st
  end.

Definition sha2_block (p : Sha2) (h : list Z) (block : list Z) : list Z :=
  let wbytes := Z.to_nat (bits p / 8) in
  let w := schedule (List.length (K p) - 16) (sha2_next p)
             (rev (words 16 wbytes block)) in
  add_words (bits p) h (rounds (sha2_round p) 0 h w).

Definition sha2_sum (p : Sha2) (msg : list byte) : list byte :=
  let wbytes := Z.to_nat (bits p / 8) in
  let block := (16 * wbytes)%nat in
  let m := pad block (2 * wbytes) (map Z_of_byte msg) in
  let h := fold_left (sha2_block p) (blocks (List.length m) block m) (init p) in
  map byte_of_Z (flat_map (be_bytes wbytes) h).

Definition sha256_params : Sha2 :=
  {| bits := 32;
     big0 := (2, 13, 22); big1 := (6, 11, 25);
     small0 := (7, 18, 3); small1 := (17, 19, 10);
     K := [
    1116352408; 1899447441; 3049323471; 3921009573; 961987163; 1508970993;
    2453635748; 2870763221; 3624381080; 310598401; 607225278; 1426881987;
    1925078388; 2162078206; 2614888103; 3248222580; 3835390401; 4022224774;
    264347078; 604807628; 770255983; 1249150122; 1555081692; 1996064986;
    2554220882; 2821834349; 2952996808; 3210313671; 3336571891; 3584528711;
    113926993; 338241895; 666307205; 773529912; 1294757372; 1396182291;
    1695183700; 1986661051; 2177026350; 2456956037; 2730485921; 2820302411;
    3259730800; 3345764771; 3516065817; 3600352804; 4094571909; 275423344;
    430227734; 506948616; 659060556; 883997877; 958139571; 1322822218;
    1537002063; 1747873779; 1955562222; 2024104815; 2227730452; 2361852424;
    2428436474; 2756734187; 3204031479; 3329325298 ];
     init := [
    1779033703; 3144134277; 1013904242; 2773480762;
    1359893119; 2600822924; 528734635; 1541459225 ] |}.

Definition sha512_params : Sha2 :=
  {| bits := 64;
     big0 := (28, 34, 39); big1 := (14, 18, 41);
     small0 := (1, 8, 7); small1 := (19, 61, 6);
     K := [
    4794697086780616226; 8158064640168781261; 13096744586834688815;
    16840607885511220156; 4131703408338449720; 6480981068601479193;
    10538285296894168987; 12329834152419229976; 15566598209576043074;
    1334009975649890238; 2608012711638119052; 6128411473006802146;
    8268148722764581231; 9286055187155687089; 11230858885718282805;
    13951009754708518548; 16472876342353939154; 17275323862435702243;
    1135362057144423861; 2597628984639134821; 3308224258029322869;
    5365058923640841347; 6679025012923562964; 8573033837759648693;
    10970295158949994411; 12119686244451234320; 12683024718118986047;
    13788192230050041572; 14330467153632333762; 15395433587784984357;
    489312712824947311; 1452737877330783856; 2861767655752347644;
    3322285676063803686; 5560940570517711597; 5996557281743188959;
    7280758554555802590; 8532644243296465576; 9350256976987008742;
    10552545826968843579; 11727347734174303076; 12113106623233404929;
    14000437183269869457; 14369950271660146224; 15101387698204529176;
    15463397548674623760; 17586052441742319658; 1182934255886127544;
    1847814050463011016; 2177327727835720531; 2830643537854262169;
    3796741975233480872; 4115178125766777443; 5681478168544905931;
    6601373596472566643; 7507060721942968483; 8399075790359081724;
    8693463985226723168; 9568029438360202098; 10144078919501101548;
    10430055236837252648; 11840083180663258601; 13761210420658862357;
    14299343276471374635; 14566680578165727644; 15097957966210449927;
    16922976911328602910; 17689382322260857208; 500013540394364858;
    748580250866718886; 1242879168328830382; 1977374033974150939;
    2944078676154940804; 3659926193048069267; 4368137639120453308;
    4836135668995329356; 5532061633213252278; 6448918945643986474;
    6902733635092675308; 7801388544844847127 ];
     init := [
    7640891576956012808; 13503953896175478587;
    4354685564936845355; 11912009170470909681;
    5840696475078001361; 11170449401992604703;
    2270897969802886507; 6620516959819538809 ] |}.

(** [sha1.New], [sha256.New] and [sha512.New]. *)
Definition sha1_New : Hash := {| Size := 20; BlockSize := 64; Sum := sha1_sum |}.
Definition sha256_New : Hash :=
  {| Size := 32; BlockSize := 64; Sum := sha2_sum sha256_params |}.
Definition sha512_New : Hash :=
  {| Size := 64; BlockSize := 128; Sum := sha2_sum sha512_params |}.

(* ------------------------------------------------------------------ *)
(** ** HMAC *)

Definition xor_with (pad : Z) (key : list byte) : list byte :=
  map (fun b => byte_of_Z (Z.lxor (Z_of_byte b) pad)) key.

(** [mac := hmac.New(h, key); mac.Write(msg); mac.Sum(nil)]. *)
Definition hmac (h : Hash) (key msg : list byte) : list byte :=
  let key := if BlockSize h <? len key then Sum h key else key in
  let key := key ++ repeat x00 (Z.to_nat (BlockSize h - len key)) in
  Sum h (xor_with 92 key ++ Sum h (xor_with 54 key ++ msg)).

End hash.

Example sha1_abc :
  map Z_of_byte (hash.Sum hash.sha1_New (bytes "abc"))
  = [169; 153; 62; 54; 71; 6; 129; 106; 186; 62;
     37; 113; 120; 80; 194; 108; 156; 208; 216; 157].
Proof. vm_compute. reflexivity. Qed.

Example sha256_abc_prefix :
  map Z_of_byte (firstn 8 (hash.Sum hash.sha256_New (bytes "abc")))
  = [186; 120; 22; 191; 143; 1; 207; 234].
Proof. vm_compute. reflexivity. Qed.

Example sha512_abc_prefix :
  map Z_of_byte (firstn 8 (hash.Sum hash.sha512_New (bytes "abc")))
  = [221; 175; 53; 161; 147; 97; 122; 186].
Proof. vm_compute. reflexivity. Qed.

(* ================================================================== *)
(** * strings, strconv, fmt and encoding/base32 *)

Definition code (c : ascii) : Z := Z.of_N (N_of_ascii c).

Definition char_of (z : Z) : ascii := ascii_of_N (Z.to_N z).

Definition is_lower (c : ascii) : bool := (code "a" <=? code c) && (code c <=? code "z").
Definition is_upper (c : ascii) : bool := (code "A" <=? code c) && (code c <=? code "Z").
Definition is_digit (c : ascii) : bool := (code "0" <=? code c) && (code c <=? code "9").

Fixpoint string_map (f : ascii -> ascii) (s : string) : string :=
  match s with
  | EmptyString => EmptyString
  | String c s' => String (f c) (string_map f s')
  end.

Fixpoint string_all (p : ascii -> bool) (s : string) : bool :=
  match s with
  | EmptyString => true
  | String c s' => p c && string_all p s'
  end.

Fixpoint string_filter (p : ascii -> bool) (s : string) : string :=
  match s with
  | EmptyString => EmptyString
  | String c s' => if p c then String c (string_filter p s') else string_filter p s'
  end.

(** A byte below [utf8.RuneSelf]. *)
Definition is_ascii (c : ascii) : bool := code c <? 128.

(** [strings.ToUpper] and [strings.ToLower].  On a string whose bytes are
    all below [utf8.RuneSelf] Go maps the letters byte by byte, as here; on
    any other string it maps whole runes through the Unicode case tables,
    which are not modelled.  What is stated below of the case mapping is
    stated of ASCII strings (the letters of Base32, of scheme names and of
    algorithm names). *)
Definition strings_ToUpper (s : string) : string :=
  string_map (fun c => if is_lower c then char_of (code c - 32) else c) s.

Definition strings_ToLower (s : string) : string :=
  string_map (fun c => if is_upper c then char_of (code c + 32) else c) s.

(** The decimal digits of [n >= 0], most significant first, in front of
    [acc]. *)
Fixpoint utoa (fuel : nat) (n : Z) (acc : string) : string :=
  match fuel with
  | O => acc
  | S fuel' =>
      let acc' := String (char_of (code "0" + n mod 10)) acc in
      if n <? 10 then acc' else utoa fuel' (n / 10) acc'
  end.

(** [strconv.Itoa(i)]. *)
Definition strconv_Itoa (i : Z) : string :=
  if i <? 0 then String "-" (utoa (S (Z.to_nat (Z.log2 (- i)))) (- i) "")
  else utoa (S (Z.to_nat (Z.log2 i))) i "".

(** The value of a string of decimal digits read after [acc]; [None] on any
    other character. *)
Fixpoint digits_value (s : string) (acc : Z) : option Z :=
  match s with
  | EmptyString => Some acc
  | String c s' =>
      if is_digit c then digits_value s' (acc * 10 + (code c - code "0"))
      else None
  end.

Definition ErrSyntax : error := LibError "strconv.Atoi: invalid syntax".
Definition ErrRange : error := LibError "strconv.Atoi: value out of range".

(** [strconv.Atoi(s)]: an optional sign and decimal digits, within [int]. *)
Definition strconv_Atoi (s : string) : result Z :=
  let '(neg, ds) :=
    match s with
    | String c s' =>
        if Ascii.eqb c "-" then (true, s')
        else if Ascii.eqb c "+" then (false, s')
        else (false, s)
    | EmptyString => (false, s)
    end in
  match ds with
  | EmptyString => Err ErrSyntax
  | _ =>
      match digits_value ds 0 with
      | None => Err ErrSyntax
      | Some v =>
          let v := if neg then - v else v in
          if (- 2 ^ 63 <=? v) && (v <? 2 ^ 63) then Ok v else Err ErrRange
      end
  end.

(** [fmt.Sprintf("%0Nd", v)] for [v >= 0]: decimal, padded with zeros on the
    left up to [N] characters. *)
Definition Sprintf_0d (N : Z) (v : Z) : string :=
  let s := strconv_Itoa v in
  let pad := Z.to_nat (N - Z.of_nat (String.length s)) in
  (string_of_list_ascii (repeat "0"%char pad) ++ s)%string.

Module base32.

Definition CorruptInputError : error := LibError "illegal base32 data".

(** The standard alphabet: A-Z then 2-7. *)
Definition decodeMap (c : ascii) : option Z :=
  if is_upper c then Some (code c - code "A")
  else if (code "2" <=? code c) && (code c <=? code "7")
       then Some (code c - code "2" + 26)
  else None.

Fixpoint decode_chars (s : string) : option (list Z) :=
  match s with
  | EmptyString => Some []
  | String c s' =>
      match decodeMap c, decode_chars s' with
      | Some v, Some vs => Some (v :: vs)
      | _, _ => None
      end
  end.

(** The bytes of one quantum of [dlen] characters ([dbuf] holds their
    values, then zeros): 8, 7, 5, 4 and 2 characters give 5, 4, 3, 2 and 1
    bytes, and 1, 3 or 6 trailing characters give none. *)
Definition quantum (dbuf : list Z) (dlen : nat) : list byte :=
  let d := fun i => nth i dbuf 0 in
  let b0 := Z.lor (Z.shiftl (d 0%nat) 3) (Z.shiftr (d 1%nat) 2) in
  let b1 := Z.lor (Z.shiftl (d 1%nat) 6)
              (Z.lor (Z.shiftl (d 2%nat) 1) (Z.shiftr (d 3%nat) 4)) in
  let b2 := Z.lor (Z.shiftl (d 3%nat) 4) (Z.shiftr (d 4%nat) 1) in
  let b3 := Z.lor (Z.shiftl (d 4%nat) 7)
              (Z.lor (Z.shiftl (d 5%nat) 2) (Z.shiftr (d 6%nat) 3)) in
  let b4 := Z.lor (Z.shiftl (d 6%nat) 5) (d 7%nat) in
  let n := match dlen with
           | 8 => 5 | 7 => 4 | 5 => 3 | 4 => 2 | 2 => 1 | _ => 0
           end%nat in
  map byte_of_Z (firstn n [b0; b1; b2; b3; b4]).

Fixpoint decode_quanta (fuel : nat) (vs : list Z) : list byte :=
  match fuel with
  | O => []
  | S fuel' =>
      match vs with
      | [] => []
      | _ =>
          let q := firstn 8 vs in
          quantum q (List.length q) ++ decode_quanta fuel' (skipn 8 vs)
      end
  end.

(** [base32.StdEncoding.WithPadding(base32.NoPadding).DecodeString(s)]:
    line breaks are dropped, then every character has to be of the
    alphabet. *)
Definition DecodeString (s : string) : result (list byte) :=
  let s := string_filter (fun c => negb (Ascii.eqb c "013" || Ascii.eqb c "010")) s in
  match decode_chars s with
  | None => Err CorruptInputError
  | Some vs => Ok (decode_quanta (List.length vs) vs)
  end.

End base32.

(* ================================================================== *)
(** * net/url

    [url.Parse], [URL.Query], [url.PathEscape] and [Values.Encode] as
    net/url implements them (RFC 3986), for the fields [ParseURI] reads:
    [Scheme], [Host], [Path] and [RawQuery].  A host in square brackets (an
    IPv6 literal) is refused here without looking inside: [url.Parse] either
    refuses it too or returns a host that starts with a bracket, which
    [ParseURI] refuses at its host check. *)

Module url.

Inductive encoding : Type :=
| encodePath
| encodePathSegment
| encodeHost
| encodeUserPassword
| encodeQueryComponent
| encodeFragment.

Definition is_alnum (c : ascii) : bool := is_lower c || is_upper c || is_digit c.

Definition one_of (cs : string) (c : ascii) : bool :=
  negb (string_all (fun x => negb (Ascii.eqb x c)) cs).

(** [shouldEscape(c, mode)]. *)
Definition shouldEscape (c : ascii) (mode : encoding) : bool :=
  (* Unreserved characters (alphanum) *)
  if is_alnum c then false
  else if (match mode with encodeHost => true | _ => false end)
          && (one_of "!$&'()*+,;=:[]<>" c || (code c =? 34)) then false
  else if one_of "-_.~" c then false       (* Unreserved characters (mark) *)
  else if one_of "$&+,/:;=?@" c
          && (match mode with encodeHost => false | _ => true end) then
    (* Reserved characters: a few may appear unescaped in some sections *)
    match mode with
    | encodePath => Ascii.eqb c "?"
    | encodePathSegment => one_of "/;,?" c
    | encodeUserPassword => one_of "@/?:" c
    | encodeQueryComponent => true
    | _ => false
    end
  else if (match mode with encodeFragment => true | _ => false end)
          && one_of "!()*" c then false
  else true.                               (* Everything else must be escaped *)

Definition upperhex (n : Z) : ascii :=
  if n <? 10 then char_of (code "0" + n) else char_of (code "A" + n - 10).

Definition ishex (c : ascii) : bool :=
  is_digit c
  || ((code "a" <=? code c) && (code c <=? code "f"))
  || ((code "A" <=? code c) && (code c <=? code "F")).

Definition unhex (c : ascii) : Z :=
  if is_digit c then code c - code "0"
  else if (code "a" <=? code c) && (code c <=? code "f") then code c - code "a" + 10
  else if (code "A" <=? code c) && (code c <=? code "F") then code c - code "A" + 10
  else 0.

(** [escape(s, mode)]: a space of a query component becomes [+], any other
    character to escape becomes [%XX]. *)
Fixpoint escape (s : string) (mode : encoding) : string :=
  match s with
  | EmptyString => EmptyString
  | String c s' =>
      if shouldEscape c mode then
        match mode with
        | encodeQueryComponent =>
            if Ascii.eqb c " " then String "+" (escape s' mode)
            else String "%" (String (upperhex (Z.shiftr (code c) 4))
                   (String (upperhex (Z.land (code c) 15)) (escape s' mode)))
        | _ =>
            String "%" (String (upperhex (Z.shiftr (code c) 4))
              (String (upperhex (Z.land (code c) 15)) (escape s' mode)))
        end
      else String c (escape s' mode)
  end.

Definition EscapeError : error := LibError "invalid URL escape".
Definition InvalidHostError : error := LibError "invalid character in host name".

(** [unescape(s, mode)]: [%XX] becomes the byte, [+] a space in a query
    component; a malformed escape is an error, and so is, in a host, an
    escape of an ASCII byte or a character that would need one. *)
Fixpoint unescape (s : string) (mode : encoding) : result string :=
  match s with
  | EmptyString => Ok EmptyString
  | String "%" rest =>
      match rest with
      | String h1 (String h2 rest') =>
          if negb (ishex h1 && ishex h2) then Err EscapeError
          else if (match mode with encodeHost => true | _ => false end)
                  && (unhex h1 <? 8)
                  && negb (Ascii.eqb h1 "2" && Ascii.eqb h2 "5")
          then Err EscapeError
          else
            bind (unescape rest' mode) (fun t =>
            Ok (String (char_of (Z.lor (Z.shiftl (unhex h1) 4) (unhex h2))) t))
      | _ => Err EscapeError
      end
  | String c rest =>
      if (match mode with encodeHost => true | _ => false end)
         && (code c <? 128) && shouldEscape c mode
      then Err InvalidHostError
      else
        bind (unescape rest mode) (fun t =>
        Ok (String (if Ascii.eqb c "+"
                       && (match mode with
                           | encodeQueryComponent => true
                           | _ => false
                           end)
                    then " "%char else c) t))
  end.

Definition PathEscape (s : string) : string := escape s encodePathSegment.
Definition QueryEscape (s : string) : string := escape s encodeQueryComponent.
Definition QueryUnescape (s : string) : result string :=
  unescape s encodeQueryComponent.

(** [strings.Cut(s, sep)] for a separator of one character. *)
Fixpoint Cut (s : string) (sep : ascii) : string * string * bool :=
  match s with
  | EmptyString => (EmptyString, EmptyString, false)
  | String c s' =>
      if Ascii.eqb c sep then (EmptyString, s', true)
      else let '(before, after, found) := Cut s' sep in
           (String c before, after, found)
  end.

Definition Contains (s : string) (c : ascii) : bool :=
  negb (string_all (fun x => negb (Ascii.eqb x c)) s).

Fixpoint Count (s : string) (c : ascii) : nat :=
  match s with
  | EmptyString => O
  | String x s' => ((if Ascii.eqb x c then 1 else 0) + Count s' c)%nat
  end.

(** [strings.LastIndex(s, sep)] as the cut around the last [sep]: what is
    before it and what is after it. *)
Fixpoint CutLast (s : string) (sep : ascii) : option (string * string) :=
  match s with
  | EmptyString => None
  | String c s' =>
      match CutLast s' sep with
      | Some (before, after) => Some (String c before, after)
      | None => if Ascii.eqb c sep then Some (EmptyString, s') else None
      end
  end.

Definition HasPrefix (s prefix : string) : bool := String.prefix prefix s.

Fixpoint HasSuffixChar (s : string) (c : ascii) : bool :=
  match s with
  | EmptyString => false
  | String x EmptyString => Ascii.eqb x c
  | String _ s' => HasSuffixChar s' c
  end.

Fixpoint drop_last (s : string) : string :=
  match s with
  | EmptyString => EmptyString
  | String _ EmptyString => EmptyString
  | String x s' => String x (drop_last s')
  end.

(** [stringContainsCTLByte(s)]. *)
Definition stringContainsCTLByte (s : string) : bool :=
  negb (string_all (fun c => negb ((code c <? 32) || (code c =? 127))) s).

(** [getScheme(rawURL)]: the scheme and what follows its colon, or no
    scheme. *)
Fixpoint getScheme_from (i : nat) (s : string) : result (option (string * string)) :=
  match s with
  | EmptyString => Ok None
  | String c s' =>
      if is_lower c || is_upper c then
        match getScheme_from (S i) s' with
        | Ok (Some (scheme, rest)) => Ok (Some (String c scheme, rest))
        | other => other
        end
      else if is_digit c || one_of "+-." c then
        match i with
        | O => Ok None
        | _ =>
            match getScheme_from (S i) s' with
            | Ok (Some (scheme, rest)) => Ok (Some (String c scheme, rest))
            | other => other
            end
        end
      else if Ascii.eqb c ":" then
        match i with
        | O => Err (LibError "missing protocol scheme")
        | _ => Ok (Some (EmptyString, s'))
        end
      else Ok None
  end.

Definition getScheme (rawURL : string) : result (string * string) :=
  bind (getScheme_from 0 rawURL) (fun r =>
  match r with
  | Some (scheme, rest) => Ok (scheme, rest)
  | None => Ok (EmptyString, rawURL)
  end).

(** [validOptionalPort(port)]: empty, or a colon and digits. *)
Definition validOptionalPort (port : string) : bool :=
  match port with
  | EmptyString => true
  | String c ds => Ascii.eqb c ":" && string_all is_digit ds
  end.

(** [parseHost(host)]. *)
Definition parseHost (host : string) : result string :=
  if HasPrefix host "[" then
    Err (LibError "host in brackets")
  else
    match CutLast host ":" with
    | Some (_, port) =>
        if negb (string_all is_digit port) then
          Err (LibError "invalid port after host")
        else unescape host encodeHost
    | None => unescape host encodeHost
    end.

(** [validUserinfo(s)]. *)
Definition validUserinfo (s : string) : bool :=
  string_all (fun c => is_alnum c || one_of "-._:~!$&'()*+,;=%@" c) s.

(** [parseAuthority(authority)], for the host. *)
Definition parseAuthority (authority : string) : result string :=
  match CutLast authority "@" with
  | None => parseHost authority
  | Some (userinfo, host) =>
      bind (parseHost host) (fun host =>
      if negb (validUserinfo userinfo) then
        Err (LibError "net/url: invalid userinfo")
      else
        let '(username, password, _) := Cut userinfo ":" in
        bind (unescape username encodeUserPassword) (fun _ =>
        bind (unescape password encodeUserPassword) (fun _ =>
        Ok host)))
  end.

Record URL : Type := mkURL {
  Scheme : string;
  Opaque : string;
  Host : string;
  Path : string;
  RawQuery : string;
  Fragment : string
}.

(** [parse(rawURL, false)]. *)
Definition parse (rawURL : string) : result URL :=
  if stringContainsCTLByte rawURL then
    Err (LibError "net/url: invalid control character in URL")
  else if String.eqb rawURL "*" then
    Ok (mkURL "" "" "" "*" "" "")
  else
    (* Split off possible leading "http:", "mailto:", etc. *)
    bind (getScheme rawURL) (fun '(scheme, rest) =>
    let scheme := strings_ToLower scheme in
    let '(rest, rawQuery) :=
      if HasSuffixChar rest "?" && Nat.eqb (Count rest "?") 1 then
        (drop_last rest, EmptyString)
      else let '(before, after, _) := Cut rest "?" in (before, after) in
    if negb (HasPrefix rest "/") && negb (String.eqb scheme "") then
      (* Rootless paths are opaque *)
      Ok (mkURL scheme rest "" "" rawQuery "")
    else if negb (HasPrefix rest "/")
            && Contains (fst (fst (Cut rest "/"))) ":" then
      Err (LibError "first path segment in URL cannot contain colon")
    else
      bind
        (if (negb (String.eqb scheme "") || negb (HasPrefix rest "///"))
            && HasPrefix rest "//" then
           let authority := String.substring 2 (String.length rest - 2) rest in
           match Cut authority "/" with
           | (authority, after, true) =>
               bind (parseAuthority authority) (fun host =>
               Ok (host, String "/" after))
           | (authority, _, false) =>
               bind (parseAuthority authority) (fun host =>
               Ok (host, EmptyString))
           end
         else Ok (EmptyString, rest))
        (fun '(host, rest) =>
      (* Set Path *)
      bind (unescape rest encodePath) (fun path =>
      Ok (mkURL scheme "" host path rawQuery "")))).

(** [url.Parse(rawURL)]. *)
Definition Parse (rawURL : string) : result URL :=
  (* Cut off #frag *)
  let '(u, frag, _) := Cut rawURL "#" in
  bind (wrap "parse: %w" (parse u)) (fun url =>
  if String.eqb frag "" then Ok url
  else
    bind (wrap "parse: %w" (unescape frag encodeFragment)) (fun f =>
    Ok (mkURL (Scheme url) (Opaque url) (Host url) (Path url)
          (RawQuery url) f))).

(** [url.Values]: the keys with their values, in the order they came. *)
Definition Values : Type := list (string * string).

(** [v.Get(key)]: the first value of the key, or the empty string. *)
Fixpoint Get (v : Values) (key : string) : string :=
  match v with
  | [] => EmptyString
  | (k, x) :: v' => if String.eqb k key then x else Get v' key
  end.

(** [v.Set(key, value)]. *)
Fixpoint Set_ (v : Values) (key value : string) : Values :=
  match v with
  | [] => [(key, value)]
  | (k, x) :: v' =>
      if String.eqb k key then (k, value) :: v' else (k, x) :: Set_ v' key value
  end.

Fixpoint split (s : string) (sep : ascii) : list string :=
  match s with
  | EmptyString => [EmptyString]
  | String c s' =>
      if Ascii.eqb c sep then EmptyString :: split s' sep
      else match split s' sep with
           | seg :: segs => String c seg :: segs
           | [] => [String c EmptyString]
           end
  end.

(** One [key=value] pair of a query, or nothing when it is empty or
    malformed. *)
Definition parsePair (pair : string) : list (string * string) :=
  if Contains pair ";" then []
  else if String.eqb pair "" then []
  else
    let '(key, value, _) := Cut pair "=" in
    match QueryUnescape key, QueryUnescape value with
    | Ok key, Ok value => [(key, value)]
    | _, _ => []
    end.

(** [u.Query()]: [ParseQuery(u.RawQuery)] with its error dropped. *)
Definition Query (u : URL) : Values :=
  flat_map parsePair (split (RawQuery u) "&").

Fixpoint insert_sorted (kv : string * string) (v : Values) : Values :=
  match v with
  | [] => [kv]
  | kv' :: v' =>
      if String.leb (fst kv) (fst kv') then kv :: v
      else kv' :: insert_sorted kv v'
  end.

Fixpoint join (sep : string) (l : list string) : string :=
  match l with
  | [] => EmptyString
  | [s] => s
  | s :: l' => (s ++ sep ++ join sep l')%string
  end.

(** [v.Encode()]: [key=value] pairs, escaped, sorted by key. *)
Definition Encode (v : Values) : string :=
  join "&"
    (map (fun kv => (QueryEscape (fst kv) ++ "=" ++ QueryEscape (snd kv))%string)
       (fold_right insert_sorted [] v)).

End url.

(* ================================================================== *)
(** * Package totp *)

Module totp.

(** [time.Duration]: nanoseconds in an [int64]. *)
Definition Duration : Type := Z.
Definition Second : Duration := 1000000000.

(** [d.Seconds()] converted to an integer, as [uint64(d.Seconds())] and
    [int(d.Seconds())] do.  For a whole number of seconds the floating-point
    sum is exact and this is that number; for other durations the fraction is
    cut off (the rounding of the float is not modelled).  For a negative
    duration Go leaves [uint64] of the float to the implementation; the
    wrap-around of [uint64] is taken here, as on amd64. *)
Definition Seconds (d : Duration) : Z := Z.quot d Second.

(** [time.Time] as Unix seconds and nanoseconds within the second. *)
Record Time : Type := mkTime { sec : Z; nsec : Z }.

(** [time.Unix(sec, nsec)]. *)
Definition time_Unix (s n : Z) : Time :=
  {| sec := s + n / Second; nsec := n mod Second |}.

(** [t.Unix()]. *)
Definition Unix (t : Time) : Z := sec t.

(** [t.Add(d)]. *)
Definition Add (t : Time) (d : Duration) : Time :=
  time_Unix (sec t) (nsec t + d).

(** TOTP configuration parameters. *)
Record Config : Type := mkConfig {
  Secret : string;      (* Base32 encoded secret *)
  Period : Duration;    (* Time period (default 30s) *)
  Digits : Z;           (* Number of digits (default 6) *)
  Algorithm : string;   (* Hash algorithm: "SHA1", "SHA256", "SHA512" *)
  Issuer : string;      (* Optional issuer name *)
  Account : string      (* Optional account name *)
}.

(** [DefaultConfig] returns a standard TOTP configuration. *)
Definition DefaultConfig (secret : string) : Config :=
  {| Secret := secret;
     Period := 30 * Second;
     Digits := 6;
     Algorithm := "SHA1";
     Issuer := "";
     Account := "" |}.

(** Integer division of [uint64]s: a zero divisor panics. *)
Definition div_uint64 (a b : Z) : result Z :=
  if b =? 0 then Panic "runtime error: integer divide by zero"
  else Ok (a / b).

Definition mod_uint32 (a b : Z) : result Z :=
  if b =? 0 then Panic "runtime error: integer divide by zero"
  else Ok (a mod b).

(** [uint32(math.Pow10(n))]: [10^n] up to 9 digits and 0 (the fraction cut
    off) for a negative [n].  From 10 digits on the power does not fit a
    [uint32] and Go leaves the conversion to the implementation; the value
    here is the one of amd64 (the low 32 bits of the 64-bit conversion, 0
    once that overflows too). *)
Definition Pow10_uint32 (n : Z) : Z :=
  if n <? 0 then 0
  else if n <=? 18 then uint32 (10 ^ n)
  else 0.

(** [binary.BigEndian.PutUint64]. *)
Definition PutUint64 (v : Z) : list byte := gcm.be64 v.

(** [binary.BigEndian.Uint32] of four bytes. *)
Definition Uint32 (bs : list byte) : Z :=
  fold_left (fun acc b => acc * 256 + Z_of_byte b) (firstn 4 bs) 0.

(** [generateHOTP] generates an HOTP code. *)
Definition generateHOTP (c : Config) (secret : list byte) (counter : Z)
  : result string :=
  (* Create HMAC hash function *)
  bind
    (if String.eqb (Algorithm c) "SHA1" then Ok hash.sha1_New
     else if String.eqb (Algorithm c) "SHA256" then Ok hash.sha256_New
     else if String.eqb (Algorithm c) "SHA512" then Ok hash.sha512_New
     else Err (Errorf "unsupported algorithm: %s" [Str (Algorithm c)]))
    (fun h =>
  (* Write counter as big-endian uint64 and compute HMAC *)
  let counterBytes := PutUint64 counter in
  let hmacResult := hash.hmac h secret counterBytes in
  (* Dynamic truncation *)
  let offset := Z.land (Z_of_byte (last hmacResult x00)) 15 in
  let code := Z.land (Uint32 (slice_to 4 (slice_from offset hmacResult)))
                2147483647 in
  (* Generate digits *)
  let modulo := Pow10_uint32 (Digits c) in
  bind (mod_uint32 code modulo) (fun code =>
  (* Format with leading zeros *)
  Ok (Sprintf_0d (Digits c) code))).

(** [GenerateCodeAt] generates a TOTP code for a specific time: the code
    and the time until it expires. *)
Definition GenerateCodeAt (c : Config) (t : Time) : result (string * Duration) :=
  (* Decode secret *)
  bind (wrap "invalid secret: %w"
          (base32.DecodeString (strings_ToUpper (Secret c)))) (fun secret =>
  (* Calculate time counter *)
  bind (div_uint64 (uint64 (Unix t)) (uint64 (Seconds (Period c))))
    (fun counter =>
  (* Generate HOTP *)
  bind (generateHOTP c secret counter) (fun code =>
  (* Calculate time until expiry *)
  let nextCounter := uint64 ((counter + 1) * uint64 (Seconds (Period c))) in
  let expiresIn := int64 (int64 (uint64 (nextCounter - uint64 (Unix t))) * Second) in
  Ok (code, expiresIn)))).

(** [err == nil && generated == code] for the result of [GenerateCodeAt]. *)
Definition code_is (r : result (string * Duration)) (code : string)
  : result bool :=
  match r with
  | Ok (generated, _) => Ok (String.eqb generated code)
  | Err _ => Ok false
  | Panic m => Panic m
  end.

(** [ValidateAt] checks if a code is valid for a specific time. *)
Definition ValidateAt (c : Config) (code : string) (t : Time) : result bool :=
  (* Check current time *)
  bind (code_is (GenerateCodeAt c t) code) (fun current =>
  if current then Ok true
  else
    (* Check +-1 time step *)
    let prevTime := Add t (int64 (- Period c)) in
    bind (code_is (GenerateCodeAt c prevTime) code) (fun prev =>
    if prev then Ok true
    else
      let nextTime := Add t (Period c) in
      bind (code_is (GenerateCodeAt c nextTime) code) (fun next =>
      if next then Ok true else Ok false))).

(* ------------------------------------------------------------------ *)
(** ** The RFC 6238 vectors *)

(** The configuration of the RFC 6238 test key "12345678901234567890". *)
Definition rfc6238 : Config :=
  {| Secret := "GEZDGNBVGY3TQOJQGEZDGNBVGY3TQOJQ";
     Period := 30 * Second;
     Digits := 6;
     Algorithm := "SHA1";
     Issuer := "";
     Account := "" |}.

Example rfc6238_sha256 :
  GenerateCodeAt
    {| Secret := "GEZDGNBVGY3TQOJQGEZDGNBVGY3TQOJQGEZDGNBVGY3TQOJQGEZA";
       Period := 30 * Second; Digits := 8; Algorithm := "SHA256";
       Issuer := ""; Account := "" |} (time_Unix 59 0)
  = Ok ("46119246"%string, 1 * Second).
Proof. vm_compute. reflexivity. Qed.

Example rfc6238_sha512 :
  GenerateCodeAt
    {| Secret := "GEZDGNBVGY3TQOJQGEZDGNBVGY3TQOJQGEZDGNBVGY3TQOJQGEZDGNBVGY3TQOJQGEZDGNBVGY3TQOJQGEZDGNBVGY3TQOJQGEZDGNA";
       Period := 30 * Second; Digits := 8; Algorithm := "SHA512";
       Issuer := ""; Account := "" |} (time_Unix 59 0)
  = Ok ("90693936"%string, 1 * Second).
Proof. vm_compute. reflexivity. Qed.

(** C7. With the Base32 secret GEZDGNBVGY3TQOJQGEZDGNBVGY3TQOJQ, SHA1,
    6 digits and a 30-second period, [GenerateCodeAt] at Unix time 59
    returns the code "287082" and a time until expiry of one second. *)
Theorem GenerateCodeAt_rfc6238_vector :
  GenerateCodeAt (mkConfig "GEZDGNBVGY3TQOJQGEZDGNBVGY3TQOJQ" (30 * Second)
                    6 "SHA1" "" "") (time_Unix 59 0)
  = Ok ("287082"%string, 1 * Second).
Proof. vm_compute. reflexivity. Qed.

(* ------------------------------------------------------------------ *)
(** ** Validation *)

(** A period of [s > 0] whole seconds, and a digit count whose power of ten
    fits the code. *)
Definition whole_seconds (c : Config) (s : Z) : Prop :=
  Period c = s * Second /\ 0 < s /\ s * Second < 2 ^ 63.

Definition generated (c : Config) (t : Time) (code : string) : Prop :=
  exists expiresIn, GenerateCodeAt c t = Ok (code, expiresIn).

(** The counter [GenerateCodeAt] computes at [t]. *)
Definition counter (c : Config) (t : Time) : result Z :=
  div_uint64 (uint64 (Unix t)) (uint64 (Seconds (Period c))).

Lemma Seconds_whole (s : Z) : Seconds (s * Second) = s.
Proof. unfold Seconds. apply Z.quot_mul. discriminate. Qed.

Lemma uint64_small (z : Z) : 0 <= z < 2 ^ 64 -> uint64 z = z.
Proof. intro H. unfold uint64. now apply Z.mod_small. Qed.

Lemma int64_small (z : Z) : - 2 ^ 63 <= z < 2 ^ 63 -> int64 z = z.
Proof. intro H. unfold int64. rewrite Z.mod_small; lia. Qed.

Lemma whole_seconds_divisor (c : Config) (s : Z) :
  whole_seconds c s -> uint64 (Seconds (Period c)) = s /\ s < 2 ^ 63.
Proof.
  intros (Hp & Hs & Hb). rewrite Hp, Seconds_whole.
  unfold Second in Hb. split; [apply uint64_small|]; lia.
Qed.

Lemma counter_whole_seconds (c : Config) (t : Time) (s : Z) :
  whole_seconds c s -> counter c t = Ok (uint64 (Unix t) / s).
Proof.
  intro H. destruct (whole_seconds_divisor c s H) as [Hd _].
  unfold counter, div_uint64. rewrite Hd.
  destruct H as (_ & Hs & _).
  destruct (Z.eqb_spec s 0); [lia | reflexivity].
Qed.

Lemma Pow10_uint32_digits (d : Z) :
  0 <= d <= 9 -> Pow10_uint32 d = 10 ^ d /\ Pow10_uint32 d <> 0.
Proof.
  intro H.
  assert (E : d = 0 \/ d = 1 \/ d = 2 \/ d = 3 \/ d = 4 \/ d = 5 \/ d = 6 \/
              d = 7 \/ d = 8 \/ d = 9) by lia.
  repeat (destruct E as [-> | E]); try subst d; vm_compute; split; congruence.
Qed.

Lemma generateHOTP_no_panic (c : Config) (secret : list byte) (n : Z) :
  0 <= Digits c <= 9 ->
  forall m, generateHOTP c secret n <> Panic m.
Proof.
  intros Hd m. unfold generateHOTP.
  destruct (Pow10_uint32_digits _ Hd) as [_ Hnz].
  destruct (String.eqb (Algorithm c) "SHA1");
    [| destruct (String.eqb (Algorithm c) "SHA256");
       [| destruct (String.eqb (Algorithm c) "SHA512")]];
    cbn [bind]; try discriminate;
    unfold mod_uint32;
    (destruct (Z.eqb_spec (Pow10_uint32 (Digits c)) 0); [contradiction|]);
    cbn [bind]; discriminate.
Qed.

Lemma GenerateCodeAt_no_panic (c : Config) (t : Time) (s : Z) :
  whole_seconds c s -> 0 <= Digits c <= 9 ->
  forall m, GenerateCodeAt c t <> Panic m.
Proof.
  intros Hs Hd m. unfold GenerateCodeAt.
  destruct (base32.DecodeString (strings_ToUpper (Secret c)))
    as [secret|e|m'] eqn:E; cbn [wrap bind]; try discriminate.
  - fold (counter c t). rewrite (counter_whole_seconds c t s Hs). cbn [bind].
    pose proof (generateHOTP_no_panic c secret (uint64 (Unix t) / s) Hd) as Hg.
    destruct (generateHOTP c secret (uint64 (Unix t) / s)) as [code|e|m'];
      cbn [bind]; try discriminate.
    exfalso. now apply (Hg m').
  - unfold base32.DecodeString in E.
    destruct (base32.decode_chars _); discriminate.
Qed.

Lemma Add_whole (t : Time) (s : Z) :
  0 <= nsec t < Second ->
  Add t (s * Second) = {| sec := sec t + s; nsec := nsec t |}.
Proof.
  intro H. unfold Add, time_Unix.
  rewrite Z.div_add by discriminate. rewrite Z.mod_add by discriminate.
  rewrite Z.div_small, Z.mod_small by exact H. f_equal; lia.
Qed.

Lemma code_is_true (r : result (string * Duration)) (code : string) :
  code_is r code = Ok true <-> exists d, r = Ok (code, d).
Proof.
  destruct r as [[g d]|e|m]; cbn; split.
  - intro H. injection H as H. apply String.eqb_eq in H. subst. now exists d.
  - intros [d' H]. injection H as -> _. now rewrite String.eqb_refl.
  - discriminate.
  - intros [d H]. discriminate.
  - discriminate.
  - intros [d H]. discriminate.
Qed.

Lemma code_is_total (r : result (string * Duration)) (code : string) :
  (forall m, r <> Panic m) -> exists b, code_is r code = Ok b.
Proof.
  intro H. destruct r as [[g d]|e|m]; cbn; eauto. exfalso. now apply (H m).
Qed.

(** C8 (amended). For a configuration with a period of whole seconds and up
    to nine digits, [ValidateAt] returns, and returns true exactly when the
    code is the one generated at [t], one period before [t] or one period
    after [t] (the windows next to the one of [t], when [t] is at least one
    period after the epoch).  A code generated at [t] is accepted one
    period later and one period earlier.  Two periods away the same
    criterion applies: the code is accepted there when it equals the code of
    one of the three windows checked there. *)
Theorem ValidateAt_one_step_tolerance (c : Config) (code : string) (t : Time)
  (s : Z) :
  whole_seconds c s -> 0 <= Digits c <= 9 -> 0 <= nsec t < Second ->
  let prev := Add t (int64 (- Period c)) in
  let next := Add t (Period c) in
  (exists b,
      ValidateAt c code t = Ok b /\
      (b = true <->
       generated c t code \/ generated c prev code \/ generated c next code))
  /\ prev = {| sec := sec t - s; nsec := nsec t |}
  /\ next = {| sec := sec t + s; nsec := nsec t |}
  /\ (s <= sec t -> sec t + s < 2 ^ 64 ->
      counter c t = Ok (sec t / s) /\
      counter c prev = Ok (sec t / s - 1) /\
      counter c next = Ok (sec t / s + 1))
  /\ (generated c t code ->
      ValidateAt c code next = Ok true /\ ValidateAt c code prev = Ok true).
Proof.
  intros Hs Hd Ht prev next.
  pose proof Hs as (Hp & Hpos & Hb).
  assert (Hneg : int64 (- Period c) = (- s) * Second).
  { rewrite Hp. unfold Second in *. rewrite int64_small by lia. lia. }
  assert (Hprev : prev = {| sec := sec t - s; nsec := nsec t |}).
  { unfold prev. rewrite Hneg, Add_whole by exact Ht. f_equal. }
  assert (Hnext : next = {| sec := sec t + s; nsec := nsec t |}).
  { unfold next. rewrite Hp, Add_whole by exact Ht. reflexivity. }
  assert (Hnp : forall t' m, GenerateCodeAt c t' <> Panic m)
    by (intros t' m; now apply (GenerateCodeAt_no_panic c t' s)).
  (* the three checks, in order *)
  assert (Hval : forall t0,
             exists b,
               ValidateAt c code t0 = Ok b /\
               (b = true <->
                generated c t0 code \/
                generated c (Add t0 (int64 (- Period c))) code \/
                generated c (Add t0 (Period c)) code)).
  { intro t0. unfold ValidateAt, generated.
    destruct (code_is_total (GenerateCodeAt c t0) code (Hnp t0)) as [b1 H1].
    rewrite H1. cbn [bind].
    destruct b1.
    { exists true. split; [reflexivity|]. split; [|reflexivity].
      intros _. left. now apply code_is_true. }
    destruct (code_is_total (GenerateCodeAt c (Add t0 (int64 (- Period c))))
                code (Hnp _)) as [b2 H2].
    rewrite H2. cbn [bind].
    destruct b2.
    { exists true. split; [reflexivity|]. split; [|reflexivity].
      intros _. right. left. now apply code_is_true. }
    destruct (code_is_total (GenerateCodeAt c (Add t0 (Period c)))
                code (Hnp _)) as [b3 H3].
    rewrite H3. cbn [bind].
    destruct b3.
    { exists true. split; [reflexivity|]. split; [|reflexivity].
      intros _. right. right. now apply code_is_true. }
    exists false. split; [reflexivity|]. split; [discriminate|].
    intros [H | [H | H]]; apply code_is_true in H; congruence. }
  split; [apply Hval|]. split; [exact Hprev|]. split; [exact Hnext|]. split.
  - intros Hle Hhi.
    rewrite Hprev, Hnext, !(counter_whole_seconds c _ s Hs).
    unfold Unix. cbn [sec].
    rewrite !uint64_small by lia.
    assert (E1 : (sec t - s) / s = sec t / s - 1).
    { replace (sec t - s) with (sec t + (-1) * s) by lia.
      rewrite Z.div_add by lia. lia. }
    assert (E2 : (sec t + s) / s = sec t / s + 1).
    { replace (sec t + s) with (sec t + 1 * s) by lia.
      rewrite Z.div_add by lia. lia. }
    rewrite E1, E2. repeat split; reflexivity.
  - intro Hgen.
    assert (Hback : Add next (int64 (- Period c)) = t).
    { rewrite Hnext, Hneg, Add_whole by exact Ht. cbn [sec nsec].
      destruct t; cbn; f_equal; lia. }
    assert (Hforth : Add prev (Period c) = t).
    { rewrite Hprev, Hp, Add_whole by exact Ht. cbn [sec nsec].
      destruct t; cbn; f_equal; lia. }
    split.
    + destruct (Hval next) as (b & Hv & Hiff). rewrite Hv. f_equal.
      apply Hiff. right. left. now rewrite Hback.
    + destruct (Hval prev) as (b & Hv & Hiff). rewrite Hv. f_equal.
      apply Hiff. right. right. now rewrite Hforth.
Qed.

Lemma ValidateAt_one_step_tolerance_witness :
  let c := rfc6238 in
  let t := time_Unix 59 0 in
  let prev := Add t (int64 (- Period c)) in
  let next := Add t (Period c) in
  (exists b,
      ValidateAt c "287082" t = Ok b /\
      (b = true <->
       generated c t "287082" \/ generated c prev "287082" \/
       generated c next "287082"))
  /\ prev = {| sec := sec t - 30; nsec := nsec t |}
  /\ next = {| sec := sec t + 30; nsec := nsec t |}
  /\ (30 <= sec t -> sec t + 30 < 2 ^ 64 ->
      counter c t = Ok (sec t / 30) /\
      counter c prev = Ok (sec t / 30 - 1) /\
      counter c next = Ok (sec t / 30 + 1))
  /\ (generated c t "287082" ->
      ValidateAt c "287082" next = Ok true /\
      ValidateAt c "287082" prev = Ok true).
Proof.
  apply (ValidateAt_one_step_tolerance rfc6238 "287082" (time_Unix 59 0) 30).
  - repeat split; vm_compute; congruence.
  - vm_compute. split; congruence.
  - vm_compute. split; congruence.
Defined.

(** C8, as stated, fails: with the RFC 6238 key, 6 digits and SHA1 the
    windows 153567 and 153569 have the same code, so the code generated at
    Unix time 4607010 is accepted two periods later, and the code generated
    at 4607070 two periods earlier. *)
Lemma ValidateAt_accepts_two_periods_away :
  generated rfc6238 (time_Unix 4607010 0) "468457" /\
  ValidateAt rfc6238 "468457"
    (Add (time_Unix 4607010 0) (2 * Period rfc6238)) = Ok true /\
  generated rfc6238 (time_Unix 4607070 0) "468457" /\
  ValidateAt rfc6238 "468457"
    (Add (time_Unix 4607070 0) (- (2 * Period rfc6238))) = Ok true.
Proof.
  unfold generated.
  repeat split; try (eexists; vm_compute; reflexivity);
    vm_compute; reflexivity.
Qed.

(* ------------------------------------------------------------------ *)
(** ** The otpauth URI *)

(** [strings.TrimPrefix(s, "/")]. *)
Definition TrimPrefix_slash (s : string) : string :=
  match s with
  | String "/" s' => s'
  | _ => s
  end.

(** [ParseURI] parses an otpauth:// URI. *)
Definition ParseURI (uri : string) : result Config :=
  bind (wrap "invalid URI: %w" (url.Parse uri)) (fun u =>
  if negb (String.eqb (url.Scheme u) "otpauth") then
    Err (Errorf "invalid scheme: expected otpauth, got %s" [Str (url.Scheme u)])
  else if negb (String.eqb (url.Host u) "totp") then
    Err (Errorf "invalid type: expected totp, got %s" [Str (url.Host u)])
  else
    (* Parse query parameters *)
    let query := url.Query u in
    let secret := url.Get query "secret" in
    if String.eqb secret "" then Err (Errorf "missing secret parameter" [])
    else
      let config := DefaultConfig secret in
      (* Parse optional parameters *)
      let issuer := url.Get query "issuer" in
      let config :=
        if negb (String.eqb issuer "") then
          mkConfig (Secret config) (Period config) (Digits config)
            (Algorithm config) issuer (Account config)
        else config in
      let period := url.Get query "period" in
      bind (if negb (String.eqb period "") then
              bind (wrap "invalid period: %w" (strconv_Atoi period)) (fun p =>
              Ok (mkConfig (Secret config) (int64 (p * Second)) (Digits config)
                    (Algorithm config) (Issuer config) (Account config)))
            else Ok config) (fun config =>
      let digits := url.Get query "digits" in
      bind (if negb (String.eqb digits "") then
              bind (wrap "invalid digits: %w" (strconv_Atoi digits)) (fun d =>
              Ok (mkConfig (Secret config) (Period config) d
                    (Algorithm config) (Issuer config) (Account config)))
            else Ok config) (fun config =>
      let algorithm := url.Get query "algorithm" in
      let config :=
        if negb (String.eqb algorithm "") then
          mkConfig (Secret config) (Period config) (Digits config)
            (strings_ToUpper algorithm) (Issuer config) (Account config)
        else config in
      (* Parse label (format: issuer:account or just account) *)
      let label := TrimPrefix_slash (url.Path u) in
      if negb (String.eqb label "") then
        match url.Cut label ":" with
        | (part0, part1, true) =>
            let issuer' := if String.eqb (Issuer config) "" then part0
                           else Issuer config in
            Ok (mkConfig (Secret config) (Period config) (Digits config)
                  (Algorithm config) issuer' part1)
        | (part0, _, false) =>
            Ok (mkConfig (Secret config) (Period config) (Digits config)
                  (Algorithm config) (Issuer config) part0)
        end
      else Ok config))).

(** [ToURI] converts the config to an otpauth:// URI. *)
Definition ToURI (c : Config) : string :=
  let values := url.Set_ [] "secret" (Secret c) in
  let values :=
    if negb (String.eqb (Issuer c) "") then url.Set_ values "issuer" (Issuer c)
    else values in
  let values :=
    if negb (Period c =? 30 * Second) then
      url.Set_ values "period" (strconv_Itoa (Seconds (Period c)))
    else values in
  let values :=
    if negb (Digits c =? 6) then
      url.Set_ values "digits" (strconv_Itoa (Digits c))
    else values in
  let values :=
    if negb (String.eqb (Algorithm c) "SHA1") then
      url.Set_ values "algorithm" (Algorithm c)
    else values in
  (* Build label *)
  let label :=
    if negb (String.eqb (Issuer c) "") && negb (String.eqb (Account c) "") then
      (Issuer c ++ ":" ++ Account c)%string
    else if negb (String.eqb (Issuer c) "") then Issuer c
    else Account c in
  ("otpauth://totp/" ++ url.PathEscape label ++ "?" ++ url.Encode values)%string.

(** The cases of the repository's own test of [ParseURI]. *)
Example ParseURI_basic :
  ParseURI "otpauth://totp/Test?secret=JBSWY3DPEHPK3PXP"
  = Ok (mkConfig "JBSWY3DPEHPK3PXP" (30 * Second) 6 "SHA1" "" "Test").
Proof. vm_compute. reflexivity. Qed.

Example ParseURI_with_issuer :
  ParseURI "otpauth://totp/GitHub:user@example.com?secret=JBSWY3DPEHPK3PXP&issuer=GitHub"
  = Ok (mkConfig "JBSWY3DPEHPK3PXP" (30 * Second) 6 "SHA1" "GitHub"
          "user@example.com").
Proof. vm_compute. reflexivity. Qed.

Example ParseURI_custom :
  ParseURI "otpauth://totp/Test?secret=JBSWY3DPEHPK3PXP&period=60&digits=8&algorithm=SHA256"
  = Ok (mkConfig "JBSWY3DPEHPK3PXP" (60 * Second) 8 "SHA256" "" "Test").
Proof. vm_compute. reflexivity. Qed.

Example ParseURI_errors :
  is_err (ParseURI "otpauth://totp/Test") = true /\
  is_err (ParseURI "http://totp/Test?secret=JBSWY3DPEHPK3PXP") = true /\
  is_err (ParseURI "otpauth://hotp/Test?secret=JBSWY3DPEHPK3PXP") = true.
Proof. vm_compute. auto. Qed.

Example ToURI_github :
  ToURI (mkConfig "JBSWY3DPEHPK3PXP" (30 * Second) 6 "SHA1" "GitHub"
           "user@example.com")
  = "otpauth://totp/GitHub:user@example.com?issuer=GitHub&secret=JBSWY3DPEHPK3PXP"%string.
Proof. vm_compute. reflexivity. Qed.

(* ------------------------------------------------------------------ *)
(** ** The period as a divisor *)

(** The URI with [period=0] that [ParseURI] accepts. *)
Definition zero_period_uri : string :=
  "otpauth://totp/x?secret=GEZDGNBVGY3TQOJQGEZDGNBVGY3TQOJQ&period=0".

(** C10. [GenerateCodeAt] divides the Unix time by the period in seconds
    and nothing guards the divisor.  With a period of a positive whole number
    of seconds the division is defined (and with up to nine digits the whole
    call returns, a code or an error).  With a period of less than a second,
    zero in particular, and a secret that decodes, the call panics with a
    division by zero; [ParseURI] accepts [period=0] and returns such a
    configuration. *)
Theorem GenerateCodeAt_divides_by_period :
  (forall c t s,
      whole_seconds c s ->
      counter c t = Ok (uint64 (Unix t) / s) /\
      (0 <= Digits c <= 9 -> forall m, GenerateCodeAt c t <> Panic m))
  /\
  (forall c t,
      Seconds (Period c) = 0 ->
      is_ok (base32.DecodeString (strings_ToUpper (Secret c))) = true ->
      GenerateCodeAt c t = Panic "runtime error: integer divide by zero")
  /\
  (exists c,
      ParseURI zero_period_uri = Ok c /\ Period c = 0 /\
      forall t,
        GenerateCodeAt c t = Panic "runtime error: integer divide by zero").
Proof.
  assert (Hzero : forall c t,
             Seconds (Period c) = 0 ->
             is_ok (base32.DecodeString (strings_ToUpper (Secret c))) = true ->
             GenerateCodeAt c t = Panic "runtime error: integer divide by zero").
  { intros c t Hp Hs. unfold GenerateCodeAt.
    destruct (base32.DecodeString (strings_ToUpper (Secret c)));
      try discriminate.
    cbn [wrap bind]. rewrite Hp. reflexivity. }
  split; [|split].
  - intros c t s Hs. split.
    + now apply counter_whole_seconds.
    + intros Hd m. now apply (GenerateCodeAt_no_panic c t s).
  - exact Hzero.
  - eexists. split; [vm_compute; reflexivity|]. split; [reflexivity|].
    intro t. apply Hzero; vm_compute; reflexivity.
Qed.

(* ------------------------------------------------------------------ *)
(** ** Facts on strings *)

Lemma string_app_assoc (a b c : string) :
  ((a ++ b) ++ c = a ++ (b ++ c))%string.
Proof. induction a as [|x a IH]; cbn; [reflexivity | now rewrite IH]. Qed.


Lemma string_all_app (p : ascii -> bool) (a b : string) :
  string_all p (a ++ b) = string_all p a && string_all p b.
Proof.
  induction a as [|x a IH]; cbn; [reflexivity|].
  rewrite IH. now rewrite andb_assoc.
Qed.

Lemma string_all_impl (p q : ascii -> bool) (s : string) :
  (forall c, p c = true -> q c = true) ->
  string_all p s = true -> string_all q s = true.
Proof.
  intro H. induction s as [|x s IH]; cbn; [reflexivity|].
  intro Hp. apply andb_true_iff in Hp as [Hx Hs].
  now rewrite (H x Hx), IH.
Qed.

Definition differs (sep : ascii) (c : ascii) : bool := negb (Ascii.eqb c sep).

Lemma Cut_none (s : string) (sep : ascii) :
  string_all (differs sep) s = true -> url.Cut s sep = (s, EmptyString, false).
Proof.
  induction s as [|x s IH]; cbn; [reflexivity|].
  intro H. apply andb_true_iff in H as [Hx Hs]. unfold differs in Hx.
  destruct (Ascii.eqb x sep); [discriminate|]. now rewrite IH.
Qed.

Lemma Cut_app (a b : string) (sep : ascii) :
  string_all (differs sep) a = true ->
  url.Cut (a ++ String sep b) sep = (a, b, true).
Proof.
  induction a as [|x a IH]; cbn.
  - intros _. now rewrite Ascii.eqb_refl.
  - intro H. apply andb_true_iff in H as [Hx Hs]. unfold differs in Hx.
    destruct (Ascii.eqb x sep); [discriminate|]. now rewrite IH.
Qed.

Lemma split_none (s : string) (sep : ascii) :
  string_all (differs sep) s = true -> url.split s sep = [s].
Proof.
  induction s as [|x s IH]; cbn; [reflexivity|].
  intro H. apply andb_true_iff in H as [Hx Hs]. unfold differs in Hx.
  destruct (Ascii.eqb x sep); [discriminate|]. now rewrite IH.
Qed.

Lemma split_app (a b : string) (sep : ascii) :
  string_all (differs sep) a = true ->
  url.split (a ++ String sep b) sep = a :: url.split b sep.
Proof.
  induction a as [|x a IH]; cbn.
  - intros _. now rewrite Ascii.eqb_refl.
  - intro H. apply andb_true_iff in H as [Hx Hs]. unfold differs in Hx.
    destruct (Ascii.eqb x sep); [discriminate|]. now rewrite IH.
Qed.

Lemma Contains_differs (s : string) (c : ascii) :
  url.Contains s c = negb (string_all (differs c) s).
Proof. reflexivity. Qed.


Lemma HasSuffixChar_differs (s : string) (c : ascii) :
  string_all (differs c) s = true -> url.HasSuffixChar s c = false.
Proof.
  induction s as [|x s IH]; cbn; [reflexivity|].
  intro H. apply andb_true_iff in H as [Hx Hs]. unfold differs in Hx.
  destruct s; [now destruct (Ascii.eqb x c) | now apply IH].
Qed.

Lemma HasSuffixChar_app (a b : string) (c : ascii) :
  b <> EmptyString -> url.HasSuffixChar (a ++ b) c = url.HasSuffixChar b c.
Proof.
  intro Hb. induction a as [|x a IH]; [reflexivity|].
  cbn [append]. cbn [url.HasSuffixChar].
  destruct (a ++ b)%string eqn:E; [|exact IH].
  destruct a; cbn in E; [contradiction | discriminate].
Qed.

Lemma substring_all (s : string) : String.substring 0 (String.length s) s = s.
Proof. induction s as [|x s IH]; cbn; [reflexivity | now rewrite IH]. Qed.

Lemma eqb_empty_false (s : string) : s <> EmptyString -> String.eqb s "" = false.
Proof. intro H. now apply String.eqb_neq. Qed.

(* ------------------------------------------------------------------ *)
(** ** Decimal numbers *)

Lemma utoa_app (fuel : nat) :
  forall n acc, utoa fuel n acc = (utoa fuel n "" ++ acc)%string.
Proof.
  induction fuel as [|fuel IH]; intros n acc; cbn [utoa]; [reflexivity|].
  destruct (n <? 10); [reflexivity|].
  rewrite (IH _ (String _ acc)), (IH _ (String _ "")).
  now rewrite string_app_assoc.
Qed.

Lemma digits_value_app (s t : string) :
  forall a, digits_value (s ++ t) a
            = match digits_value s a with
              | Some v => digits_value t v
              | None => None
              end.
Proof.
  induction s as [|x s IH]; intro a; cbn; [reflexivity|].
  destruct (is_digit x); [apply IH | reflexivity].
Qed.

Lemma digit_char (d : Z) :
  0 <= d <= 9 ->
  is_digit (char_of (code "0" + d)) = true /\
  code (char_of (code "0" + d)) - code "0" = d.
Proof.
  intro H.
  assert (E : d = 0 \/ d = 1 \/ d = 2 \/ d = 3 \/ d = 4 \/ d = 5 \/ d = 6 \/
              d = 7 \/ d = 8 \/ d = 9) by lia.
  repeat (destruct E as [-> | E]); try subst d; split; reflexivity.
Qed.

Lemma digits_value_utoa (fuel : nat) :
  forall n, 0 <= n < 10 ^ Z.of_nat fuel ->
            digits_value (utoa fuel n "") 0 = Some n.
Proof.
  induction fuel as [|fuel IH]; intros n Hn.
  - cbn in Hn. replace n with 0 by lia. reflexivity.
  - cbn [utoa].
    pose proof (Z.mod_pos_bound n 10 ltac:(lia)) as Hm.
    destruct (digit_char (n mod 10) ltac:(lia)) as [Hd Hv].
    destruct (Z.ltb_spec n 10) as [Hlt|Hge].
    + cbn [digits_value]. rewrite Hd, Hv. rewrite Z.mod_small by lia.
      reflexivity.
    + rewrite utoa_app, digits_value_app, IH.
      * cbn [digits_value]. rewrite Hd, Hv. f_equal.
        pose proof (Z.div_mod n 10 ltac:(lia)). lia.
      * rewrite Nat2Z.inj_succ, Z.pow_succ_r in Hn by lia.
        split; [apply Z.div_pos; lia|].
        apply Z.div_lt_upper_bound; lia.
Qed.

Lemma utoa_head (fuel : nat) (n : Z) :
  0 <= n ->
  exists c rest, utoa (S fuel) n "" = String c rest /\ is_digit c = true.
Proof.
  revert n. induction fuel as [|fuel IH]; intros n Hn.
  - cbn [utoa].
    pose proof (Z.mod_pos_bound n 10 ltac:(lia)) as Hm.
    destruct (digit_char (n mod 10) ltac:(lia)) as [Hd _].
    destruct (n <? 10); eauto.
  - change (utoa (S (S fuel)) n "")
      with (let acc' := String (char_of (code "0" + n mod 10)) "" in
            if n <? 10 then acc' else utoa (S fuel) (n / 10) acc').
    cbv zeta.
    pose proof (Z.mod_pos_bound n 10 ltac:(lia)) as Hm.
    destruct (digit_char (n mod 10) ltac:(lia)) as [Hd _].
    destruct (n <? 10); [eauto|].
    rewrite utoa_app.
    destruct (IH (n / 10) ltac:(apply Z.div_pos; lia)) as (c & rest & E & Hc).
    rewrite E. cbn [append]. eauto.
Qed.

Lemma log2_fuel (n : Z) : 0 <= n -> n < 10 ^ Z.of_nat (S (Z.to_nat (Z.log2 n))).
Proof.
  intro Hn. rewrite Nat2Z.inj_succ, Z2Nat.id by apply Z.log2_nonneg.
  destruct (Z.eq_dec n 0) as [->|Hnz]; [cbn; lia|].
  pose proof (Z.log2_spec n ltac:(lia)) as [_ Hlt].
  eapply Z.lt_le_trans; [exact Hlt|].
  apply Z.pow_le_mono_l. pose proof (Z.log2_nonneg n). lia.
Qed.

Lemma digit_not_sign (c : ascii) :
  is_digit c = true -> Ascii.eqb c "-" = false /\ Ascii.eqb c "+" = false.
Proof.
  intro H. split; apply Ascii.eqb_neq; intros ->; discriminate.
Qed.

(** [strconv.Atoi] reads back what [strconv.Itoa] writes. *)
Lemma Atoi_Itoa (i : Z) :
  - 2 ^ 63 <= i < 2 ^ 63 -> strconv_Atoi (strconv_Itoa i) = Ok i.
Proof.
  intro Hi. unfold strconv_Itoa, strconv_Atoi.
  destruct (Z.ltb_spec i 0) as [Hneg|Hpos].
  - rewrite Ascii.eqb_refl.
    destruct (utoa_head (Z.to_nat (Z.log2 (- i))) (- i) ltac:(lia))
      as (c & rest & E & Hc).
    rewrite digits_value_utoa by (split; [lia | apply log2_fuel; lia]).
    rewrite E.
    replace (- - i) with i by lia.
    destruct (Z.leb_spec (- 2 ^ 63) i); [|lia].
    destruct (Z.ltb_spec i (2 ^ 63)); [reflexivity | lia].
  - destruct (utoa_head (Z.to_nat (Z.log2 i)) i Hpos) as (c & rest & E & Hc).
    pose proof (digits_value_utoa (S (Z.to_nat (Z.log2 i))) i
                  ltac:(split; [lia | apply log2_fuel; lia])) as Hv.
    rewrite E in *.
    destruct (digit_not_sign c Hc) as [-> ->].
    rewrite Hv.
    destruct (Z.leb_spec (- 2 ^ 63) i); [|lia].
    destruct (Z.ltb_spec i (2 ^ 63)); [reflexivity | lia].
Qed.

(* ------------------------------------------------------------------ *)
(** ** Escaping *)

Lemma escape_cons (c : ascii) (s : string) (mode : url.encoding) :
  url.escape (String c s) mode
  = (url.escape (String c "") mode ++ url.escape s mode)%string.
Proof.
  cbn [url.escape].
  destruct (url.shouldEscape c mode); [|reflexivity].
  destruct mode; try reflexivity.
  destruct (Ascii.eqb c " "); reflexivity.
Qed.

(** What an escaped path segment and an escaped query component never
    hold. *)
Definition safe_path (c : ascii) : bool :=
  negb (Ascii.eqb c "#" || Ascii.eqb c "?"
        || (code c <? 32) || (code c =? 127)).

Definition safe_query (c : ascii) : bool :=
  safe_path c && negb (Ascii.eqb c "&" || Ascii.eqb c ";").

Ltac each_char c :=
  destruct c as [[] [] [] [] [] [] [] []]; vm_compute; reflexivity.

Lemma escape_char_safe_path (c : ascii) :
  string_all safe_path (url.escape (String c "") url.encodePathSegment) = true.
Proof. each_char c. Qed.

Lemma escape_char_safe_query (c : ascii) :
  string_all safe_query (url.escape (String c "") url.encodeQueryComponent)
  = true.
Proof. each_char c. Qed.

Lemma PathEscape_safe (s : string) :
  string_all safe_path (url.PathEscape s) = true.
Proof.
  unfold url.PathEscape. induction s as [|c s IH]; [reflexivity|].
  now rewrite escape_cons, string_all_app, escape_char_safe_path, IH.
Qed.

Lemma QueryEscape_safe (s : string) :
  string_all safe_query (url.QueryEscape s) = true.
Proof.
  unfold url.QueryEscape. induction s as [|c s IH]; [reflexivity|].
  now rewrite escape_cons, string_all_app, escape_char_safe_query, IH.
Qed.

Lemma unescape_escape_char_path (c : ascii) (rest : string) :
  url.unescape (url.escape (String c "") url.encodePathSegment ++ rest)
    url.encodePath
  = bind (url.unescape rest url.encodePath) (fun t => Ok (String c t)).
Proof. destruct c as [[] [] [] [] [] [] [] []]; reflexivity. Qed.

Lemma unescape_escape_char_query (c : ascii) (rest : string) :
  url.unescape (url.escape (String c "") url.encodeQueryComponent ++ rest)
    url.encodeQueryComponent
  = bind (url.unescape rest url.encodeQueryComponent)
      (fun t => Ok (String c t)).
Proof. destruct c as [[] [] [] [] [] [] [] []]; reflexivity. Qed.

(** The path of a parsed URL gives back what [PathEscape] was given. *)
Lemma unescape_PathEscape (s : string) :
  url.unescape (url.PathEscape s) url.encodePath = Ok s.
Proof.
  unfold url.PathEscape. induction s as [|c s IH]; [reflexivity|].
  now rewrite escape_cons, unescape_escape_char_path, IH.
Qed.

Lemma QueryUnescape_QueryEscape (s : string) :
  url.QueryUnescape (url.QueryEscape s) = Ok s.
Proof.
  unfold url.QueryUnescape, url.QueryEscape.
  induction s as [|c s IH]; [reflexivity|].
  now rewrite escape_cons, unescape_escape_char_query, IH.
Qed.

(* ------------------------------------------------------------------ *)
(** ** Parsing what ToURI writes *)

Lemma safe_path_differs (c : ascii) :
  safe_path c = true ->
  differs "#" c = true /\ differs "?" c = true /\
  negb ((code c <? 32) || (code c =? 127)) = true.
Proof.
  unfold safe_path, differs.
  destruct (Ascii.eqb c "#"), (Ascii.eqb c "?"), (code c <? 32),
    (code c =? 127); cbn; intro H; try discriminate; auto.
Qed.

Lemma safe_query_differs (c : ascii) :
  safe_query c = true ->
  safe_path c = true /\ differs "&" c = true /\ differs ";" c = true.
Proof.
  unfold safe_query, differs.
  destruct (safe_path c), (Ascii.eqb c "&"), (Ascii.eqb c ";"); cbn;
    intro H; try discriminate; auto.
Qed.

Lemma getScheme_otpauth (rest : string) :
  url.getScheme ("otpauth:" ++ rest) = Ok ("otpauth"%string, rest).
Proof. reflexivity. Qed.

(** [url.Parse] on [otpauth://totp/<path>?<query>], for a path and a query
    without [#], [?] and control characters. *)
Lemma Parse_otpauth (L Q : string) :
  string_all safe_path L = true ->
  string_all safe_path Q = true ->
  Q <> EmptyString ->
  url.Parse ("otpauth://totp/" ++ L ++ "?" ++ Q)
  = bind (wrap "parse: %w" (url.unescape L url.encodePath)) (fun p =>
    Ok (url.mkURL "otpauth" "" "totp" (String "/" p) Q "")).
Proof.
  intros HL HQ HQne.
  set (uri := ("otpauth://totp/" ++ L ++ "?" ++ Q)%string).
  assert (Hpart : forall p : ascii -> bool,
             (forall c, safe_path c = true -> p c = true) ->
             string_all p "otpauth://totp/" = true ->
             string_all p "?" = true ->
             string_all p uri = true).
  { intros p Hp H1 H2. unfold uri. rewrite !string_all_app, H1, H2.
    rewrite (string_all_impl safe_path p L Hp HL).
    rewrite (string_all_impl safe_path p Q Hp HQ). reflexivity. }
  unfold url.Parse.
  rewrite (Cut_none uri "#")
    by (apply Hpart; [intros c Hc; now apply safe_path_differs in Hc | | ];
        reflexivity).
  cbn [String.eqb].
  assert (Hparse : url.parse uri
                   = bind (url.unescape L url.encodePath) (fun p =>
                     Ok (url.mkURL "otpauth" "" "totp" (String "/" p) Q ""))).
  { unfold url.parse.
    assert (Hctl : url.stringContainsCTLByte uri = false).
    { unfold url.stringContainsCTLByte. apply negb_false_iff.
      apply Hpart; [intros c Hc; now apply safe_path_differs in Hc | | ];
        reflexivity. }
    rewrite Hctl.
    change (String.eqb uri "*") with false. cbv iota.
    change uri with ("otpauth:" ++ ("//totp/" ++ L ++ "?" ++ Q))%string.
    rewrite getScheme_otpauth. cbn [bind].
    change (strings_ToLower "otpauth") with "otpauth"%string.
    set (A := ("//totp/" ++ L)%string).
    assert (HA : string_all (differs "?") A = true).
    { unfold A. rewrite string_all_app. cbn [string_all].
      replace (string_all (differs "?") L) with true; [reflexivity|].
      symmetry. revert HL. apply string_all_impl. intros c Hc.
      now apply safe_path_differs in Hc. }
    change ("//totp/" ++ L ++ "?" ++ Q)%string with (A ++ String "?" Q)%string.
    assert (Hsuf : url.HasSuffixChar (A ++ String "?" Q) "?" = false).
    { change (A ++ String "?" Q)%string with (A ++ ("?" ++ Q))%string.
      rewrite <- string_app_assoc.
      rewrite HasSuffixChar_app by exact HQne.
      apply HasSuffixChar_differs. revert HQ. apply string_all_impl.
      intros c Hc. now apply safe_path_differs in Hc. }
    rewrite Hsuf. cbn [andb].
    rewrite (Cut_app A Q "?" HA).
    change (url.HasPrefix A "/") with true.
    change (url.HasPrefix A "//") with true.
    change (String.eqb "otpauth" "") with false.
    cbn [negb andb orb].
    change (String.substring 2 (String.length A - 2) A)
      with (String.substring 0 (String.length ("totp/" ++ L))
              ("totp/" ++ L)%string).
    rewrite substring_all.
    change (url.Cut ("totp/" ++ L) "/") with ("totp"%string, L, true).
    assert (Hauth : url.parseAuthority "totp" = Ok "totp"%string)
      by reflexivity.
    cbv beta iota zeta. rewrite Hauth. cbn [bind].
    assert (Hun : url.unescape (String "/" L) url.encodePath
                  = bind (url.unescape L url.encodePath)
                      (fun t => Ok (String "/" t))) by reflexivity.
    rewrite Hun.
    destruct (url.unescape L url.encodePath); reflexivity. }
  rewrite Hparse.
  destruct (url.unescape L url.encodePath); reflexivity.
Qed.

Definition plain_key (k : string) : Prop :=
  k <> EmptyString /\ string_all url.is_alnum k = true.

Lemma escape_alnum (k : string) (mode : url.encoding) :
  string_all url.is_alnum k = true -> url.escape k mode = k.
Proof.
  induction k as [|c k IH]; [reflexivity|].
  cbn [string_all url.escape]. intro H.
  apply andb_true_iff in H as [Hc Hk].
  unfold url.shouldEscape. rewrite Hc. now rewrite IH.
Qed.

Lemma alnum_safe_query (c : ascii) : url.is_alnum c = true -> safe_query c = true.
Proof. destruct c as [[] [] [] [] [] [] [] []]; vm_compute; congruence. Qed.

Lemma alnum_differs_eq (c : ascii) : url.is_alnum c = true -> differs "=" c = true.
Proof. destruct c as [[] [] [] [] [] [] [] []]; vm_compute; congruence. Qed.

(** One pair as [Encode] writes it is read back by [Query]. *)
Lemma parsePair_escaped (k v : string) :
  plain_key k ->
  url.parsePair (k ++ String "=" (url.QueryEscape v)) = [(k, v)].
Proof.
  intros [Hne Hk]. unfold url.parsePair.
  assert (Hsemi : string_all (differs ";")
                    (k ++ String "=" (url.QueryEscape v)) = true).
  { rewrite string_all_app. cbn [string_all].
    replace (string_all (differs ";") k) with true.
    2:{ symmetry. revert Hk. apply string_all_impl. intros c Hc.
        apply alnum_safe_query in Hc. now apply safe_query_differs in Hc. }
    replace (string_all (differs ";") (url.QueryEscape v)) with true;
      [reflexivity|].
    symmetry. generalize (QueryEscape_safe v). apply string_all_impl.
    intros c Hc. now apply safe_query_differs in Hc. }
  rewrite Contains_differs, Hsemi. cbn [negb].
  assert (Hnonempty : String.eqb (k ++ String "=" (url.QueryEscape v)) "" = false).
  { destruct k; [contradiction | reflexivity]. }
  rewrite Hnonempty.
  rewrite Cut_app
    by (revert Hk; apply string_all_impl; apply alnum_differs_eq).
  rewrite QueryUnescape_QueryEscape.
  rewrite <- (escape_alnum k url.encodeQueryComponent Hk) at 1.
  fold (url.QueryEscape k). rewrite QueryUnescape_QueryEscape.
  reflexivity.
Qed.

Lemma pair_no_amp (k v : string) :
  plain_key k ->
  string_all (differs "&") (k ++ String "=" (url.QueryEscape v)) = true /\
  string_all safe_path (k ++ String "=" (url.QueryEscape v)) = true.
Proof.
  intros [_ Hk]. rewrite !string_all_app. cbn [string_all].
  assert (H1 : string_all (differs "&") k = true).
  { revert Hk. apply string_all_impl. intros c Hc.
    apply alnum_safe_query in Hc. now apply safe_query_differs in Hc. }
  assert (H2 : string_all safe_path k = true).
  { revert Hk. apply string_all_impl. intros c Hc.
    apply alnum_safe_query in Hc. now apply safe_query_differs in Hc. }
  assert (H3 : string_all (differs "&") (url.QueryEscape v) = true).
  { generalize (QueryEscape_safe v). apply string_all_impl. intros c Hc.
    now apply safe_query_differs in Hc. }
  assert (H4 : string_all safe_path (url.QueryEscape v) = true).
  { generalize (QueryEscape_safe v). apply string_all_impl. intros c Hc.
    now apply safe_query_differs in Hc. }
  rewrite H1, H2, H3, H4. split; reflexivity.
Qed.

Lemma Encode_all (sec iss per dig alg : string) :
  url.Encode
    (url.Set_ (url.Set_ (url.Set_ (url.Set_ (url.Set_ [] "secret" sec)
       "issuer" iss) "period" per) "digits" dig) "algorithm" alg)
  = (("algorithm" ++ String "=" (url.QueryEscape alg)) ++ String "&"
     (("digits" ++ String "=" (url.QueryEscape dig)) ++ String "&"
      (("issuer" ++ String "=" (url.QueryEscape iss)) ++ String "&"
       (("period" ++ String "=" (url.QueryEscape per)) ++ String "&"
        ("secret" ++ String "=" (url.QueryEscape sec))))))%string.
Proof. reflexivity. Qed.

Lemma plain_key_literals :
  plain_key "algorithm" /\ plain_key "digits" /\ plain_key "issuer" /\
  plain_key "period" /\ plain_key "secret".
Proof. repeat split; discriminate. Qed.

(** C9 (amended). For every configuration with a non-empty secret, an
    issuer without a colon, an account, a period of whole seconds other than
    30, a digit count other than 6 and an algorithm name other than SHA1, of
    ASCII characters and without lower-case letters, parsing the URI that
    [ToURI] writes gives the configuration back. *)
Theorem ParseURI_ToURI_roundtrip (c : Config) (s : Z) :
  Secret c <> EmptyString ->
  Issuer c <> EmptyString ->
  url.Contains (Issuer c) ":" = false ->
  Account c <> EmptyString ->
  Period c = s * Second -> s <> 30 -> - 2 ^ 63 <= s * Second < 2 ^ 63 ->
  Digits c <> 6 -> - 2 ^ 63 <= Digits c < 2 ^ 63 ->
  Algorithm c <> "SHA1"%string -> Algorithm c <> EmptyString ->
  string_all is_ascii (Algorithm c) = true ->
  strings_ToUpper (Algorithm c) = Algorithm c ->
  ParseURI (ToURI c) = Ok c.
Proof.
  destruct c as [sec per dig alg iss acc]. cbn [Secret Period Digits Algorithm Issuer Account].
  intros Hsec Hiss Hcolon Hacc -> Hs30 Hsr Hd6 Hdr Halg1 Halg0 _ Hup.
  destruct plain_key_literals as (Ka & Kd & Ki & Kp & Ks).
  (* what ToURI writes *)
  assert (Hperiod : (s * Second =? 30 * Second) = false).
  { apply Z.eqb_neq. unfold Second. lia. }
  assert (Huri : ToURI (mkConfig sec (s * Second) dig alg iss acc)
                 = ("otpauth://totp/" ++ url.PathEscape (iss ++ ":" ++ acc)
                      ++ "?" ++
                    (("algorithm" ++ String "=" (url.QueryEscape alg)) ++ String "&"
                     (("digits" ++ String "=" (url.QueryEscape (strconv_Itoa dig))) ++ String "&"
                      (("issuer" ++ String "=" (url.QueryEscape iss)) ++ String "&"
                       (("period" ++ String "=" (url.QueryEscape (strconv_Itoa s))) ++ String "&"
                        ("secret" ++ String "=" (url.QueryEscape sec)))))))%string).
  { unfold ToURI. cbn [Secret Period Digits Algorithm Issuer Account].
    rewrite (eqb_empty_false iss Hiss), (eqb_empty_false acc Hacc), Hperiod.
    rewrite (proj2 (Z.eqb_neq dig 6) Hd6).
    rewrite (proj2 (String.eqb_neq alg "SHA1") Halg1).
    cbn [negb andb]. rewrite Seconds_whole, Encode_all. reflexivity. }
  rewrite Huri. clear Huri.
  destruct (pair_no_amp "algorithm" alg Ka) as [Aa Sa].
  destruct (pair_no_amp "digits" (strconv_Itoa dig) Kd) as [Ad Sd].
  destruct (pair_no_amp "issuer" iss Ki) as [Ai Si].
  destruct (pair_no_amp "period" (strconv_Itoa s) Kp) as [Ap Sp].
  destruct (pair_no_amp "secret" sec Ks) as [As Ss].
  pose proof (parsePair_escaped "algorithm" alg Ka) as Pa.
  pose proof (parsePair_escaped "digits" (strconv_Itoa dig) Kd) as Pd.
  pose proof (parsePair_escaped "issuer" iss Ki) as Pi.
  pose proof (parsePair_escaped "period" (strconv_Itoa s) Kp) as Pp.
  pose proof (parsePair_escaped "secret" sec Ks) as Ps.
  remember ("algorithm" ++ String "=" (url.QueryEscape alg))%string as pa.
  remember ("digits" ++ String "=" (url.QueryEscape (strconv_Itoa dig)))%string
    as pd.
  remember ("issuer" ++ String "=" (url.QueryEscape iss))%string as pi.
  remember ("period" ++ String "=" (url.QueryEscape (strconv_Itoa s)))%string
    as pp.
  remember ("secret" ++ String "=" (url.QueryEscape sec))%string as ps.
  set (Q := (pa ++ String "&" (pd ++ String "&" (pi ++ String "&"
              (pp ++ String "&" ps))))%string).
  assert (HQ : string_all safe_path Q = true).
  { unfold Q. repeat (rewrite string_all_app; cbn [string_all]).
    rewrite Sa, Sd, Si, Sp, Ss. reflexivity. }
  assert (HQne : Q <> EmptyString).
  { unfold Q. rewrite Heqpa. discriminate. }
  (* the URL it parses into *)
  unfold ParseURI.
  rewrite (Parse_otpauth _ Q (PathEscape_safe _) HQ HQne).
  rewrite unescape_PathEscape. cbn [wrap bind].
  cbn [url.Scheme url.Host url.Path url.RawQuery].
  change (String.eqb "otpauth" "otpauth") with true.
  change (String.eqb "totp" "totp") with true.
  cbn [negb].
  (* its query *)
  assert (Hquery : url.Query (url.mkURL "otpauth" "" "totp"
                                (String "/" (iss ++ ":" ++ acc)) Q "")
                   = [("algorithm"%string, alg);
                      ("digits"%string, strconv_Itoa dig);
                      ("issuer"%string, iss);
                      ("period"%string, strconv_Itoa s);
                      ("secret"%string, sec)]).
  { unfold url.Query. cbn [url.RawQuery]. unfold Q.
    rewrite (split_app pa _ "&" Aa), (split_app pd _ "&" Ad),
      (split_app pi _ "&" Ai), (split_app pp _ "&" Ap),
      (split_none ps "&" As).
    cbn [flat_map]. rewrite Pa, Pd, Pi, Pp, Ps. reflexivity. }
  rewrite Hquery. clear Hquery.
  set (query := [("algorithm"%string, alg); ("digits"%string, strconv_Itoa dig);
                 ("issuer"%string, iss); ("period"%string, strconv_Itoa s);
                 ("secret"%string, sec)]).
  change (url.Get query "secret") with sec.
  change (url.Get query "issuer") with iss.
  change (url.Get query "period") with (strconv_Itoa s).
  change (url.Get query "digits") with (strconv_Itoa dig).
  change (url.Get query "algorithm") with alg.
  rewrite (eqb_empty_false sec Hsec), (eqb_empty_false iss Hiss).
  cbn [negb].
  (* the numbers *)
  assert (Hsrange : - 2 ^ 63 <= s < 2 ^ 63) by (unfold Second in Hsr; lia).
  assert (Hne : forall i, String.eqb (strconv_Itoa i) "" = false).
  { intro i. unfold strconv_Itoa.
    destruct (Z.ltb_spec i 0) as [|Hi]; [reflexivity|].
    destruct (utoa_head (Z.to_nat (Z.log2 i)) i Hi) as (c & rest & E & _).
    now rewrite E. }
  rewrite !Hne. cbn [negb].
  rewrite !Atoi_Itoa by assumption. cbn [wrap bind].
  cbn [Secret Period Digits Algorithm Issuer Account DefaultConfig].
  rewrite (eqb_empty_false alg Halg0). cbn [negb].
  rewrite Hup, int64_small by exact Hsr.
  (* the label *)
  change (TrimPrefix_slash (String "/" (iss ++ ":" ++ acc)))
    with (iss ++ String ":" acc)%string.
  assert (Hlabel : String.eqb (iss ++ String ":" acc) "" = false).
  { destruct iss; [contradiction | reflexivity]. }
  rewrite Hlabel. cbn [negb].
  rewrite Cut_app.
  2:{ rewrite Contains_differs in Hcolon.
      now apply negb_false_iff in Hcolon. }
  cbn [Issuer]. rewrite (eqb_empty_false iss Hiss). reflexivity.
Qed.

Lemma ParseURI_ToURI_roundtrip_witness :
  let c := mkConfig "GEZDGNBVGY3TQOJQ" (60 * Second) 8 "SHA256"
             "Acme Corp" "alice@example.com" in
  ParseURI (ToURI c) = Ok c.
Proof.
  apply (ParseURI_ToURI_roundtrip _ 60);
    first [ discriminate | reflexivity | unfold Second; cbn; lia ].
Defined.

(** C9, as stated, fails: every field of this configuration differs from its
    default, and the account that comes back is not the one that went in,
    because the label is cut at the colon inside the issuer. *)
Lemma ParseURI_ToURI_issuer_with_colon :
  let c := mkConfig "GEZDGNBVGY3TQOJQ" (60 * Second) 8 "SHA256"
             "Acme:Corp" "alice" in
  ToURI c
  = "otpauth://totp/Acme:Corp:alice?algorithm=SHA256&digits=8&issuer=Acme%3ACorp&period=60&secret=GEZDGNBVGY3TQOJQ"%string
  /\
  ParseURI (ToURI c)
  = Ok (mkConfig "GEZDGNBVGY3TQOJQ" (60 * Second) 8 "SHA256"
          "Acme:Corp" "Corp:alice")
  /\ ParseURI (ToURI c) <> Ok c.
Proof. vm_compute. repeat split; congruence. Qed.


(* ------------------------------------------------------------------ *)
(** ** The shape of a code and its time of expiry *)

Lemma utoa_length (fuel : nat) :
  forall n acc k,
    0 <= n < 10 ^ Z.of_nat (S k) ->
    (String.length (utoa fuel n acc) <= String.length acc + S k)%nat.
Proof.
  induction fuel as [|fuel IH]; intros n acc k Hn; cbn [utoa]; [lia|].
  destruct (Z.ltb_spec n 10) as [|Hge]; [cbn [String.length]; lia|].
  destruct k as [|k]; [cbn in Hn; lia|].
  eapply Nat.le_trans; [apply (IH _ _ k)|cbn [String.length]; lia].
  rewrite Nat2Z.inj_succ, Z.pow_succ_r in Hn by lia.
  split; [apply Z.div_pos; lia | apply Z.div_lt_upper_bound; lia].
Qed.

Lemma utoa_digits (fuel : nat) :
  forall n acc,
    0 <= n -> string_all is_digit acc = true ->
    string_all is_digit (utoa fuel n acc) = true.
Proof.
  induction fuel as [|fuel IH]; intros n acc Hn Hacc; cbn [utoa]; [exact Hacc|].
  pose proof (Z.mod_pos_bound n 10 ltac:(lia)) as Hm.
  destruct (digit_char (n mod 10) ltac:(lia)) as [Hd _].
  assert (Hacc' : string_all is_digit
                    (String (char_of (code "0" + n mod 10)) acc) = true)
    by (cbn [string_all]; now rewrite Hd).
  destruct (n <? 10); [exact Hacc'|].
  apply IH; [apply Z.div_pos; lia | exact Hacc'].
Qed.

Lemma zeros_format (n : nat) :
  String.length (string_of_list_ascii (repeat "0"%char n)) = n /\
  string_all is_digit (string_of_list_ascii (repeat "0"%char n)) = true.
Proof.
  induction n as [|n [IHl IHd]]; [split; reflexivity|].
  cbn [repeat string_of_list_ascii String.length string_all].
  rewrite IHl, IHd. split; reflexivity.
Qed.

(** [%0Nd] of a number below [10^N] is [N] decimal digits. *)
Lemma Sprintf_0d_format (N v : Z) :
  1 <= N -> 0 <= v < 10 ^ N ->
  String.length (Sprintf_0d N v) = Z.to_nat N /\
  string_all is_digit (Sprintf_0d N v) = true.
Proof.
  intros HN Hv. unfold Sprintf_0d, strconv_Itoa.
  destruct (Z.ltb_spec v 0); [lia|].
  set (s := utoa (S (Z.to_nat (Z.log2 v))) v "").
  assert (Hlen : (String.length s <= Z.to_nat N)%nat).
  { replace (Z.to_nat N) with (String.length "" + S (Z.to_nat (N - 1)))%nat
      by (cbn [String.length]; lia).
    apply utoa_length.
    rewrite Nat2Z.inj_succ, Z2Nat.id by lia.
    replace (Z.succ (N - 1)) with N by lia. exact Hv. }
  destruct (zeros_format (Z.to_nat (N - Z.of_nat (String.length s))))
    as [Hzl Hzd].
  rewrite string_length_append, string_all_app, Hzl, Hzd.
  split; [lia|]. apply utoa_digits; [lia | reflexivity].
Qed.

Lemma generateHOTP_format (c : Config) (secret : list byte) (n : Z)
  (code : string) :
  1 <= Digits c <= 9 ->
  generateHOTP c secret n = Ok code ->
  String.length code = Z.to_nat (Digits c) /\ string_all is_digit code = true.
Proof.
  intros Hd. unfold generateHOTP.
  destruct (Pow10_uint32_digits (Digits c) ltac:(lia)) as [Hpow Hnz].
  assert (Hpos : 0 < 10 ^ Digits c) by (apply Z.pow_pos_nonneg; lia).
  destruct (String.eqb (Algorithm c) "SHA1");
    [| destruct (String.eqb (Algorithm c) "SHA256");
       [| destruct (String.eqb (Algorithm c) "SHA512")]];
    cbn [bind]; try discriminate;
    unfold mod_uint32;
    (destruct (Z.eqb_spec (Pow10_uint32 (Digits c)) 0); [contradiction|]);
    cbn [bind]; intro E; injection E as <-;
    apply Sprintf_0d_format; try lia;
    rewrite Hpow; apply Z.mod_pos_bound; exact Hpos.
Qed.

(** What a successful [GenerateCodeAt] has computed. *)
Lemma GenerateCodeAt_Ok_inv (c : Config) (t : Time) (code : string)
  (expiresIn : Duration) :
  GenerateCodeAt c t = Ok (code, expiresIn) ->
  exists secret n,
    base32.DecodeString (strings_ToUpper (Secret c)) = Ok secret /\
    counter c t = Ok n /\
    generateHOTP c secret n = Ok code /\
    expiresIn
    = int64 (int64 (uint64 (uint64 ((n + 1) * uint64 (Seconds (Period c)))
                            - uint64 (Unix t))) * Second).
Proof.
  unfold GenerateCodeAt. fold (counter c t).
  destruct (base32.DecodeString _) as [secret|e|m]; cbn [wrap bind];
    try discriminate.
  destruct (counter c t) as [n|e|m]; cbn [bind]; try discriminate.
  destruct (generateHOTP c secret n) as [code'|e|m] eqn:Hg; cbn [bind];
    try discriminate.
  intro E. injection E as <- <-. exists secret, n. auto.
Qed.

Lemma generated_format (c : Config) (t : Time) (code : string) :
  1 <= Digits c <= 9 -> generated c t code ->
  String.length code = Z.to_nat (Digits c) /\ string_all is_digit code = true.
Proof.
  intros Hd [expiresIn H].
  destruct (GenerateCodeAt_Ok_inv _ _ _ _ H) as (secret & n & _ & _ & Hg & _).
  now apply (generateHOTP_format c secret n).
Qed.

(** X16. With 1 to 9 digits configured, a code that [GenerateCodeAt]
    returns has exactly that many characters, all of them decimal digits
    (leading zeros included). *)
Theorem GenerateCodeAt_code_format (c : Config) (t : Time) (code : string)
  (expiresIn : Duration) :
  1 <= Digits c <= 9 ->
  GenerateCodeAt c t = Ok (code, expiresIn) ->
  String.length code = Z.to_nat (Digits c) /\ string_all is_digit code = true.
Proof.
  intros Hd H.
  destruct (GenerateCodeAt_Ok_inv _ _ _ _ H) as (secret & n & _ & _ & Hg & _).
  now apply (generateHOTP_format c secret n).
Qed.

Lemma GenerateCodeAt_code_format_witness :
  String.length "287082" = Z.to_nat (Digits rfc6238) /\
  string_all is_digit "287082" = true.
Proof.
  apply (GenerateCodeAt_code_format rfc6238 (time_Unix 59 0) "287082"
           (1 * Second)).
  - vm_compute. split; congruence.
  - vm_compute. reflexivity.
Defined.

(** X17. [ValidateAt] never accepts a code of the wrong shape: with a
    period of whole seconds and 1 to 9 digits configured, a code that does
    not have exactly that many characters, or holds a character that is not
    a decimal digit, is refused at every time. *)
Theorem ValidateAt_refuses_malformed_code (c : Config) (code : string)
  (t : Time) (s : Z) :
  whole_seconds c s -> 1 <= Digits c <= 9 ->
  String.length code <> Z.to_nat (Digits c) \/
  string_all is_digit code = false ->
  ValidateAt c code t = Ok false.
Proof.
  intros Hs Hd Hbad.
  assert (Hno : forall t', code_is (GenerateCodeAt c t') code = Ok false).
  { intro t'.
    destruct (code_is_total (GenerateCodeAt c t') code) as [b Hb].
    { intro m. apply (GenerateCodeAt_no_panic c t' s); [exact Hs | lia]. }
    destruct b; [|exact Hb].
    apply code_is_true in Hb.
    destruct (generated_format c t' code Hd Hb) as [Hl Hdig].
    destruct Hbad as [Hbad|Hbad]; [contradiction | congruence]. }
  unfold ValidateAt. rewrite !Hno. reflexivity.
Qed.

Lemma ValidateAt_refuses_malformed_code_witness :
  ValidateAt rfc6238 "28708" (time_Unix 59 0) = Ok false.
Proof.
  apply (ValidateAt_refuses_malformed_code rfc6238 "28708" (time_Unix 59 0) 30).
  - repeat split; vm_compute; congruence.
  - vm_compute. split; congruence.
  - left. vm_compute. congruence.
Defined.

(** X18. The time until expiry that [GenerateCodeAt] returns is the time
    to the end of the window of [t]: with a period of [s] whole seconds and
    a time from the epoch on, it is [s - (Unix t mod s)] seconds, so between
    one second and the whole period; one second before that the counter is
    still the one of [t], and at that time it is the next one. *)
Theorem GenerateCodeAt_expiry (c : Config) (t : Time) (s : Z) (code : string)
  (expiresIn : Duration) :
  whole_seconds c s -> 0 <= sec t -> sec t + s < 2 ^ 63 ->
  GenerateCodeAt c t = Ok (code, expiresIn) ->
  expiresIn = (s - sec t mod s) * Second /\
  1 * Second <= expiresIn <= Period c /\
  counter c t = Ok (sec t / s) /\
  counter c {| sec := sec t + Seconds expiresIn - 1; nsec := nsec t |}
  = Ok (sec t / s) /\
  counter c {| sec := sec t + Seconds expiresIn; nsec := nsec t |}
  = Ok (sec t / s + 1).
Proof.
  intros Hs Ht Hhi H.
  destruct (GenerateCodeAt_Ok_inv _ _ _ _ H) as (secret & n & _ & Hn & _ & ->).
  clear H.
  pose proof Hs as (Hp & Hpos & Hb).
  destruct (whole_seconds_divisor c s Hs) as [Hdiv _].
  rewrite (counter_whole_seconds c t s Hs) in Hn. injection Hn as <-.
  rewrite !(counter_whole_seconds c _ s Hs).
  unfold Unix. cbn [sec]. rewrite Hdiv, (uint64_small (sec t)) by lia.
  pose proof (Z.div_mod (sec t) s ltac:(lia)) as Hdm.
  pose proof (Z.mod_pos_bound (sec t) s Hpos) as Hmod.
  assert (Hq : 0 <= sec t / s) by (apply Z.div_pos; lia).
  assert (Hnext : (sec t / s + 1) * s = sec t + (s - sec t mod s)) by lia.
  rewrite Hnext.
  rewrite (uint64_small (sec t + (s - sec t mod s))) by lia.
  replace (sec t + (s - sec t mod s) - sec t) with (s - sec t mod s) by lia.
  rewrite (uint64_small (s - sec t mod s)) by lia.
  rewrite (int64_small (s - sec t mod s)) by lia.
  rewrite (int64_small ((s - sec t mod s) * Second))
    by (unfold Second in *; lia).
  rewrite Seconds_whole.
  rewrite !uint64_small by lia.
  split; [reflexivity|].
  split; [rewrite Hp; unfold Second; lia|].
  split; [reflexivity|].
  split; f_equal.
  - replace (sec t + (s - sec t mod s) - 1)
      with ((s - 1 - sec t mod s) + (sec t / s) * s + sec t mod s) by lia.
    replace (s - 1 - sec t mod s + sec t / s * s + sec t mod s)
      with ((s - 1) + (sec t / s) * s) by lia.
    rewrite Z.div_add by lia. rewrite Z.div_small by lia. lia.
  - rewrite <- Hnext. apply Z.div_mul. lia.
Qed.

Lemma GenerateCodeAt_expiry_witness :
  let c := rfc6238 in
  let t := time_Unix 59 0 in
  1 * Second = (30 - sec t mod 30) * Second /\
  1 * Second <= 1 * Second <= Period c /\
  counter c t = Ok (sec t / 30) /\
  counter c {| sec := sec t + Seconds (1 * Second) - 1; nsec := nsec t |}
  = Ok (sec t / 30) /\
  counter c {| sec := sec t + Seconds (1 * Second); nsec := nsec t |}
  = Ok (sec t / 30 + 1).
Proof.
  apply (GenerateCodeAt_expiry rfc6238 (time_Unix 59 0) 30 "287082").
  - repeat split; vm_compute; congruence.
  - vm_compute. congruence.
  - vm_compute. reflexivity.
  - vm_compute. reflexivity.
Defined.

(** The code of a time is the HOTP code of its window. *)
Lemma generated_counter (c : Config) (t : Time) (s : Z) (code : string) :
  whole_seconds c s -> 0 <= sec t < 2 ^ 64 ->
  (generated c t code <->
   exists secret,
     base32.DecodeString (strings_ToUpper (Secret c)) = Ok secret /\
     generateHOTP c secret (sec t / s) = Ok code).
Proof.
  intros Hs Ht.
  assert (Hn : counter c t = Ok (sec t / s)).
  { rewrite (counter_whole_seconds c t s Hs). unfold Unix.
    now rewrite uint64_small by lia. }
  split.
  - intros [expiresIn H].
    destruct (GenerateCodeAt_Ok_inv _ _ _ _ H)
      as (secret & n & Hsec & Hn' & Hg & _).
    rewrite Hn in Hn'. injection Hn' as <-. eauto.
  - intros (secret & Hsec & Hg).
    unfold generated, GenerateCodeAt. rewrite Hsec. cbn [wrap bind].
    fold (counter c t). rewrite Hn. cbn [bind]. rewrite Hg. cbn [bind]. eauto.
Qed.

(** X19. The code depends on the time only through its window: with a
    period of [s] whole seconds, two times whose Unix seconds fall into the
    same window of [s] seconds have the same codes (the nanoseconds play no
    part). *)
Theorem GenerateCodeAt_same_window (c : Config) (t t' : Time) (s : Z)
  (code : string) :
  whole_seconds c s ->
  0 <= sec t < 2 ^ 64 -> 0 <= sec t' < 2 ^ 64 ->
  sec t / s = sec t' / s ->
  generated c t code -> generated c t' code.
Proof.
  intros Hs Ht Ht' Hw Hgen.
  apply (generated_counter c t s code Hs Ht) in Hgen.
  apply (generated_counter c t' s code Hs Ht').
  now rewrite <- Hw.
Qed.

(** [ValidateAt] accepts a code that one of its three checks generates. *)
Lemma ValidateAt_checks (c : Config) (code : string) (t : Time) (s : Z) :
  whole_seconds c s -> 0 <= Digits c <= 9 ->
  generated c t code \/
  generated c (Add t (int64 (- Period c))) code \/
  generated c (Add t (Period c)) code ->
  ValidateAt c code t = Ok true.
Proof.
  intros Hs Hd Hgen.
  assert (Hnp : forall t0, exists b, code_is (GenerateCodeAt c t0) code = Ok b).
  { intro t0. apply code_is_total. intro m.
    now apply (GenerateCodeAt_no_panic c t0 s). }
  unfold ValidateAt.
  destruct (Hnp t) as [b1 H1]. rewrite H1. cbn [bind].
  destruct b1; [reflexivity|].
  destruct (Hnp (Add t (int64 (- Period c)))) as [b2 H2].
  rewrite H2. cbn [bind]. destruct b2; [reflexivity|].
  destruct (Hnp (Add t (Period c))) as [b3 H3].
  rewrite H3. cbn [bind]. destruct b3; [reflexivity|].
  destruct Hgen as [H | [H | H]]; apply code_is_true in H; congruence.
Qed.

(** The times of the two other checks, and their windows. *)
Lemma adjacent_checks (c : Config) (t : Time) (s : Z) :
  whole_seconds c s -> 0 <= nsec t < Second ->
  Add t (int64 (- Period c)) = {| sec := sec t - s; nsec := nsec t |} /\
  Add t (Period c) = {| sec := sec t + s; nsec := nsec t |} /\
  (sec t - s) / s = sec t / s - 1 /\
  (sec t + s) / s = sec t / s + 1.
Proof.
  intros (Hp & Hpos & Hb) Hn.
  assert (Hneg : int64 (- Period c) = (- s) * Second).
  { rewrite Hp. unfold Second in *. rewrite int64_small by lia. lia. }
  rewrite Hneg, Hp, !Add_whole by exact Hn.
  split; [f_equal; lia|]. split; [reflexivity|]. split.
  - replace (sec t - s) with (sec t + (-1) * s) by lia.
    rewrite Z.div_add by lia. lia.
  - replace (sec t + s) with (sec t + 1 * s) by lia.
    rewrite Z.div_add by lia. lia.
Qed.

(** X20. [ValidateAt] accepts, at any time of a window, the codes of that
    window and of the two windows next to it: with a period of [s] whole
    seconds and up to nine digits, a code generated at [t] is accepted at
    every [t'] whose window is at most one away from the window of [t]. *)
Theorem ValidateAt_accepts_adjacent_windows (c : Config) (code : string)
  (t t' : Time) (s : Z) :
  whole_seconds c s -> 0 <= Digits c <= 9 ->
  0 <= nsec t' < Second ->
  0 <= sec t < 2 ^ 64 -> s <= sec t' -> sec t' + s < 2 ^ 64 ->
  sec t / s - 1 <= sec t' / s <= sec t / s + 1 ->
  generated c t code ->
  ValidateAt c code t' = Ok true.
Proof.
  intros Hs Hd Hn Ht Hlo Hhi Hw Hgen.
  pose proof Hs as (_ & Hpos & _).
  destruct (adjacent_checks c t' s Hs Hn) as (Hprev & Hnext & E1 & E2).
  apply (generated_counter c t s code Hs Ht) in Hgen.
  apply (ValidateAt_checks c code t' s Hs Hd).
  rewrite Hprev, Hnext.
  assert (Hcase : sec t / s = sec t' / s \/ sec t / s = sec t' / s - 1 \/
                  sec t / s = sec t' / s + 1) by lia.
  destruct Hcase as [Hc | [Hc | Hc]]; [left | right; left | right; right];
    apply (generated_counter c _ s code Hs); cbn [sec]; try lia;
    [rewrite <- Hc | rewrite E1, <- Hc | rewrite E2, <- Hc]; exact Hgen.
Qed.

Lemma ValidateAt_accepts_adjacent_windows_witness :
  ValidateAt rfc6238 "287082" (time_Unix 61 7) = Ok true.
Proof.
  apply (ValidateAt_accepts_adjacent_windows rfc6238 "287082" (time_Unix 59 0)
           (time_Unix 61 7) 30).
  - repeat split; vm_compute; congruence.
  - vm_compute. split; congruence.
  - vm_compute. split; congruence.
  - vm_compute. split; congruence.
  - vm_compute. congruence.
  - vm_compute. reflexivity.
  - vm_compute. split; congruence.
  - exists (1 * Second). vm_compute. reflexivity.
Defined.

Lemma GenerateCodeAt_same_window_witness :
  generated rfc6238 (time_Unix 31 5) "287082".
Proof.
  apply (GenerateCodeAt_same_window rfc6238 (time_Unix 59 0) (time_Unix 31 5)
           30 "287082").
  - repeat split; vm_compute; congruence.
  - vm_compute. split; congruence.
  - vm_compute. split; congruence.
  - reflexivity.
  - exists (1 * Second). vm_compute. reflexivity.
Defined.

(** X21. [GenerateCodeAt] takes the power of ten of the digit count as a
    divisor and nothing guards it: with a negative digit count, a secret
    that decodes, a supported algorithm and a period of whole seconds, the
    power is zero and the call panics with a division by zero. *)
Theorem GenerateCodeAt_negative_digits_panic (c : Config) (t : Time) (s : Z) :
  whole_seconds c s -> Digits c < 0 ->
  is_ok (base32.DecodeString (strings_ToUpper (Secret c))) = true ->
  Algorithm c = "SHA1"%string \/ Algorithm c = "SHA256"%string \/
  Algorithm c = "SHA512"%string ->
  GenerateCodeAt c t = Panic "runtime error: integer divide by zero".
Proof.
  intros Hs Hd Hsec Halg. unfold GenerateCodeAt.
  destruct (base32.DecodeString (strings_ToUpper (Secret c))) as [secret|e|m];
    try discriminate.
  cbn [wrap bind]. fold (counter c t).
  rewrite (counter_whole_seconds c t s Hs). cbn [bind].
  assert (Hp : Pow10_uint32 (Digits c) = 0).
  { unfold Pow10_uint32. destruct (Z.ltb_spec (Digits c) 0); [reflexivity|lia]. }
  unfold generateHOTP. rewrite Hp.
  destruct Halg as [-> | [-> | ->]]; reflexivity.
Qed.

Lemma GenerateCodeAt_negative_digits_panic_witness :
  GenerateCodeAt (mkConfig "GEZDGNBVGY3TQOJQ" (30 * Second) (-1) "SHA1" "" "x")
    (time_Unix 59 0)
  = Panic "runtime error: integer divide by zero".
Proof.
  apply (GenerateCodeAt_negative_digits_panic _ _ 30).
  - repeat split; vm_compute; congruence.
  - vm_compute. reflexivity.
  - vm_compute. reflexivity.
  - left. reflexivity.
Defined.

(* ------------------------------------------------------------------ *)
(** ** The secret in either case *)

Lemma ToUpper_ToLower (s : string) :
  strings_ToUpper (strings_ToLower s) = strings_ToUpper s.
Proof.
  unfold strings_ToUpper, strings_ToLower.
  induction s as [|x s IH]; [reflexivity|].
  cbn [string_map]. rewrite IH. f_equal.
  destruct x as [[] [] [] [] [] [] [] []]; reflexivity.
Qed.

Lemma ToUpper_ToUpper (s : string) :
  strings_ToUpper (strings_ToUpper s) = strings_ToUpper s.
Proof.
  unfold strings_ToUpper.
  induction s as [|x s IH]; [reflexivity|].
  cbn [string_map]. rewrite IH. f_equal.
  destruct x as [[] [] [] [] [] [] [] []]; reflexivity.
Qed.

(** [c] with another secret. *)
Definition with_secret (c : Config) (secret : string) : Config :=
  mkConfig secret (Period c) (Digits c) (Algorithm c) (Issuer c) (Account c).

(** X22. The case of the letters of the secret does not matter: for a
    secret of ASCII characters (the case mapping of other characters is not
    modelled), [GenerateCodeAt] returns for the secret in lower case and in
    upper case what it returns for the secret as given. *)
Theorem GenerateCodeAt_secret_case (c : Config) (t : Time) :
  string_all is_ascii (Secret c) = true ->
  GenerateCodeAt (with_secret c (strings_ToLower (Secret c))) t
  = GenerateCodeAt c t /\
  GenerateCodeAt (with_secret c (strings_ToUpper (Secret c))) t
  = GenerateCodeAt c t.
Proof.
  intros _. unfold GenerateCodeAt, with_secret, generateHOTP.
  cbn [Secret Period Digits Algorithm].
  rewrite ToUpper_ToLower, ToUpper_ToUpper. split; reflexivity.
Qed.

Lemma GenerateCodeAt_secret_case_witness :
  GenerateCodeAt
    (with_secret rfc6238 (strings_ToLower (Secret rfc6238))) (time_Unix 59 0)
  = GenerateCodeAt rfc6238 (time_Unix 59 0) /\
  GenerateCodeAt
    (with_secret rfc6238 (strings_ToUpper (Secret rfc6238))) (time_Unix 59 0)
  = GenerateCodeAt rfc6238 (time_Unix 59 0).
Proof.
  apply GenerateCodeAt_secret_case. vm_compute. reflexivity.
Defined.


(* ------------------------------------------------------------------ *)
(** ** Reading back any query that Encode writes *)

Definition plain_keys (v : url.Values) : Prop :=
  Forall (fun kv => plain_key (fst kv)) v.

Definition keys (v : url.Values) : list string := map fst v.

(** One pair as [Encode] writes it. *)
Definition encode_pair (kv : string * string) : string :=
  (url.QueryEscape (fst kv) ++ "=" ++ url.QueryEscape (snd kv))%string.

Lemma encode_pair_plain (k v : string) :
  plain_key k ->
  encode_pair (k, v) = (k ++ String "=" (url.QueryEscape v))%string.
Proof.
  intros [_ Hk]. unfold encode_pair, url.QueryEscape. cbn [fst snd].
  now rewrite (escape_alnum k _ Hk).
Qed.

Lemma join_cons (s : string) (l : list string) :
  l <> [] -> url.join "&" (s :: l) = (s ++ String "&" (url.join "&" l))%string.
Proof. destruct l; [contradiction | reflexivity]. Qed.

(** The pairs of a query written from [m] are read back as [m]. *)
Lemma Query_join (m : url.Values) :
  plain_keys m ->
  string_all safe_path (url.join "&" (map encode_pair m)) = true /\
  flat_map url.parsePair (url.split (url.join "&" (map encode_pair m)) "&") = m.
Proof.
  induction m as [|[k v] m IH]; intro H; [split; reflexivity|].
  apply Forall_cons_iff in H as [Hk Hm]. cbn [fst] in Hk.
  destruct (IH Hm) as [IHs IHq].
  destruct (pair_no_amp k v Hk) as [Hamp Hsafe].
  pose proof (parsePair_escaped k v Hk) as Hpair.
  cbn [map]. rewrite (encode_pair_plain k v Hk).
  destruct m as [|kv m].
  - cbn [map url.join]. split; [exact Hsafe|].
    rewrite (split_none _ "&" Hamp). cbn [flat_map].
    now rewrite Hpair.
  - rewrite join_cons by discriminate. split.
    + rewrite string_all_app. cbn [string_all]. now rewrite Hsafe, IHs.
    + rewrite (split_app _ _ "&" Hamp). cbn [flat_map].
      now rewrite Hpair, IHq.
Qed.

Lemma join_nonempty (m : url.Values) :
  plain_keys m -> m <> [] -> url.join "&" (map encode_pair m) <> EmptyString.
Proof.
  destruct m as [|[k v] m]; [contradiction|]. intros H _.
  apply Forall_cons_iff in H as [[Hk _] _]. cbn [fst] in Hk.
  cbn [map]. unfold encode_pair at 1. cbn [fst snd].
  destruct k as [|c k]; [contradiction|].
  destruct m.
  - cbn [map url.join]. unfold url.QueryEscape. cbn [url.escape].
    destruct (url.shouldEscape c _); [destruct (Ascii.eqb c " ")|];
      discriminate.
  - rewrite join_cons by discriminate.
    unfold url.QueryEscape. cbn [url.escape].
    destruct (url.shouldEscape c _); [destruct (Ascii.eqb c " ")|];
      discriminate.
Qed.

Lemma In_keys_insert_sorted (kv : string * string) (m : url.Values) (a : string) :
  In a (keys (url.insert_sorted kv m)) <-> a = fst kv \/ In a (keys m).
Proof.
  induction m as [|kv' m IH]; cbn [url.insert_sorted keys map In].
  - intuition.
  - destruct (String.leb (fst kv) (fst kv')); cbn [keys map In] in *;
      [intuition | rewrite IH; intuition].
Qed.

Lemma plain_keys_insert_sorted (kv : string * string) (m : url.Values) :
  plain_key (fst kv) -> plain_keys m -> plain_keys (url.insert_sorted kv m).
Proof.
  unfold plain_keys.
  intros Hk. induction m as [|kv' m IH]; intro Hm; cbn [url.insert_sorted].
  - now constructor.
  - destruct (String.leb (fst kv) (fst kv')); [now constructor|].
    apply Forall_cons_iff in Hm as [H1 H2]. constructor; auto.
Qed.

Definition sorted (v : url.Values) : url.Values :=
  fold_right url.insert_sorted [] v.

Lemma In_keys_sorted (v : url.Values) (a : string) :
  In a (keys (sorted v)) <-> In a (keys v).
Proof.
  induction v as [|kv v IH]; [reflexivity|].
  cbn [sorted fold_right]. fold (sorted v).
  rewrite In_keys_insert_sorted, IH. cbn [keys map In]. intuition.
Qed.

Lemma plain_keys_sorted (v : url.Values) : plain_keys v -> plain_keys (sorted v).
Proof.
  induction v as [|kv v IH]; intro H; [constructor|].
  apply Forall_cons_iff in H as [H1 H2].
  cbn [sorted fold_right]. apply plain_keys_insert_sorted; auto.
Qed.

Lemma sorted_nonempty (v : url.Values) : v <> [] -> sorted v <> [].
Proof.
  destruct v as [|kv v]; [contradiction|]. intros _ E.
  assert (H : In (fst kv) (keys (sorted (kv :: v)))).
  { apply In_keys_sorted. now left. }
  rewrite E in H. contradiction.
Qed.

Lemma Get_absent (v : url.Values) (k : string) :
  ~ In k (keys v) -> url.Get v k = EmptyString.
Proof.
  induction v as [|[k' x] v IH]; intro H; [reflexivity|].
  cbn [url.Get]. cbn [keys map In fst] in H.
  destruct (String.eqb_spec k' k); [intuition|]. apply IH. intuition.
Qed.

Lemma Get_insert_sorted (kv : string * string) (m : url.Values) (k : string) :
  ~ In (fst kv) (keys m) ->
  url.Get (url.insert_sorted kv m) k
  = if String.eqb (fst kv) k then snd kv else url.Get m k.
Proof.
  destruct kv as [k0 x0]. cbn [fst snd].
  induction m as [|[k' x'] m IH]; intro H; cbn [url.insert_sorted fst].
  - reflexivity.
  - cbn [keys map In fst] in H.
    destruct (String.leb k0 k'); [reflexivity|].
    cbn [url.Get]. rewrite IH by intuition.
    destruct (String.eqb_spec k' k) as [->|]; [|reflexivity].
    destruct (String.eqb_spec k0 k) as [->|]; [intuition | reflexivity].
Qed.

(** Sorting the pairs does not change what [Get] finds, the keys being
    distinct. *)
Lemma Get_sorted (v : url.Values) (k : string) :
  NoDup (keys v) -> url.Get (sorted v) k = url.Get v k.
Proof.
  induction v as [|[k0 x0] v IH]; intro H; [reflexivity|].
  cbn [keys map fst] in H. apply NoDup_cons_iff in H as [Hk Hv].
  cbn [sorted fold_right]. fold (sorted v).
  rewrite Get_insert_sorted by (cbn [fst]; now rewrite In_keys_sorted).
  cbn [fst snd url.Get]. now rewrite IH.
Qed.

Lemma In_keys_Set (v : url.Values) (k x a : string) :
  In a (keys (url.Set_ v k x)) <-> a = k \/ In a (keys v).
Proof.
  induction v as [|[k' x'] v IH]; cbn [url.Set_ keys map In fst].
  - intuition.
  - destruct (String.eqb_spec k' k) as [->|]; cbn [keys map In fst] in *;
      [intuition | rewrite IH; intuition].
Qed.

Lemma NoDup_keys_Set (v : url.Values) (k x : string) :
  NoDup (keys v) -> NoDup (keys (url.Set_ v k x)).
Proof.
  induction v as [|[k' x'] v IH]; intro H; cbn [url.Set_].
  - repeat constructor. intros [].
  - cbn [keys map fst] in H. apply NoDup_cons_iff in H as [Hk Hv].
    destruct (String.eqb_spec k' k) as [->|Hne]; cbn [keys map fst].
    + now constructor.
    + constructor; [|now apply IH].
      rewrite In_keys_Set. intuition.
Qed.

Lemma plain_keys_Set (v : url.Values) (k x : string) :
  plain_key k -> plain_keys v -> plain_keys (url.Set_ v k x).
Proof.
  unfold plain_keys.
  intro Hk. induction v as [|[k' x'] v IH]; intro H; cbn [url.Set_].
  - constructor; [exact Hk | constructor].
  - apply Forall_cons_iff in H as [H1 H2].
    destruct (String.eqb k' k); constructor; auto.
Qed.

Lemma Get_Set_same (v : url.Values) (k x : string) :
  url.Get (url.Set_ v k x) k = x.
Proof.
  induction v as [|[k' x'] v IH]; cbn [url.Set_ url.Get].
  - now rewrite String.eqb_refl.
  - destruct (String.eqb k' k) eqn:E; cbn [url.Get]; now rewrite E.
Qed.

Lemma Get_Set_other (v : url.Values) (k x k' : string) :
  k <> k' -> url.Get (url.Set_ v k x) k' = url.Get v k'.
Proof.
  intro Hne. induction v as [|[k0 x0] v IH]; cbn [url.Set_ url.Get].
  - destruct (String.eqb_spec k k'); [contradiction | reflexivity].
  - destruct (String.eqb_spec k0 k) as [->|]; cbn [url.Get].
    + destruct (String.eqb_spec k k'); [contradiction | reflexivity].
    + now rewrite IH.
Qed.

(** The pairs [ToURI] sets when their condition holds. *)
Lemma Get_optional_same (b : bool) (v : url.Values) (k x : string) :
  ~ In k (keys v) ->
  url.Get (if b then url.Set_ v k x else v) k = if b then x else EmptyString.
Proof.
  intro H. destruct b; [apply Get_Set_same | now apply Get_absent].
Qed.

Lemma Get_optional_other (b : bool) (v : url.Values) (k x k' : string) :
  k <> k' -> url.Get (if b then url.Set_ v k x else v) k' = url.Get v k'.
Proof. intro H. destruct b; [now apply Get_Set_other | reflexivity]. Qed.

Lemma In_keys_optional (b : bool) (v : url.Values) (k x a : string) :
  In a (keys (if b then url.Set_ v k x else v)) -> a = k \/ In a (keys v).
Proof. destruct b; [apply In_keys_Set | auto]. Qed.

Lemma NoDup_keys_optional (b : bool) (v : url.Values) (k x : string) :
  NoDup (keys v) -> NoDup (keys (if b then url.Set_ v k x else v)).
Proof. destruct b; [apply NoDup_keys_Set | auto]. Qed.

Lemma plain_keys_optional (b : bool) (v : url.Values) (k x : string) :
  plain_key k -> plain_keys v -> plain_keys (if b then url.Set_ v k x else v).
Proof. destruct b; [apply plain_keys_Set | auto]. Qed.

(** [url.Parse] and [Query] on a URI written from a label and pairs with
    plain keys. *)
Lemma Parse_written (label : string) (v : url.Values) :
  plain_keys v -> v <> [] ->
  exists u,
    url.Parse ("otpauth://totp/" ++ url.PathEscape label ++ "?" ++ url.Encode v)
    = Ok u /\
    url.Scheme u = "otpauth"%string /\ url.Host u = "totp"%string /\
    url.Path u = String "/" label /\ url.Query u = sorted v.
Proof.
  intros Hp Hne.
  assert (Henc : url.Encode v = url.join "&" (map encode_pair (sorted v)))
    by reflexivity.
  destruct (Query_join (sorted v) (plain_keys_sorted v Hp)) as [Hsafe Hq].
  pose proof (join_nonempty (sorted v) (plain_keys_sorted v Hp)
                (sorted_nonempty v Hne)) as Hnonempty.
  rewrite Henc.
  rewrite (Parse_otpauth _ _ (PathEscape_safe label) Hsafe Hnonempty).
  rewrite unescape_PathEscape. cbn [wrap bind].
  eexists. split; [reflexivity|]. repeat split.
  unfold url.Query. cbn [url.RawQuery]. exact Hq.
Qed.


(* ------------------------------------------------------------------ *)
(** ** The otpauth URI with parameters at their defaults *)

(** [c] with another account. *)
Definition with_account (c : Config) (account : string) : Config :=
  mkConfig (Secret c) (Period c) (Digits c) (Algorithm c) (Issuer c) account.

Lemma Itoa_nonempty (i : Z) : String.eqb (strconv_Itoa i) "" = false.
Proof.
  unfold strconv_Itoa.
  destruct (Z.ltb_spec i 0) as [|Hi]; [reflexivity|].
  destruct (utoa_head (Z.to_nat (Z.log2 i)) i Hi) as (c & rest & E & _).
  now rewrite E.
Qed.

Lemma eqb_optional (x : string) :
  String.eqb (if negb (String.eqb x "") then x else EmptyString) ""
  = String.eqb x "".
Proof. destruct (String.eqb x "") eqn:E; [reflexivity | exact E]. Qed.

Lemma eqb_optional_nonempty (b : bool) (x : string) :
  String.eqb x "" = false ->
  String.eqb (if negb b then x else EmptyString) "" = b.
Proof. intro H. destruct b; [reflexivity | exact H]. Qed.

Lemma Get_nonempty (v : url.Values) (k : string) :
  url.Get v k <> EmptyString -> v <> [].
Proof. intros H ->. now apply H. Qed.

(** X23. Parsing the URI that [ToURI] writes gives the configuration back
    also when parameters are at their defaults (30 seconds, 6 digits, SHA1:
    [ToURI] leaves them out and [ParseURI] fills them in) and when the issuer
    or the account is missing, with one exception: an issuer without an
    account comes back as the account as well, because the label then holds
    the issuer alone.  The secret is not empty, the issuer holds no colon
    (nor does the account when there is no issuer), the period is a whole
    number of seconds and the algorithm name is not empty, of ASCII
    characters and without lower-case letters. *)
Theorem ParseURI_ToURI_with_defaults (c : Config) (s : Z) :
  Secret c <> EmptyString ->
  url.Contains (Issuer c) ":" = false ->
  (Issuer c = EmptyString -> url.Contains (Account c) ":" = false) ->
  Period c = s * Second -> - 2 ^ 63 <= s * Second < 2 ^ 63 ->
  - 2 ^ 63 <= Digits c < 2 ^ 63 ->
  Algorithm c <> EmptyString ->
  string_all is_ascii (Algorithm c) = true ->
  strings_ToUpper (Algorithm c) = Algorithm c ->
  ParseURI (ToURI c)
  = Ok (if negb (String.eqb (Issuer c) "") && String.eqb (Account c) ""
        then with_account c (Issuer c) else c).
Proof.
  destruct c as [sec per dig alg iss acc]. unfold with_account.
  cbn [Secret Period Digits Algorithm Issuer Account].
  intros Hsec Hicolon Hacolon -> Hsr Hdr Halg0 _ Hup.
  destruct plain_key_literals as (Ka & Kd & Ki & Kp & Ks).
  (* what ToURI writes *)
  set (v0 := url.Set_ [] "secret" sec).
  set (v1 := if negb (String.eqb iss "") then url.Set_ v0 "issuer" iss else v0).
  set (v2 := if negb (s * Second =? 30 * Second)
             then url.Set_ v1 "period" (strconv_Itoa (Seconds (s * Second)))
             else v1).
  set (v3 := if negb (dig =? 6) then url.Set_ v2 "digits" (strconv_Itoa dig)
             else v2).
  set (v4 := if negb (String.eqb alg "SHA1") then url.Set_ v3 "algorithm" alg
             else v3).
  set (label := if negb (String.eqb iss "") && negb (String.eqb acc "")
                then (iss ++ ":" ++ acc)%string
                else if negb (String.eqb iss "") then iss else acc).
  assert (Huri : ToURI (mkConfig sec (s * Second) dig alg iss acc)
                 = ("otpauth://totp/" ++ url.PathEscape label ++ "?"
                      ++ url.Encode v4)%string) by reflexivity.
  (* its keys *)
  assert (P4 : plain_keys v4).
  { repeat apply plain_keys_optional; try assumption.
    apply plain_keys_Set; [assumption | constructor]. }
  assert (N4 : NoDup (keys v4)).
  { repeat apply NoDup_keys_optional. apply NoDup_keys_Set. constructor. }
  assert (I0 : forall a, In a (keys v0) -> a = "secret"%string).
  { intros a [<-|[]]. reflexivity. }
  assert (I1 : forall a, In a (keys v1) ->
                         a = "issuer"%string \/ a = "secret"%string).
  { intros a H. apply In_keys_optional in H as [H|H]; auto. }
  assert (I2 : forall a, In a (keys v2) ->
                         a = "period"%string \/ a = "issuer"%string \/
                         a = "secret"%string).
  { intros a H. apply In_keys_optional in H as [H|H]; auto. }
  assert (I3 : forall a, In a (keys v3) ->
                         a = "digits"%string \/ a = "period"%string \/
                         a = "issuer"%string \/ a = "secret"%string).
  { intros a H. apply In_keys_optional in H as [H|H]; auto. }
  (* its values *)
  assert (Gsec : url.Get v4 "secret" = sec).
  { unfold v4, v3, v2, v1.
    rewrite !Get_optional_other by discriminate. apply Get_Set_same. }
  assert (Giss : url.Get v4 "issuer"
                 = if negb (String.eqb iss "") then iss else EmptyString).
  { unfold v4, v3, v2.
    rewrite !Get_optional_other by discriminate.
    apply Get_optional_same. intro H. apply I0 in H. discriminate. }
  assert (Gper : url.Get v4 "period"
                 = if negb (s * Second =? 30 * Second)
                   then strconv_Itoa (Seconds (s * Second)) else EmptyString).
  { unfold v4, v3.
    rewrite !Get_optional_other by discriminate.
    apply Get_optional_same. intro H. apply I1 in H as [H|H]; discriminate. }
  assert (Gdig : url.Get v4 "digits"
                 = if negb (dig =? 6) then strconv_Itoa dig else EmptyString).
  { unfold v4.
    rewrite !Get_optional_other by discriminate.
    apply Get_optional_same. intro H.
    apply I2 in H as [H|[H|H]]; discriminate. }
  assert (Galg : url.Get v4 "algorithm"
                 = if negb (String.eqb alg "SHA1") then alg else EmptyString).
  { apply Get_optional_same. intro H.
    apply I3 in H as [H|[H|[H|H]]]; discriminate. }
  assert (Hne : v4 <> []).
  { apply (Get_nonempty v4 "secret"). now rewrite Gsec. }
  (* the URL it parses into *)
  destruct (Parse_written label v4 P4 Hne) as (u & HP & Hs & Hh & Hpath & Hq).
  rewrite Huri. unfold ParseURI. rewrite HP. cbn [wrap bind].
  rewrite Hs, Hh, Hq, Hpath.
  change (String.eqb "otpauth" "otpauth") with true.
  change (String.eqb "totp" "totp") with true.
  cbn [negb].
  rewrite !(Get_sorted v4 _ N4), Gsec, Giss, Gper, Gdig, Galg.
  rewrite (eqb_empty_false sec Hsec).
  change (TrimPrefix_slash (String "/" label)) with label.
  clear Huri HP Hs Hh Hq Hpath Gsec Giss Gper Gdig Galg.
  clear v0 v1 v2 v3 v4 P4 N4 I0 I1 I2 I3 Hne u.
  rewrite (eqb_optional iss).
  rewrite (eqb_optional_nonempty _ alg (eqb_empty_false alg Halg0)).
  rewrite !(eqb_optional_nonempty _ _ (Itoa_nonempty _)).
  assert (Hlabel :
            forall cfg : Config,
              Issuer cfg = iss ->
              (if negb (String.eqb label "") then
                 match url.Cut label ":" with
                 | (part0, part1, true) =>
                     Ok (mkConfig (Secret cfg) (Period cfg) (Digits cfg)
                           (Algorithm cfg)
                           (if String.eqb (Issuer cfg) "" then part0
                            else Issuer cfg) part1)
                 | (part0, _, false) =>
                     Ok (mkConfig (Secret cfg) (Period cfg) (Digits cfg)
                           (Algorithm cfg) (Issuer cfg) part0)
                 end
               else Ok cfg)
              = Ok (mkConfig (Secret cfg) (Period cfg) (Digits cfg)
                      (Algorithm cfg) iss
                      (if negb (String.eqb iss "") && String.eqb acc ""
                       then iss else
                         if String.eqb acc "" then Account cfg else acc))).
  { intros cfg Hcfg. rewrite Hcfg. unfold label.
    rewrite Contains_differs in Hicolon. apply negb_false_iff in Hicolon.
    destruct (String.eqb_spec iss "") as [Ei|Ei];
      destruct (String.eqb_spec acc "") as [Ec|Ec]; cbn [negb andb].
    - subst. destruct cfg. cbn in *. now subst.
    - rewrite (eqb_empty_false acc Ec). cbn [negb].
      specialize (Hacolon Ei). rewrite Contains_differs in Hacolon.
      apply negb_false_iff in Hacolon.
      rewrite (Cut_none acc ":" Hacolon). now subst.
    - rewrite (eqb_empty_false iss Ei). cbn [negb].
      now rewrite (Cut_none iss ":" Hicolon).
    - assert (E : String.eqb (iss ++ ":" ++ acc) "" = false)
        by (destruct iss; [contradiction | reflexivity]).
      rewrite E. cbn [negb].
      change (iss ++ ":" ++ acc)%string with (iss ++ String ":" acc)%string.
      rewrite (Cut_app iss acc ":" Hicolon).
      reflexivity. }
  clearbody label.
  assert (Hsrange : - 2 ^ 63 <= s < 2 ^ 63) by (unfold Second in Hsr; lia).
  destruct (String.eqb_spec iss "") as [Ei|Ei];
    destruct (Z.eqb_spec (s * Second) (30 * Second)) as [Ep|Ep];
    destruct (Z.eqb_spec dig 6) as [Ed|Ed];
    destruct (String.eqb_spec alg "SHA1") as [Ea|Ea];
    cbn [negb andb wrap bind];
    rewrite ?Seconds_whole, ?Atoi_Itoa by assumption;
    cbn [wrap bind];
    (rewrite Hlabel
      by (cbn [Issuer DefaultConfig];
          first [reflexivity | symmetry; assumption]));
    cbn [DefaultConfig Secret Period Digits Algorithm Issuer Account];
    rewrite ?Hup, ?int64_small by assumption;
    rewrite ?Ep; subst;
    destruct (String.eqb_spec acc ""); subst; reflexivity.
Qed.

Lemma ParseURI_ToURI_with_defaults_witness :
  let c := mkConfig "GEZDGNBVGY3TQOJQ" (30 * Second) 6 "SHA1" "" "alice" in
  ParseURI (ToURI c)
  = Ok (if negb (String.eqb (Issuer c) "") && String.eqb (Account c) ""
        then with_account c (Issuer c) else c).
Proof.
  apply (ParseURI_ToURI_with_defaults _ 30);
    first [ discriminate | reflexivity | unfold Second; cbn; lia ].
Defined.

(* ------------------------------------------------------------------ *)
(** ** The current time *)

(** [GenerateCode] generates the current TOTP code; [now] is what
    [time.Now()] returns. *)
Definition GenerateCode (c : Config) (now : Time) : result (string * Duration) :=
  GenerateCodeAt c now.

(** [Validate] checks if a code is valid for the current time window. *)
Definition Validate (c : Config) (code : string) (now : Time) : result bool :=
  ValidateAt c code now.

End totp.


(* ================================================================== *)
(** * Package service: TOTPService *)

Module TOTPService.

(** [GenerateCode] generates a TOTP code from a secret. *)
Definition GenerateCode (secret : string) (now : totp.Time)
  : result (string * totp.Duration) :=
  let config := totp.DefaultConfig secret in
  totp.GenerateCode config now.

(** [ValidateCode] validates a TOTP code. *)
Definition ValidateCode (secret code : string) (now : totp.Time) : result bool :=
  let config := totp.DefaultConfig secret in
  totp.Validate config code now.

(** [ParseURI] parses an otpauth:// URI. *)
Definition ParseURI (uri : string) : result totp.Config := totp.ParseURI uri.

(** [GenerateURI] generates an otpauth:// URI. *)
Definition GenerateURI (issuer accountName secret : string) : string :=
  let config := totp.DefaultConfig secret in
  totp.ToURI config.

(** X24. [GenerateURI] does not use the issuer and the account name it is
    given: the URI it returns holds the secret and nothing else, and
    parsing it gives the default configuration of the secret, with an empty
    issuer and an empty account. *)
Theorem GenerateURI_drops_issuer_and_account
  (issuer accountName secret : string) :
  GenerateURI issuer accountName secret
  = ("otpauth://totp/?secret=" ++ url.QueryEscape secret)%string /\
  (secret <> EmptyString ->
   ParseURI (GenerateURI issuer accountName secret)
   = Ok (totp.mkConfig secret (30 * totp.Second) 6 "SHA1" "" "")).
Proof.
  split; [reflexivity|]. intro Hsec.
  assert (Hp : totp.plain_keys [("secret"%string, secret)]).
  { constructor; [|constructor]. split; [discriminate | reflexivity]. }
  destruct (totp.Parse_written "" [("secret"%string, secret)] Hp
              ltac:(discriminate)) as (u & HP & Hs & Hh & Hpath & Hq).
  unfold ParseURI, GenerateURI, totp.ParseURI.
  change (totp.ToURI (totp.DefaultConfig secret))
    with ("otpauth://totp/" ++ url.PathEscape "" ++ "?"
            ++ url.Encode [("secret"%string, secret)])%string.
  rewrite HP. cbn [wrap bind]. rewrite Hs, Hh, Hq, Hpath.
  change (totp.sorted [("secret"%string, secret)])
    with [("secret"%string, secret)].
  change (url.Get [("secret"%string, secret)] "secret") with secret.
  change (url.Get [("secret"%string, secret)] "issuer") with EmptyString.
  change (url.Get [("secret"%string, secret)] "period") with EmptyString.
  change (url.Get [("secret"%string, secret)] "digits") with EmptyString.
  change (url.Get [("secret"%string, secret)] "algorithm") with EmptyString.
  rewrite (totp.eqb_empty_false secret Hsec). reflexivity.
Qed.

(** X25. A code stays valid for 30 seconds either way: the code that
    [GenerateCode] returns for a secret at one time is accepted by
    [ValidateCode] for that secret at every time at most 30 seconds earlier
    or later (Unix times from 30 on). *)
Theorem ValidateCode_accepts_GenerateCode (secret code : string)
  (expiresIn : totp.Duration) (now later : totp.Time) :
  GenerateCode secret now = Ok (code, expiresIn) ->
  0 <= totp.nsec later < totp.Second ->
  0 <= totp.sec now < 2 ^ 63 -> 30 <= totp.sec later < 2 ^ 63 ->
  - 30 <= totp.sec later - totp.sec now <= 30 ->
  ValidateCode secret code later = Ok true.
Proof.
  intros Hgen Hn Hnow Hlater Hdiff.
  set (c := totp.DefaultConfig secret).
  assert (Hs : totp.whole_seconds c 30)
    by (repeat split; vm_compute; congruence).
  assert (Hd : 0 <= totp.Digits c <= 9) by (cbn; lia).
  destruct (totp.adjacent_checks c later 30 Hs Hn) as (Hprev & Hnext & E1 & E2).
  assert (Hg : totp.generated c now code) by (now exists expiresIn).
  apply (totp.generated_counter c now 30 code Hs ltac:(lia)) in Hg.
  unfold ValidateCode, totp.Validate. fold c.
  apply (totp.ValidateAt_checks c code later 30 Hs Hd).
  rewrite Hprev, Hnext.
  pose proof (Z.div_mod (totp.sec now) 30 ltac:(lia)).
  pose proof (Z.mod_pos_bound (totp.sec now) 30 ltac:(lia)).
  pose proof (Z.div_mod (totp.sec later) 30 ltac:(lia)).
  pose proof (Z.mod_pos_bound (totp.sec later) 30 ltac:(lia)).
  assert (Hcase : totp.sec now / 30 = totp.sec later / 30 \/
                  totp.sec now / 30 = totp.sec later / 30 - 1 \/
                  totp.sec now / 30 = totp.sec later / 30 + 1) by lia.
  destruct Hcase as [Hc | [Hc | Hc]]; [left | right; left | right; right];
    apply (totp.generated_counter c _ 30 code Hs); cbn [totp.sec]; try lia;
    [rewrite <- Hc | rewrite E1, <- Hc | rewrite E2, <- Hc]; exact Hg.
Qed.

Lemma ValidateCode_accepts_GenerateCode_witness :
  ValidateCode "GEZDGNBVGY3TQOJQGEZDGNBVGY3TQOJQ" "287082" (totp.time_Unix 89 0)
  = Ok true.
Proof.
  apply (ValidateCode_accepts_GenerateCode _ "287082" (1 * totp.Second)
           (totp.time_Unix 59 0));
    vm_compute; first [reflexivity | split; congruence].
Defined.

End TOTPService.


(* ================================================================== *)
(** * Package entity: entries, folders and the vault

    A [*Entry] or a [*Folder] is an [option]: [None] is the nil pointer,
    and reading a field through it panics.  [time.Now()] is passed in as
    [now]. *)

Module entity.

Definition Time : Type := totp.Time.

Definition nil_dereference {A} : result A :=
  Panic "runtime error: invalid memory address or nil pointer dereference".

(** The type of a vault entry: an [int]. *)
Definition EntryType : Type := Z.
Definition EntryTypeLogin : EntryType := 0.
Definition EntryTypeSecureNote : EntryType := 1.
Definition EntryTypeCard : EntryType := 2.
Definition EntryTypeIdentity : EntryType := 3.

(** [String] returns the string representation of the entry type. *)
Definition EntryType_String (et : EntryType) : string :=
  if et =? EntryTypeLogin then "Login"
  else if et =? EntryTypeSecureNote then "Secure Note"
  else if et =? EntryTypeCard then "Card"
  else if et =? EntryTypeIdentity then "Identity"
  else "Unknown".

(** A vault entry with credentials and metadata. *)
Record Entry : Type := mkEntry {
  ID : string;
  Type_ : EntryType;
  Name : string;
  Username : string;
  Password : string;
  URI : string;
  Notes : string;
  TOTPSecret : string;
  CustomFields : list (string * string);
  FolderID : string;
  IsFavorite : bool;
  Tags : list string;
  CreatedAt : Time;
  UpdatedAt : Time;
  AccessedAt : Time
}.

(** An organizational folder for entries. *)
Record Folder : Type := mkFolder {
  folder_ID : string;
  folder_Name : string;
  ParentID : string;
  folder_CreatedAt : Time
}.

(** [IsRoot] returns true if the folder is a root folder (no parent). *)
Definition IsRoot (f : Folder) : bool := String.eqb (ParentID f) "".

(** Vault-specific settings. *)
Record Settings : Type := mkSettings {
  AutoLockTimeout : Z;        (* minutes *)
  ClipboardTimeout : Z;       (* seconds *)
  PasswordGenLength : Z;
  PasswordGenUpper : bool;
  PasswordGenLower : bool;
  PasswordGenNumbers : bool;
  PasswordGenSymbols : bool
}.

(** The entire encrypted vault. *)
Record Vault : Type := mkVault {
  Version : string;
  Entries : list (option Entry);
  Folders : list (option Folder);
  settings : Settings;
  vault_CreatedAt : Time;
  vault_UpdatedAt : Time
}.

(** [DefaultSettings] returns the default vault settings. *)
Definition DefaultSettings : Settings :=
  {| AutoLockTimeout := 5;
     ClipboardTimeout := 30;
     PasswordGenLength := 16;
     PasswordGenUpper := true;
     PasswordGenLower := true;
     PasswordGenNumbers := true;
     PasswordGenSymbols := true |}.

(** [NewVault] creates a new vault with default settings. *)
Definition NewVault (now : Time) : Vault :=
  {| Version := "1.0";
     Entries := [];
     Folders := [];
     settings := DefaultSettings;
     vault_CreatedAt := now;
     vault_UpdatedAt := now |}.

Section ByID.

Context {A : Type} (id_of : A -> string).

(** [for _, x := range xs { if x.ID == id { return x } }; return nil]. *)
Fixpoint find (id : string) (xs : list (option A)) : result (option A) :=
  match xs with
  | [] => Ok None
  | None :: _ => nil_dereference
  | Some x :: xs' => if String.eqb (id_of x) id then Ok (Some x) else find id xs'
  end.

(** [for i, x := range xs { if x.ID == id { ... } }]: the index the loop
    stops at, counted from [i]. *)
Fixpoint index (id : string) (xs : list (option A)) (i : nat)
  : result (option nat) :=
  match xs with
  | [] => Ok None
  | None :: _ => nil_dereference
  | Some x :: xs' =>
      if String.eqb (id_of x) id then Ok (Some i) else index id xs' (S i)
  end.

(** [append(xs[:i], xs[i+1:]...)]. *)
Definition remove_at (i : nat) (xs : list (option A)) : list (option A) :=
  firstn i xs ++ skipn (S i) xs.

End ByID.

(** [AddEntry] adds an entry to the vault. *)
Definition AddEntry (v : Vault) (entry : option Entry) (now : Time) : Vault :=
  {| Version := Version v;
     Entries := Entries v ++ [entry];
     Folders := Folders v;
     settings := settings v;
     vault_CreatedAt := vault_CreatedAt v;
     vault_UpdatedAt := now |}.

(** [RemoveEntry] removes an entry from the vault by ID. *)
Definition RemoveEntry (v : Vault) (id : string) (now : Time)
  : result (bool * Vault) :=
  bind (index ID id (Entries v) 0) (fun found =>
  match found with
  | Some i =>
      Ok (true, {| Version := Version v;
                   Entries := remove_at i (Entries v);
                   Folders := Folders v;
                   settings := settings v;
                   vault_CreatedAt := vault_CreatedAt v;
                   vault_UpdatedAt := now |})
  | None => Ok (false, v)
  end).

(** [FindEntry] finds an entry by ID. *)
Definition FindEntry (v : Vault) (id : string) : result (option Entry) :=
  find ID id (Entries v).

(** [AddFolder] adds a folder to the vault. *)
Definition AddFolder (v : Vault) (folder : option Folder) (now : Time) : Vault :=
  {| Version := Version v;
     Entries := Entries v;
     Folders := Folders v ++ [folder];
     settings := settings v;
     vault_CreatedAt := vault_CreatedAt v;
     vault_UpdatedAt := now |}.

(** [RemoveFolder] removes a folder from the vault by ID. *)
Definition RemoveFolder (v : Vault) (id : string) (now : Time)
  : result (bool * Vault) :=
  bind (index folder_ID id (Folders v) 0) (fun found =>
  match found with
  | Some i =>
      Ok (true, {| Version := Version v;
                   Entries := Entries v;
                   Folders := remove_at i (Folders v);
                   settings := settings v;
                   vault_CreatedAt := vault_CreatedAt v;
                   vault_UpdatedAt := now |})
  | None => Ok (false, v)
  end).

(** [FindFolder] finds a folder by ID. *)
Definition FindFolder (v : Vault) (id : string) : result (option Folder) :=
  find folder_ID id (Folders v).

(** [Update] updates the vault timestamp. *)
Definition Update (v : Vault) (now : Time) : Vault :=
  {| Version := Version v;
     Entries := Entries v;
     Folders := Folders v;
     settings := settings v;
     vault_CreatedAt := vault_CreatedAt v;
     vault_UpdatedAt := now |}.

(** [UpdateAccessTime] updates the last accessed timestamp. *)
Definition UpdateAccessTime (e : Entry) (now : Time) : Entry :=
  mkEntry (ID e) (Type_ e) (Name e) (Username e) (Password e) (URI e) (Notes e)
    (TOTPSecret e) (CustomFields e) (FolderID e) (IsFavorite e) (Tags e)
    (CreatedAt e) (UpdatedAt e) now.

(** [Entry.Update] sets the updated timestamp. *)
Definition Entry_Update (e : Entry) (now : Time) : Entry :=
  mkEntry (ID e) (Type_ e) (Name e) (Username e) (Password e) (URI e) (Notes e)
    (TOTPSecret e) (CustomFields e) (FolderID e) (IsFavorite e) (Tags e)
    (CreatedAt e) now (AccessedAt e).

(* ------------------------------------------------------------------ *)
(** ** Finding, adding and removing by ID *)

Section ByIDFacts.

Context {A : Type} (id_of : A -> string).

Lemma find_app (id : string) (xs ys : list (option A)) :
  find id_of id (xs ++ ys)
  = match find id_of id xs with
    | Ok None => find id_of id ys
    | r => r
    end.
Proof.
  induction xs as [|[x|] xs IH]; cbn [app find]; try reflexivity.
  destruct (String.eqb (id_of x) id); [reflexivity | exact IH].
Qed.

(** The two loops stop at the same element. *)
Lemma index_find (id : string) (xs : list (option A)) :
  forall i,
    match index id_of id xs i, find id_of id xs with
    | Ok (Some j), Ok (Some x) =>
        exists before after,
          xs = before ++ Some x :: after /\
          j = (i + List.length before)%nat /\
          id_of x = id /\
          find id_of id before = Ok None
    | Ok None, Ok None => True
    | Panic m, Panic m' => m = m'
    | _, _ => False
    end.
Proof.
  induction xs as [|[x|] xs IH]; intro i; cbn [index find];
    [exact I | | reflexivity].
  destruct (String.eqb_spec (id_of x) id) as [Hx|Hx].
  - exists [], xs. cbn [app List.length find]. repeat split; auto.
  - specialize (IH (S i)).
    destruct (index id_of id xs (S i)) as [[j|]| |],
      (find id_of id xs) as [[y|]| |]; auto.
    destruct IH as (before & after & -> & -> & Hy & Hb).
    exists (Some x :: before), after. cbn [app List.length find].
    destruct (String.eqb_spec (id_of x) id); [contradiction|].
    repeat split; auto; lia.
Qed.

Lemma remove_at_middle (before after : list (option A)) (x : option A) :
  remove_at (List.length before) (before ++ x :: after) = before ++ after.
Proof.
  unfold remove_at.
  destruct (firstn_skipn_app_exact before (x :: after) (List.length before)
              eq_refl) as [Hf _].
  rewrite Hf. f_equal.
  change (S (List.length before)) with (1 + List.length before)%nat.
  rewrite <- skipn_skipn.
  destruct (firstn_skipn_app_exact before (x :: after) (List.length before)
              eq_refl) as [_ Hs].
  now rewrite Hs.
Qed.

(** Taking out an element does not change what is found under another
    ID. *)
Lemma find_without (id id' : string) (before after : list (option A)) (x : A) :
  id_of x = id -> id' <> id ->
  find id_of id' (before ++ Some x :: after) = find id_of id' (before ++ after).
Proof.
  intros Hx Hne. rewrite !find_app. cbn [find].
  destruct (String.eqb_spec (id_of x) id'); [congruence | reflexivity].
Qed.

End ByIDFacts.

(** X26. [AddEntry] appends and does not look at the ID: after it,
    [FindEntry] returns for every ID what it returned before, and the new
    entry only for an ID that was not found before.  So an entry added under
    an ID that is already in the vault is never found. *)
Theorem FindEntry_after_AddEntry (v : Vault) (e : Entry) (now : Time)
  (id : string) :
  FindEntry (AddEntry v (Some e) now) id
  = match FindEntry v id with
    | Ok None => if String.eqb (ID e) id then Ok (Some e) else Ok None
    | found => found
    end.
Proof.
  unfold FindEntry, AddEntry. cbn [Entries]. rewrite find_app.
  reflexivity.
Qed.

(** X27. [RemoveEntry] removes the entry that [FindEntry] finds, and only
    that one: it returns true exactly when [FindEntry] finds an entry under
    the ID; the vault then holds the same entries in the same order without
    the first one of that ID, and the new timestamp, and nothing else has
    changed; when no entry is found the vault stays as it is, timestamp
    included; and it panics on a nil entry exactly when [FindEntry] does. *)
Theorem RemoveEntry_removes_what_FindEntry_finds (v : Vault) (id : string)
  (now : Time) :
  match FindEntry v id, RemoveEntry v id now with
  | Ok (Some e), Ok (true, v') =>
      exists before after,
        Entries v = before ++ Some e :: after /\
        Entries v' = before ++ after /\
        ID e = id /\
        find ID id before = Ok None /\
        v' = {| Version := Version v; Entries := before ++ after;
                Folders := Folders v; settings := settings v;
                vault_CreatedAt := vault_CreatedAt v;
                vault_UpdatedAt := now |}
  | Ok None, Ok (false, v') => v' = v
  | Panic m, Panic m' => m = m'
  | _, _ => False
  end.
Proof.
  unfold FindEntry, RemoveEntry.
  pose proof (index_find ID id (Entries v) 0) as H.
  destruct (index ID id (Entries v) 0) as [[j|]| |],
    (find ID id (Entries v)) as [[x|]| |]; cbn [bind]; auto.
  destruct H as (before & after & Hxs & -> & Hx & Hb).
  exists before, after. rewrite Hxs. cbn [Nat.add].
  rewrite remove_at_middle. repeat split; auto.
Qed.

(** X28. After a [RemoveEntry] that returned true, [FindEntry] returns for
    every other ID what it returned before, and for the removed ID the next
    entry of that ID, if there is one (IDs are not checked to be unique). *)
Theorem FindEntry_after_RemoveEntry (v v' : Vault) (id : string) (now : Time) :
  RemoveEntry v id now = Ok (true, v') ->
  (forall id', id' <> id -> FindEntry v' id' = FindEntry v id') /\
  exists before e after,
    Entries v = before ++ Some e :: after /\
    FindEntry v id = Ok (Some e) /\
    FindEntry v' id = find ID id after.
Proof.
  unfold RemoveEntry, FindEntry. intro Hrm.
  pose proof (index_find ID id (Entries v) 0) as H.
  destruct (index ID id (Entries v) 0) as [[j|]| |]; cbn [bind] in Hrm;
    try discriminate.
  injection Hrm as <-. cbn [Entries].
  destruct (find ID id (Entries v)) as [[x|]| |] eqn:Hfind; try contradiction.
  destruct H as (before & after & Hxs & -> & Hx & Hb).
  rewrite Hxs in *. cbn [Nat.add]. rewrite remove_at_middle. split.
  - intros id' Hne. symmetry. now apply (find_without ID id).
  - exists before, x, after. split; [reflexivity|]. split; [reflexivity|].
    rewrite find_app, Hb. reflexivity.
Qed.

Definition sample_time : Time := totp.time_Unix 1700000000 0.

Definition sample_entry (id name : string) : Entry :=
  mkEntry id EntryTypeLogin name "" "" "" "" "" [] "" false []
    sample_time sample_time sample_time.

(** A vault with two entries under the same ID and one under another. *)
Definition sample_vault : Vault :=
  {| Version := "1.0";
     Entries := [Some (sample_entry "a" "first"); Some (sample_entry "b" "other");
                 Some (sample_entry "a" "second")];
     Folders := [];
     settings := DefaultSettings;
     vault_CreatedAt := sample_time;
     vault_UpdatedAt := sample_time |}.

Lemma FindEntry_after_RemoveEntry_witness :
  let v' := {| Version := "1.0";
               Entries := [Some (sample_entry "b" "other");
                           Some (sample_entry "a" "second")];
               Folders := [];
               settings := DefaultSettings;
               vault_CreatedAt := sample_time;
               vault_UpdatedAt := totp.time_Unix 1700000060 0 |} in
  (forall id', id' <> "a"%string ->
               FindEntry v' id' = FindEntry sample_vault id') /\
  exists before e after,
    Entries sample_vault = before ++ Some e :: after /\
    FindEntry sample_vault "a" = Ok (Some e) /\
    FindEntry v' "a" = find ID "a" after.
Proof.
  apply (FindEntry_after_RemoveEntry sample_vault _ "a"
           (totp.time_Unix 1700000060 0)).
  reflexivity.
Defined.

(** X29. Folders are kept like entries, and removing one touches nothing
    else: [AddFolder] appends without looking at the ID, [RemoveFolder]
    removes the folder that [FindFolder] finds and returns true exactly when
    there is one, and the entries of the vault (those filed under the
    removed folder too) and its other folders (its subfolders too) stay as
    they are. *)
Theorem RemoveFolder_removes_what_FindFolder_finds (v : Vault) (id : string)
  (now : Time) :
  (forall f id',
      FindFolder (AddFolder v (Some f) now) id'
      = match FindFolder v id' with
        | Ok None => if String.eqb (folder_ID f) id' then Ok (Some f) else Ok None
        | found => found
        end) /\
  match FindFolder v id, RemoveFolder v id now with
  | Ok (Some f), Ok (true, v') =>
      exists before after,
        Folders v = before ++ Some f :: after /\
        folder_ID f = id /\
        find folder_ID id before = Ok None /\
        v' = {| Version := Version v; Entries := Entries v;
                Folders := before ++ after; settings := settings v;
                vault_CreatedAt := vault_CreatedAt v;
                vault_UpdatedAt := now |} /\
        forall id', id' <> id -> FindFolder v' id' = FindFolder v id'
  | Ok None, Ok (false, v') => v' = v
  | Panic m, Panic m' => m = m'
  | _, _ => False
  end.
Proof.
  split.
  { intros f id'. unfold FindFolder, AddFolder. cbn [Folders].
    now rewrite find_app. }
  unfold FindFolder, RemoveFolder.
  pose proof (index_find folder_ID id (Folders v) 0) as H.
  destruct (index folder_ID id (Folders v) 0) as [[j|]| |],
    (find folder_ID id (Folders v)) as [[x|]| |] eqn:Hfind; cbn [bind]; auto.
  destruct H as (before & after & Hxs & -> & Hx & Hb).
  exists before, after. rewrite Hxs. cbn [Nat.add].
  rewrite remove_at_middle. repeat split; auto.
  intros id' Hne. cbn [Folders]. symmetry.
  now apply (find_without folder_ID id).
Qed.

End entity.


(* ================================================================== *)
(** * Package tui: saving an entry *)

Section Editing.

(** The JSON encodings of [entity.Vault] and of the KDF parameters come
    from outside the packages modelled here. *)
Variable json_Marshal_Vault : entity.Vault -> result (list byte).
Variable json_Unmarshal_Vault : list byte -> result entity.Vault.
Variable json_Marshal_Params : KeyDerivationParams -> result (list byte).
Variable json_Unmarshal_Params : list byte -> result KeyDerivationParams.

(** [screens.SaveEntryMsg]. *)
Record SaveEntryMsg : Type := mkSaveEntryMsg {
  Entry : option entity.Entry;
  IsNew : bool
}.

(** [handleSaveEntry] handles saving an entry.  [Err] is the error it
    leaves in [a.err]; a nil [a.vault] panics, and a nil [a.masterKey] is a
    key of no bytes. *)
Definition handleSaveEntry (a : App entity.Vault) (msg : SaveEntryMsg)
  (now : entity.Time) (os : OS) (w : World)
  : result unit * App entity.Vault * World * list FS :=
  match app_vault _ a with
  | None => (entity.nil_dereference, a, w, [])
  | Some vault =>
      let vault :=
        if IsNew msg then
          (* Add new entry *)
          entity.AddEntry vault (Entry msg) now
        else
          (* Entry is already updated in place *)
          entity.Update vault now in
      let a := {| app_repository := app_repository _ a;
                  app_vault := Some vault;
                  app_masterKey := app_masterKey _ a |} in
      (* Load existing KDF params from file *)
      match wrap "failed to load vault params: %w"
              (LoadParams json_Unmarshal_Params (app_repository _ a) (files w))
      with
      | Err e => (Err e, a, w, [])
      | Panic m => (Panic m, a, w, [])
      | Ok params =>
          (* Save vault to disk with the existing KDF params *)
          let key := match app_masterKey _ a with Some k => k | None => [] end in
          let '(saved, w, trace) :=
            Save _ json_Marshal_Vault json_Marshal_Params
              (app_repository _ a) vault key params os w in
          match wrap "failed to save vault: %w" saved with
          | Err e => (Err e, a, w, trace)
          | Panic m => (Panic m, a, w, trace)
          | Ok _ => (Ok tt, a, w, trace)
          end
      end
  end.

(** X30. When [handleSaveEntry] leaves no error, the vault on disk is the
    vault in memory: the application holds the vault with the new entry
    added (or, for an edited entry, with the new timestamp), the file still
    holds the key-derivation parameters it held, and [Load] under the master
    key returns that vault (with JSON encodings that can be read back).  The
    application was unlocked: it held a vault and a key. *)
Theorem handleSaveEntry_saves_the_vault (a a' : App entity.Vault)
  (msg : SaveEntryMsg) (now : entity.Time) (os : OS) (w w' : World)
  (trace : list FS) :
  handleSaveEntry a msg now os w = (Ok tt, a', w', trace) ->
  (forall vault vaultJSON,
      app_vault _ a' = Some vault ->
      json_Marshal_Vault vault = Ok vaultJSON ->
      json_Unmarshal_Vault vaultJSON = Ok vault) ->
  (forall params paramsJSON,
      LoadParams json_Unmarshal_Params (app_repository _ a) (files w)
      = Ok params ->
      json_Marshal_Params params = Ok paramsJSON ->
      json_Unmarshal_Params paramsJSON = Ok params /\
      len paramsJSON < 2 ^ 32) ->
  exists vault key params,
    app_vault _ a = Some vault /\ app_masterKey _ a = Some key /\
    a' = {| app_repository := app_repository _ a;
            app_vault := Some (if IsNew msg
                               then entity.AddEntry vault (Entry msg) now
                               else entity.Update vault now);
            app_masterKey := Some key |} /\
    LoadParams json_Unmarshal_Params (app_repository _ a) (files w)
    = Ok params /\
    LoadParams json_Unmarshal_Params (app_repository _ a) (files w')
    = Ok params /\
    Load _ json_Unmarshal_Vault json_Unmarshal_Params (app_repository _ a)
      key (files w')
    = Ok (if IsNew msg then entity.AddEntry vault (Entry msg) now
          else entity.Update vault now).
Proof.
  unfold handleSaveEntry. intros Hsave Hv Hp.
  destruct (app_vault _ a) as [vault|] eqn:Hvault; [|discriminate].
  cbn [app_repository app_masterKey] in Hsave.
  destruct (LoadParams json_Unmarshal_Params (app_repository _ a) (files w))
    as [params|e|m] eqn:Hlp; cbn [wrap] in Hsave; try discriminate.
  set (vault' := if IsNew msg then entity.AddEntry vault (Entry msg) now
                 else entity.Update vault now) in *.
  set (key := match app_masterKey _ a with Some k => k | None => [] end) in *.
  destruct (Save _ json_Marshal_Vault json_Marshal_Params
              (app_repository _ a) vault' key params os w)
    as [[saved w1] t1] eqn:HS.
  destruct saved as [[]|e|m]; cbn [wrap] in Hsave; try discriminate.
  injection Hsave as <- <- <-.
  destruct (Load_Save entity.Vault json_Marshal_Vault json_Unmarshal_Vault
              json_Marshal_Params json_Unmarshal_Params _ _ _ _ _ _ _ _ HS
              (fun vaultJSON => Hv vault' vaultJSON eq_refl)
              (fun paramsJSON => Hp params paramsJSON eq_refl)) as [Hl Hlp'].
  (* the key is a real one *)
  destruct (Save_Ok_inv entity.Vault json_Marshal_Vault json_Marshal_Params
              _ _ _ _ _ _ _ _ HS)
    as (vaultJSON & encrypted & paramsJSON & _ & Henc & _).
  destruct (Encrypt_Ok_inv _ _ _ _ _ Henc) as (Hk & _).
  destruct (app_masterKey _ a) as [k|] eqn:Hkey;
    [|unfold key in Hk; cbn in Hk; discriminate].
  exists vault, k, params. repeat split; auto.
Qed.

End Editing.

(** A run of [handleSaveEntry] on the vault file of [demo.world]: a new
    entry is added to an empty vault.  The stand-in JSON decoder returns
    the vault the run leaves in memory. *)
Module edit.

Definition now : entity.Time := totp.time_Unix 1700000060 0.

Definition old_vault : entity.Vault := entity.NewVault entity.sample_time.

Definition msg : SaveEntryMsg :=
  mkSaveEntryMsg (Some (entity.sample_entry "a" "first")) true.

Definition new_vault : entity.Vault :=
  entity.AddEntry old_vault (Entry msg) now.

Definition Marshal_Vault (v : entity.Vault) : result (list byte) :=
  Ok (bytes (entity.Version v)).

Definition Unmarshal_Vault (b : list byte) : result entity.Vault := Ok new_vault.

Definition app : App entity.Vault :=
  mkApp entity.Vault demo.repo (Some old_vault) (Some demo.stored_key).

Definition saved :=
  handleSaveEntry Marshal_Vault run.Marshal_Params demo.Unmarshal_Params
    app msg now run.os run.stored.

End edit.

Lemma handleSaveEntry_saves_the_vault_witness :
  let w' := snd (fst edit.saved) in
  exists vault key params,
    app_vault _ edit.app = Some vault /\ app_masterKey _ edit.app = Some key /\
    snd (fst (fst edit.saved))
    = {| app_repository := app_repository _ edit.app;
         app_vault := Some (if IsNew edit.msg
                            then entity.AddEntry vault (Entry edit.msg) edit.now
                            else entity.Update vault edit.now);
         app_masterKey := Some key |} /\
    LoadParams demo.Unmarshal_Params (app_repository _ edit.app)
      (files run.stored) = Ok params /\
    LoadParams demo.Unmarshal_Params (app_repository _ edit.app) (files w')
    = Ok params /\
    Load _ edit.Unmarshal_Vault demo.Unmarshal_Params
      (app_repository _ edit.app) key (files w')
    = Ok (if IsNew edit.msg
          then entity.AddEntry vault (Entry edit.msg) edit.now
          else entity.Update vault edit.now).
Proof.
  apply (handleSaveEntry_saves_the_vault edit.Marshal_Vault edit.Unmarshal_Vault
           run.Marshal_Params demo.Unmarshal_Params
           edit.app _ edit.msg edit.now run.os run.stored _
           (snd edit.saved)).
  - vm_compute. reflexivity.
  - intros vault vaultJSON Hvault _. vm_compute in Hvault.
    injection Hvault as <-. vm_compute. reflexivity.
  - read_back.
Defined.
